(** * NiimbotHeadlessSerialClient: the serial device session

    A shallow embedding of [src/client/headless_serial_impl.ts]: the
    session object that owns one serial port, gates outgoing writes
    through a mutex and drains incoming data to the packet decoder.

    The methods of the class are written once, as programs over the
    operations they perform on the session ([prog]).  Two interpreters
    run them: [exec] runs one call to completion, and the task pool of
    [System] interleaves several calls at their [await] points, as the
    JavaScript event loop does. *)

From Stdlib.Strings Require Import String Byte.
From stdpp Require Import base tactics option list.

Local Open Scope string_scope.
Local Open Scope list_scope.

(** ** Data *)

(** [Uint8Array] / [Buffer]. *)
Abbreviation bytes := (list byte).

(** A JavaScript [Error] with its message. *)
Inductive Error := MkError (message : string).

(** [ConnectResult] of niimbluelib.  The class only names
    [ConnectResult.FirmwareErrors]; every other member of the enum is
    kept by its numeric code. *)
Inductive ConnectResult :=
| FirmwareErrors
| ResultCode (code : nat).

Record ConnectionInfo := {
  deviceName : string;
  result : ConnectResult;
}.

Inductive ClientEvent :=
| ConnectEvent (info : ConnectionInfo)
| DisconnectEvent
| RawPacketSentEvent (data : bytes).

(** A serial port object is named by its position in the list of ports
    created so far; an asynchronous call is named by a task number. *)
Abbreviation handle := nat.
Abbreviation tid := nat.

(** ** The serial port *)

(** What one [read()] finds at the head of the port's buffer: a chunk,
    or a fault of the underlying stream.  An empty buffer reads as
    [null]. *)
Inductive ReadItem :=
| Chunk (data : bytes)
| ReadFault (e : Error).

(** A port that has been closed owes one close notification until the
    notification has arrived ([notifying]). *)
Record SerialPort := {
  path : string;
  opened : bool;
  notifying : bool;
  incoming : list ReadItem;
  written : list bytes;
  closeListeners : nat;
  readableListeners : nat;
}.

(** ** The mutex of the abstract client *)

Record Mutex := {
  holder : option tid;
  waiters : list tid;
}.

Module MutexOps.

Definition idle : Mutex := {| holder := None; waiters := [] |}.

(** Hand the gate to the longest waiting caller when it is free. *)
Definition dispatch (m : Mutex) : Mutex :=
  match holder m, waiters m with
  | None, t :: q => {| holder := Some t; waiters := q |}
  | _, _ => m
  end.

Definition acquire (t : tid) (m : Mutex) : Mutex :=
  dispatch {| holder := holder m; waiters := waiters m ++ [t] |}.

Definition release (m : Mutex) : Mutex :=
  dispatch {| holder := None; waiters := waiters m |}.

End MutexOps.

(** ** Observable actions *)

Inductive Event :=
| EvEmit (e : ClientEvent)
| EvOpen (h : handle) (p : string)
| EvOpenFailed (p : string) (e : Error)
| EvClose (h : handle)
| EvWrite (h : handle) (data : bytes)
| EvWriteFailed (h : handle) (data : bytes)
| EvSleep (ms : nat)
| EvEnqueue (t : tid)
| EvAcquire (t : tid)
| EvRelease (t : tid)
| EvDecode (chunk : bytes)
| EvConsole (chunk : bytes)
| EvStopHeartbeat
| EvNegotiate
| EvFetchInfo.

(** ** The collaborators outside the class *)

(** How a step of the handshake ends: it completes, it is rejected
    while the port stays open, or the device goes away under it. *)
Inductive Outcome (A : Type) :=
| Completes (a : A)
| Rejected (e : Error)
| DeviceLost (e : Error).
Arguments Completes {A} a.
Arguments Rejected {A} e.
Arguments DeviceLost {A} e.

(** The environment answers from the history of the session so far. *)
Record Env := {
  open_fault : list Event -> string -> option Error;
  negotiate_outcome : list Event -> Outcome (option ConnectResult);
  fetch_outcome : list Event -> Outcome unit;
  decoder_fault : list Event -> bytes -> option Error;
}.

(** ** The state of the world *)

Record World := {
  (* fields of NiimbotHeadlessSerialClient *)
  device : option handle;
  portName : option string;
  isOpen : bool;
  (* fields inherited from NiimbotAbstractClient *)
  connectResult : option ConnectResult;
  packetIntervalMs : nat;
  debug : bool;
  heartbeat : bool;
  mutex : Mutex;
  (* outside the client *)
  ports : list SerialPort;
  env : Env;
  trace : list Event;
}.

Definition set_device (d : option handle) (w : World) : World :=
  {| device := d; portName := portName w; isOpen := isOpen w;
     connectResult := connectResult w; packetIntervalMs := packetIntervalMs w;
     debug := debug w; heartbeat := heartbeat w; mutex := mutex w;
     ports := ports w; env := env w; trace := trace w |}.

Definition set_portName (n : option string) (w : World) : World :=
  {| device := device w; portName := n; isOpen := isOpen w;
     connectResult := connectResult w; packetIntervalMs := packetIntervalMs w;
     debug := debug w; heartbeat := heartbeat w; mutex := mutex w;
     ports := ports w; env := env w; trace := trace w |}.

Definition set_isOpen (b : bool) (w : World) : World :=
  {| device := device w; portName := portName w; isOpen := b;
     connectResult := connectResult w; packetIntervalMs := packetIntervalMs w;
     debug := debug w; heartbeat := heartbeat w; mutex := mutex w;
     ports := ports w; env := env w; trace := trace w |}.

Definition set_connectResult (r : option ConnectResult) (w : World) : World :=
  {| device := device w; portName := portName w; isOpen := isOpen w;
     connectResult := r; packetIntervalMs := packetIntervalMs w;
     debug := debug w; heartbeat := heartbeat w; mutex := mutex w;
     ports := ports w; env := env w; trace := trace w |}.

Definition set_heartbeat (b : bool) (w : World) : World :=
  {| device := device w; portName := portName w; isOpen := isOpen w;
     connectResult := connectResult w; packetIntervalMs := packetIntervalMs w;
     debug := debug w; heartbeat := b; mutex := mutex w;
     ports := ports w; env := env w; trace := trace w |}.

Definition set_mutex (m : Mutex) (w : World) : World :=
  {| device := device w; portName := portName w; isOpen := isOpen w;
     connectResult := connectResult w; packetIntervalMs := packetIntervalMs w;
     debug := debug w; heartbeat := heartbeat w; mutex := m;
     ports := ports w; env := env w; trace := trace w |}.

Definition set_ports (ps : list SerialPort) (w : World) : World :=
  {| device := device w; portName := portName w; isOpen := isOpen w;
     connectResult := connectResult w; packetIntervalMs := packetIntervalMs w;
     debug := debug w; heartbeat := heartbeat w; mutex := mutex w;
     ports := ps; env := env w; trace := trace w |}.

Definition log (e : Event) (w : World) : World :=
  {| device := device w; portName := portName w; isOpen := isOpen w;
     connectResult := connectResult w; packetIntervalMs := packetIntervalMs w;
     debug := debug w; heartbeat := heartbeat w; mutex := mutex w;
     ports := ports w; env := env w; trace := trace w ++ [e] |}.

Definition set_port (h : handle) (p : SerialPort) (w : World) : World :=
  set_ports (<[h := p]> (ports w)) w.

Definition with_opened (b : bool) (p : SerialPort) : SerialPort :=
  {| path := path p; opened := b; notifying := notifying p;
     incoming := incoming p; written := written p;
     closeListeners := closeListeners p; readableListeners := readableListeners p |}.

Definition with_notifying (b : bool) (p : SerialPort) : SerialPort :=
  {| path := path p; opened := opened p; notifying := b;
     incoming := incoming p; written := written p;
     closeListeners := closeListeners p; readableListeners := readableListeners p |}.

Definition with_incoming (q : list ReadItem) (p : SerialPort) : SerialPort :=
  {| path := path p; opened := opened p; notifying := notifying p;
     incoming := q; written := written p;
     closeListeners := closeListeners p; readableListeners := readableListeners p |}.

Definition with_written (l : list bytes) (p : SerialPort) : SerialPort :=
  {| path := path p; opened := opened p; notifying := notifying p;
     incoming := incoming p; written := l;
     closeListeners := closeListeners p; readableListeners := readableListeners p |}.

Definition with_closeListeners (n : nat) (p : SerialPort) : SerialPort :=
  {| path := path p; opened := opened p; notifying := notifying p;
     incoming := incoming p; written := written p;
     closeListeners := n; readableListeners := readableListeners p |}.

Definition with_readableListeners (n : nat) (p : SerialPort) : SerialPort :=
  {| path := path p; opened := opened p; notifying := notifying p;
     incoming := incoming p; written := written p;
     closeListeners := closeListeners p; readableListeners := n |}.

(** ** Programs *)

(** The operations a method performs, each with the type of its answer.
    Reads and writes of the object's fields, calls into the inherited
    client, and calls on the serial port. *)
Inductive op : Type -> Type :=
| GetDevice : op (option handle)
| SetDevice (h : handle) : op unit
| GetPortName : op (option string)
| SetPortName (n : string) : op unit
| GetIsOpen : op bool
| SetIsOpen (b : bool) : op unit
| GetPacketIntervalMs : op nat
| GetDebug : op bool
| GetConnectResult : op (option ConnectResult)
| StopHeartbeat : op unit
| Emit (e : ClientEvent) : op unit
| ProcessRawPacket (chunk : bytes) : op (option Error)
| ConsoleInfo (chunk : bytes) : op unit
| InitialNegotiate : op (option Error)
| FetchPrinterInfo : op (option Error)
| MutexAcquire : op unit
| MutexGranted : op unit
| MutexRelease : op unit
| Sleep (ms : nat) : op unit
| Yield : op unit
| SerialOpen (p : string) : op (Error + handle)
| PortOnClose (h : handle) : op unit
| PortOnReadable (h : handle) : op unit
| PortClose (h : handle) : op unit
| PortRead (h : handle) : op (Error + option bytes)
| PortWrite (h : handle) (data : bytes) : op (option Error).

(** A method body: it returns, throws, runs out of loop fuel, or
    performs an operation and goes on with its answer. *)
Inductive prog (A : Type) : Type :=
| Ret (a : A)
| Throw (e : Error)
| Diverge
| Vis {X : Type} (o : op X) (k : X -> prog A).
Arguments Ret {A} a.
Arguments Throw {A} e.
Arguments Diverge {A}.
Arguments Vis {A X} o k.

Fixpoint bind {A B : Type} (p : prog A) (f : A -> prog B) : prog B :=
  match p with
  | Ret a => f a
  | Throw e => Throw e
  | Diverge => Diverge
  | Vis o k => Vis o (fun x => bind (k x) f)
  end.

(** Run [p] and hand back what it threw instead of throwing it. *)
Fixpoint attempt {A : Type} (p : prog A) : prog (Error + A) :=
  match p with
  | Ret a => Ret (inr a)
  | Throw e => Ret (inl e)
  | Diverge => Diverge
  | Vis o k => Vis o (fun x => attempt (k x))
  end.

Definition call {X : Type} (o : op X) : prog X := Vis o Ret.

Declare Scope prog_scope.
Delimit Scope prog_scope with prog.
Bind Scope prog_scope with prog.
Notation "x <- p ; q" := (bind p (fun x => q))
  (at level 20, p at level 100, q at level 200, only parsing) : prog_scope.
Notation "p ;; q" := (bind p (fun _ => q))
  (at level 100, q at level 200, only parsing, right associativity) : prog_scope.
Local Open Scope prog_scope.

(** [try { p } catch (e) { h e }] *)
Definition try_catch {A : Type} (p : prog A) (h : Error -> prog A) : prog A :=
  r <- attempt p;
  match r with
  | inl e => h e
  | inr a => Ret a
  end.

(** [try { p } finally { f }] *)
Definition try_finally {A : Type} (p : prog A) (f : prog unit) : prog A :=
  r <- attempt p;
  f;;
  match r with
  | inl e => Throw e
  | inr a => Ret a
  end.

(** An operation that reports failure in its answer, turned into one
    that throws. *)
Definition rejecting (o : op (option Error)) : prog unit :=
  r <- call o;
  match r with
  | Some e => Throw e
  | None => Ret tt
  end.

Definition resolving {A : Type} (o : op (Error + A)) : prog A :=
  r <- call o;
  match r with
  | inl e => Throw e
  | inr a => Ret a
  end.

(** [await f()] for an async method [f] of the class: the body runs up
    to its end, and the caller goes on in a later turn of the loop. *)
Definition await {A : Type} (p : prog A) : prog A :=
  a <- p; call Yield;; Ret a.

(** [x!.m()]: a [TypeError] when [x] is undefined. *)
Definition TypeError : Error := MkError "Cannot read properties of undefined".

Definition nonnull {A : Type} (x : option A) : prog A :=
  match x with
  | Some a => Ret a
  | None => Throw TypeError
  end.

(** Modelled from the spec: [Mutex.runExclusive] of the abstract client
    (the async-mutex package, not in this repository): "acquires the
    exclusive gate (first-come-first-served queueing of competing
    callers; no priority) ... then releases the gate".  The caller joins
    the queue at the call, waits for its turn, and leaves the gate
    whether the callback returns or throws. *)
Definition runExclusive {A : Type} (callback : prog A) : prog A :=
  call MutexAcquire;;
  call MutexGranted;;
  try_finally callback (call MutexRelease).

(** ** The methods of NiimbotHeadlessSerialClient *)

Definition setPort (name : string) : prog unit :=
  call (SetPortName name).

Definition isConnected : prog bool :=
  call GetIsOpen.

Definition disconnect : prog unit :=
  call StopHeartbeat;;
  d <- call GetDevice;
  match d with
  | Some h => call (PortClose h)
  | None => Ret tt
  end.

Definition serialOpenAsync (p : string) : prog handle :=
  resolving (SerialOpen p).

Definition initialNegotiate : prog unit := rejecting InitialNegotiate.

Definition fetchPrinterInfo : prog unit := rejecting FetchPrinterInfo.

(** The template literal [`Serial (${this.portName})`]. *)
Definition serialLabel (n : option string) : string :=
  "Serial (" ++ default "undefined" n ++ ")".

Definition connect : prog ConnectionInfo :=
  await disconnect;;
  n <- call GetPortName;
  match n with
  | None | Some EmptyString => Throw (MkError "Port not set")
  | Some name =>
      _port <- serialOpenAsync name;
      call (SetIsOpen true);;
      call (PortOnClose _port);;
      call (PortOnReadable _port);;
      call (SetDevice _port);;
      try_catch
        (initialNegotiate;; fetchPrinterInfo)
        (fun e => call (SetIsOpen false);; await disconnect;; Throw e);;
      n' <- call GetPortName;
      r <- call GetConnectResult;
      let result := {| deviceName := serialLabel n';
                       result := default FirmwareErrors r |} in
      call (Emit (ConnectEvent result));;
      Ret result
  end.

(** The [while (true)] of [dataReady], unrolled [fuel] times. *)
Fixpoint dataReady (fuel : nat) : prog unit :=
  match fuel with
  | O => Diverge
  | S fuel' =>
      again <- try_catch
        (d <- call GetDevice;
         h <- nonnull d;
         result <- resolving (PortRead h);
         match result with
         | Some chunk =>
             dbg <- call GetDebug;
             (if dbg then call (ConsoleInfo chunk) else Ret tt);;
             rejecting (ProcessRawPacket chunk);;
             Ret true
         | None => Ret false
         end)
        (fun _e => Ret false);
      if again then dataReady fuel' else Ret tt
  end.

(** The closure [send] of [sendRaw], with the [data] it captures. *)
Definition send (data : bytes) : prog unit :=
  c <- isConnected;
  if negb c then Throw (MkError "Not connected")
  else
    ms <- call GetPacketIntervalMs;
    call (Sleep ms);;
    d <- call GetDevice;
    h <- nonnull d;
    rejecting (PortWrite h data);;
    call (Emit (RawPacketSentEvent data)).

Definition sendRaw (data : bytes) (force : bool) : prog unit :=
  if force then await (send data) else await (runExclusive (send data)).

(** ** What the operations do *)

(** The listener that [connect] installs on the port's [close] event
    (lines 57-60). *)
Definition closeListener (w : World) : World :=
  log (EvEmit DisconnectEvent) (set_isOpen false w).

(** Modelled from the spec: the serialport package is not part of this
    repository.  "[close()] - idempotent; closing an already-closed
    handle is a no-op", and the handle "emits a closed notification
    exactly once per close, whether caller-initiated or
    device-initiated".  The call closes the port and leaves it owing
    its notification; the notification is no part of the call, it
    arrives in a later turn ([port_closed]).  The same happens when the
    device closes the port. *)
Definition port_close (h : handle) (w : World) : World :=
  match ports w !! h with
  | Some p =>
      if opened p
      then log (EvClose h)
             (set_port h (with_notifying true (with_opened false p)) w)
      else w
  | None => w
  end.

(** Modelled from the spec: the "closed notification" of a port that
    owes one arrives, and every listener installed on it runs once. *)
Definition port_closed (h : handle) (w : World) : World :=
  match ports w !! h with
  | Some p =>
      if notifying p
      then Nat.iter (closeListeners p) closeListener
             (set_port h (with_notifying false p) w)
      else w
  | None => w
  end.

(** A port that has just opened, nothing listening on it yet. *)
Definition new_port (p : string) : SerialPort :=
  {| path := p; opened := true; notifying := false; incoming := []; written := [];
     closeListeners := 0; readableListeners := 0 |}.

(** Modelled from the spec: "[open(endpoint, baudRate)] fails with
    TransportUnavailable if the endpoint cannot be opened"; whether it
    can is the environment's answer. *)
Definition serial_open (p : string) (w : World) : (Error + handle) * World :=
  match open_fault (env w) (trace w) p with
  | Some e => (inl e, log (EvOpenFailed p e) w)
  | None =>
      let h := length (ports w) in
      (inr h, log (EvOpen h p) (set_ports (ports w ++ [new_port p]) w))
  end.

(** Modelled from the spec: "[readAvailable()] - non-blocking; returns
    None when no more data is currently buffered", and the transport
    "may throw once fully drained or closed". *)
Definition port_read (h : handle) (w : World) : (Error + option bytes) * World :=
  match ports w !! h with
  | Some p =>
      match incoming p with
      | [] => (inr None, w)
      | Chunk c :: q => (inr (Some c), set_port h (with_incoming q p) w)
      | ReadFault e :: q => (inl e, set_port h (with_incoming q p) w)
      end
  | None => (inl TypeError, w)
  end.

(** Modelled from the spec: "[write(bytes)] fails with WriteFailed if
    the handle is not open". *)
Definition port_write (h : handle) (data : bytes) (w : World) : option Error * World :=
  match ports w !! h with
  | Some p =>
      if opened p
      then (None, log (EvWrite h data)
                    (set_port h (with_written (written p ++ [data]) p) w))
      else (Some (MkError "Port is not open"), log (EvWriteFailed h data) w)
  | None => (Some TypeError, w)
  end.

(** [_port.on("close", ...)] and [_port.on("readable", ...)]: one more
    registration of the listener. *)
Definition port_on_close (h : handle) (w : World) : World :=
  match ports w !! h with
  | Some p => set_port h (with_closeListeners (S (closeListeners p)) p) w
  | None => w
  end.

Definition port_on_readable (h : handle) (w : World) : World :=
  match ports w !! h with
  | Some p => set_port h (with_readableListeners (S (readableListeners p)) p) w
  | None => w
  end.

(** The device goes away under the session (cable unplugged): the
    port it was on is closed. *)
Definition device_lost (w : World) : World :=
  match device w with
  | Some h => port_close h w
  | None => w
  end.

(** Modelled from the spec: [initialNegotiate] belongs to the abstract
    client of the library, not to this repository.  [connect] "runs the
    external negotiation handshake, then fetches device info ...  If
    either fails, the state machine tears down the Transport Handle and
    propagates the original error".  Of a step only its end is kept, as
    the environment's answer: it completes (the negotiation with the
    result code it recorded), it is rejected, or the device goes away
    under it.  The packets the step exchanges with the device are not
    modelled. *)
Definition negotiate (w : World) : option Error * World :=
  match negotiate_outcome (env w) (trace w) with
  | Completes r => (None, log EvNegotiate (set_connectResult r w))
  | Rejected e => (Some e, log EvNegotiate w)
  | DeviceLost e => (Some e, device_lost (log EvNegotiate w))
  end.

(** Modelled from the spec: [fetchPrinterInfo] of the library, kept in
    the same way as [negotiate]. *)
Definition fetch_info (w : World) : option Error * World :=
  match fetch_outcome (env w) (trace w) with
  | Completes _ => (None, log EvFetchInfo w)
  | Rejected e => (Some e, log EvFetchInfo w)
  | DeviceLost e => (Some e, device_lost (log EvFetchInfo w))
  end.

(** The answer of an operation performed by the call [self], and the
    world after it. *)
Definition perform (self : tid) {X : Type} (o : op X) (w : World) : X * World :=
  match o in op X return X * World with
  | GetDevice => (device w, w)
  | SetDevice h => (tt, set_device (Some h) w)
  | GetPortName => (portName w, w)
  | SetPortName n => (tt, set_portName (Some n) w)
  | GetIsOpen => (isOpen w, w)
  | SetIsOpen b => (tt, set_isOpen b w)
  | GetPacketIntervalMs => (packetIntervalMs w, w)
  | GetDebug => (debug w, w)
  | GetConnectResult => (connectResult w, w)
  | StopHeartbeat => (tt, log EvStopHeartbeat (set_heartbeat false w))
  | Emit e => (tt, log (EvEmit e) w)
  | ProcessRawPacket chunk =>
      (decoder_fault (env w) (trace w) chunk, log (EvDecode chunk) w)
  | ConsoleInfo chunk => (tt, log (EvConsole chunk) w)
  | InitialNegotiate => negotiate w
  | FetchPrinterInfo => fetch_info w
  | MutexAcquire =>
      (tt, set_mutex (MutexOps.acquire self (mutex w)) (log (EvEnqueue self) w))
  | MutexGranted => (tt, log (EvAcquire self) w)
  | MutexRelease =>
      (tt, set_mutex (MutexOps.release (mutex w)) (log (EvRelease self) w))
  | Sleep ms => (tt, log (EvSleep ms) w)
  | Yield => (tt, w)
  | SerialOpen p => serial_open p w
  | PortOnClose h => (tt, port_on_close h w)
  | PortOnReadable h => (tt, port_on_readable h w)
  | PortClose h => (tt, port_close h w)
  | PortRead h => port_read h w
  | PortWrite h data => port_write h data w
  end.

(** The operations at which an async function gives up the thread. *)
Definition is_await {X : Type} (o : op X) : bool :=
  match o with
  | InitialNegotiate | FetchPrinterInfo | MutexGranted | Sleep _ | Yield
  | SerialOpen _ => true
  | _ => false
  end.

(** An awaited promise is settled, except the gate's while another
    caller holds it. *)
Definition ready (self : tid) {X : Type} (o : op X) (w : World) : bool :=
  match o with
  | MutexGranted => bool_decide (holder (mutex w) = Some self)
  | _ => true
  end.

(** ** One call, run to its end *)

Inductive Result (A : Type) :=
| Returned (a : A)
| Raised (e : Error)
| OutOfFuel
| Blocked.
Arguments Returned {A} a.
Arguments Raised {A} e.
Arguments OutOfFuel {A}.
Arguments Blocked {A}.

Fixpoint exec {A : Type} (self : tid) (p : prog A) (w : World) : Result A * World :=
  match p with
  | Ret a => (Returned a, w)
  | Throw e => (Raised e, w)
  | Diverge => (OutOfFuel, w)
  | Vis o k =>
      if ready self o w
      then let '(x, w') := perform self o w in exec self (k x) w'
      else (Blocked, w)
  end.

(** The [readable] listener installed by [connect]: every registration
    runs [dataReady] once. *)
Definition readableListener (fuel : nat) (w : World) : World :=
  snd (exec 0 (dataReady fuel) w).

Definition port_readable (fuel : nat) (h : handle) (w : World) : World :=
  match ports w !! h with
  | Some p => Nat.iter (readableListeners p) (readableListener fuel) w
  | None => w
  end.

(** ** Several calls in flight *)

(** A call runs without interruption up to its next [await]. *)
Fixpoint advance (self : tid) (p : prog unit) (w : World) : prog unit * World :=
  match p with
  | Vis o k =>
      if is_await o then (p, w)
      else let '(x, w') := perform self o w in advance self (k x) w'
  | _ => (p, w)
  end.

(** A suspended call goes on once the promise it awaits is settled. *)
Definition resume (self : tid) (p : prog unit) (w : World) : option (prog unit * World) :=
  match p with
  | Vis o k =>
      if ready self o w
      then let '(x, w') := perform self o w in Some (advance self (k x) w')
      else None
  | _ => None
  end.

Definition settled_result (p : prog unit) : option (Result unit) :=
  match p with
  | Ret a => Some (Returned a)
  | Throw e => Some (Raised e)
  | Diverge => Some OutOfFuel
  | Vis _ _ => None
  end.

Inductive Call :=
| CallSetPort (name : string)
| CallConnect
| CallDisconnect
| CallSendRaw (data : bytes) (force : bool).

Definition body (c : Call) : prog unit :=
  match c with
  | CallSetPort name => setPort name
  | CallConnect => connect;; Ret tt
  | CallDisconnect => disconnect
  | CallSendRaw data force => sendRaw data force
  end.

Record System := {
  world : World;
  tasks : list (tid * prog unit);
  spawned : nat;
  settled : list (tid * Result unit);
}.

Definition boot (w : World) : System :=
  {| world := w; tasks := []; spawned := 0; settled := [] |}.

Fixpoint find_task (t : tid) (l : list (tid * prog unit)) : option (prog unit) :=
  match l with
  | [] => None
  | (t', p) :: l' => if Nat.eqb t t' then Some p else find_task t l'
  end.

Fixpoint drop_task (t : tid) (l : list (tid * prog unit)) : list (tid * prog unit) :=
  match l with
  | [] => []
  | (t', p) :: l' =>
      if Nat.eqb t t' then drop_task t l' else (t', p) :: drop_task t l'
  end.

(** File a call that has run up to an [await] or to its end. *)
Definition park (t : tid) (p : prog unit) (w : World) (s : System) : System :=
  match settled_result p with
  | Some r =>
      {| world := w; tasks := drop_task t (tasks s); spawned := spawned s;
         settled := settled s ++ [(t, r)] |}
  | None =>
      {| world := w; tasks := drop_task t (tasks s) ++ [(t, p)];
         spawned := spawned s; settled := settled s |}
  end.

(** What the event loop does next: it takes a new call, lets a
    suspended call go on, or hands over a report of a port: the device
    has closed it, its close notification, or data to read. *)
Inductive Label :=
| Invoke (c : Call)
| Resume (t : tid)
| Unplug (h : handle)
| Closed (h : handle)
| Readable (h : handle) (fuel : nat).

Definition step (l : Label) (s : System) : option System :=
  match l with
  | Invoke c =>
      let t := spawned s in
      let '(p, w) := advance t (body c) (world s) in
      Some (park t p w
              {| world := world s; tasks := tasks s; spawned := S t;
                 settled := settled s |})
  | Resume t =>
      match find_task t (tasks s) with
      | Some p =>
          match resume t p (world s) with
          | Some (p', w) => Some (park t p' w s)
          | None => None
          end
      | None => None
      end
  | Unplug h =>
      Some {| world := port_close h (world s); tasks := tasks s;
              spawned := spawned s; settled := settled s |}
  | Closed h =>
      Some {| world := port_closed h (world s); tasks := tasks s;
              spawned := spawned s; settled := settled s |}
  | Readable h fuel =>
      Some {| world := port_readable fuel h (world s); tasks := tasks s;
              spawned := spawned s; settled := settled s |}
  end.

Fixpoint run (ls : list Label) (s : System) : option System :=
  match ls with
  | [] => Some s
  | l :: ls' =>
      match step l s with
      | Some s' => run ls' s'
      | None => None
      end
  end.

(** ** A session used by one caller at a time *)

(** Bytes reach the port from the device. *)
Definition port_arrive (h : handle) (items : list ReadItem) (w : World) : World :=
  match ports w !! h with
  | Some p =>
      if opened p then set_port h (with_incoming (incoming p ++ items) p) w
      else w
  | None => w
  end.

(** What happens to a session between two moments of rest: a method
    is called and runs to its end, or the port reports something. *)
Inductive Action :=
| DoSetPort (name : string)
| DoConnect
| DoDisconnect
| DoSendRaw (data : bytes) (force : bool)
| DoUnplug (h : handle)
| DoClosed (h : handle)
| DoArrive (h : handle) (items : list ReadItem)
| DoReadable (h : handle) (fuel : nat).

Definition act (a : Action) (w : World) : World :=
  match a with
  | DoSetPort name => snd (exec 0 (setPort name) w)
  | DoConnect => snd (exec 0 connect w)
  | DoDisconnect => snd (exec 0 disconnect w)
  | DoSendRaw data force => snd (exec 0 (sendRaw data force) w)
  | DoUnplug h => port_close h w
  | DoClosed h => port_closed h w
  | DoArrive h items => port_arrive h items w
  | DoReadable h fuel => port_readable fuel h w
  end.

(** The object right after [new NiimbotHeadlessSerialClient()]. *)
Definition fresh (e : Env) (interval : nat) (dbg : bool) : World :=
  {| device := None; portName := None; isOpen := false;
     connectResult := None; packetIntervalMs := interval; debug := dbg;
     heartbeat := false; mutex := MutexOps.idle;
     ports := []; env := e; trace := [] |}.

Definition session (e : Env) (interval : nat) (dbg : bool) (acts : list Action) : World :=
  fold_left (fun w a => act a w) acts (fresh e interval dbg).

(** ** Reading the trace *)

Definition written_data (ev : Event) : option bytes :=
  match ev with
  | EvWrite _ data => Some data
  | _ => None
  end.

Definition decoded_chunk (ev : Event) : option bytes :=
  match ev with
  | EvDecode chunk => Some chunk
  | _ => None
  end.

(** The payloads the transport has been asked to write, oldest first. *)
Definition writes (tr : list Event) : list bytes := omap written_data tr.

(** The chunks handed to the decoder, oldest first. *)
Definition decoded (tr : list Event) : list bytes := omap decoded_chunk tr.

Definition is_close (ev : Event) : bool :=
  match ev with
  | EvClose _ => true
  | _ => false
  end.

Definition is_disconnect (ev : Event) : bool :=
  match ev with
  | EvEmit DisconnectEvent => true
  | _ => false
  end.

(** The handles that are open, counting positions from [i]. *)
Fixpoint live_from (i : handle) (l : list SerialPort) : list handle :=
  match l with
  | [] => []
  | p :: l' => (if opened p then [i] else []) ++ live_from (S i) l'
  end.

Definition live_handles (w : World) : list handle := live_from 0 (ports w).

(** ** The methods as functions on the world

    What each method leaves behind when it runs to its end, written
    with the operations of the port.  The lemmas [exec_disconnect],
    [exec_connect], [exec_sendRaw_forced], [exec_sendRaw_gated] and
    [exec_dataReady_S] below show that [exec] computes exactly these. *)

(** The world after [disconnect()]. *)
Definition torn_down (w : World) : World :=
  device_lost (log EvStopHeartbeat (set_heartbeat false w)).

(** The world after lines 55-66 of [connect]: the flag is set, both
    listeners are installed, the port is stored. *)
Definition installed (h : handle) (w : World) : World :=
  set_device (Some h) (port_on_readable h (port_on_close h (set_isOpen true w))).

(** [initialNegotiate()] followed by [fetchPrinterInfo()]: the error of
    the first step that fails, if any. *)
Definition handshake (w : World) : option Error * World :=
  match negotiate w with
  | (Some e, w') => (Some e, w')
  | (None, w') => fetch_info w'
  end.

(** The [ConnectionInfo] built at the end of [connect]. *)
Definition announced (w : World) : ConnectionInfo :=
  {| deviceName := serialLabel (portName w);
     result := default FirmwareErrors (connectResult w) |}.

(** A port on which both listeners of [connect] are installed. *)
Definition ready_port (name : string) : SerialPort :=
  {| path := name; opened := true; notifying := false; incoming := []; written := [];
     closeListeners := 1; readableListeners := 1 |}.

(** The world a successful [connect] returns in, spelled out. *)
Definition connected_world (name : string) (r : option ConnectResult) (w1 : World) : World :=
  let h := length (ports w1) in
  log EvFetchInfo
    (log EvNegotiate
       (set_connectResult r
          (set_device (Some h)
             (set_isOpen true
                (log (EvOpen h name) (set_ports (ports w1 ++ [ready_port name]) w1)))))).

(** The closure [send] of [sendRaw], run to its end. *)
Definition send_outcome (data : bytes) (w : World) : Result unit * World :=
  if isOpen w then
    let w1 := log (EvSleep (packetIntervalMs w)) w in
    match device w1 with
    | None => (Raised TypeError, w1)
    | Some h =>
        match port_write h data w1 with
        | (Some e, w2) => (Raised e, w2)
        | (None, w2) => (Returned tt, log (EvEmit (RawPacketSentEvent data)) w2)
        end
    end
  else (Raised (MkError "Not connected"), w).

(** What [this.device!.read()] would find. *)
Definition buffered (w : World) : list ReadItem :=
  match device w with
  | Some h =>
      match ports w !! h with
      | Some p => incoming p
      | None => []
      end
  | None => []
  end.

(** One turn of the loop of [dataReady]: whether it goes round again,
    and the world it leaves. *)
Definition drain_once (w : World) : bool * World :=
  match device w with
  | None => (false, w)
  | Some h =>
      match port_read h w with
      | (inl _, w1) => (false, w1)
      | (inr None, w1) => (false, w1)
      | (inr (Some chunk), w1) =>
          let w2 := if debug w1 then log (EvConsole chunk) w1 else w1 in
          (match decoder_fault (env w2) (trace w2) chunk with
           | Some _ => false
           | None => true
           end, log (EvDecode chunk) w2)
      end
  end.

(** What the words of the read loop ask for, on a buffer holding
    [items] when the trace is [tr]: "forwarding each non-empty chunk, in
    arrival order, to the external decoder", until the buffer is empty
    or "an error occurs", which ends the drain: a read that throws, or a
    decoder that throws on the chunk just handed to it.  The chunks
    handed to the decoder, and what stays in the buffer. *)
Fixpoint drained (e : Env) (dbg : bool) (tr : list Event) (items : list ReadItem)
  : list bytes * list ReadItem :=
  match items with
  | [] => ([], [])
  | ReadFault _ :: rest => ([], rest)
  | Chunk c :: rest =>
      let tr1 := if dbg then tr ++ [EvConsole c] else tr in
      match decoder_fault e tr1 c with
      | Some _ => ([c], rest)
      | None =>
          let '(cs, kept) := drained e dbg (tr1 ++ [EvDecode c]) rest in
          (c :: cs, kept)
      end
  end.

(** The trace when the decoder is called on a chunk. *)
Definition at_decoder (w : World) (c : bytes) : list Event :=
  if debug w then trace w ++ [EvConsole c] else trace w.

(** ** Invariants of a session used by one caller at a time *)

(** How many events of a kind a trace holds. *)
Fixpoint tally (f : Event -> bool) (tr : list Event) : nat :=
  match tr with
  | [] => 0
  | ev :: tr' => (if f ev then 1 else 0) + tally f tr'
  end.

(** How many ports owe their close notification. *)
Fixpoint owing (l : list SerialPort) : nat :=
  match l with
  | [] => 0
  | p :: l' => (if notifying p then 1 else 0) + owing l'
  end.

Definition owed (w : World) : nat := owing (ports w).

(** The disconnect events emitted so far. *)
Definition emitted_disconnects (w : World) : nat := tally is_disconnect (trace w).

Definition all_closed (w : World) : Prop :=
  forall h p, ports w !! h = Some p -> opened p = false.

(** The gate is free; a raised flag comes with a stored port that is
    open or owes its close notification; an open port is the stored
    one; a port that was opened has one close listener; and every close
    has been answered by one disconnect event or is still owed its
    notification. *)
Record WF (w : World) : Prop := {
  wf_mutex : mutex w = MutexOps.idle;
  wf_isOpen : isOpen w = true ->
    exists h p, device w = Some h /\ ports w !! h = Some p /\
                (opened p = true \/ notifying p = true);
  wf_live : forall h p, ports w !! h = Some p -> opened p = true ->
    device w = Some h /\ closeListeners p = 1;
  wf_owing : forall h p, ports w !! h = Some p -> notifying p = true ->
    opened p = false /\ closeListeners p = 1;
  wf_trace : tally is_close (trace w) = tally is_disconnect (trace w) + owed w;
}.

(** ** Sessions used in the examples *)

(** A device that answers every step of the handshake. *)
Definition quiet : Env :=
  {| open_fault := fun _ _ => None;
     negotiate_outcome := fun _ => Completes None;
     fetch_outcome := fun _ => Completes tt;
     decoder_fault := fun _ _ => None |}.

(** An endpoint that cannot be opened. *)
Definition unreachable : Env :=
  {| open_fault := fun _ _ => Some (MkError "TransportUnavailable");
     negotiate_outcome := fun _ => Completes None;
     fetch_outcome := fun _ => Completes tt;
     decoder_fault := fun _ _ => None |}.

(** A device that opens but rejects the handshake. *)
Definition mute : Env :=
  {| open_fault := fun _ _ => None;
     negotiate_outcome := fun _ => Rejected (MkError "timeout");
     fetch_outcome := fun _ => Completes tt;
     decoder_fault := fun _ _ => None |}.

(** A device one of whose packets, the chunk [02], the decoder
    refuses. *)
Definition garbled : Env :=
  {| open_fault := fun _ _ => None;
     negotiate_outcome := fun _ => Completes None;
     fetch_outcome := fun _ => Completes tt;
     decoder_fault := fun _ chunk =>
       match chunk with
       | [b] => if Byte.eqb b x02 then Some (MkError "bad packet") else None
       | _ => None
       end |}.

Definition com7 : World := session quiet 10 false [DoSetPort "COM7"].

Definition com7_connected : World :=
  session quiet 10 false [DoSetPort "COM7"; DoConnect].

Definition com7_mute : World := session mute 10 false [DoSetPort "COM7"].

(** ** Looking at suspended calls *)

(** What a suspended call waits for. *)
Inductive Wait :=
| OnYield
| OnOpen (p : string)
| OnNegotiate
| OnFetch
| OnGate
| OnSleep (ms : nat).

Definition wait_of {X : Type} (o : op X) : option Wait :=
  match o with
  | Yield => Some OnYield
  | SerialOpen p => Some (OnOpen p)
  | InitialNegotiate => Some OnNegotiate
  | FetchPrinterInfo => Some OnFetch
  | MutexGranted => Some OnGate
  | Sleep ms => Some (OnSleep ms)
  | _ => None
  end.

Definition pending (p : prog unit) : option Wait :=
  match p with
  | Vis o _ => wait_of o
  | _ => None
  end.

(** The calls in flight, each with what it waits for. *)
Definition agenda (s : System) : list (tid * option Wait) :=
  map (fun tp => (tp.1, pending tp.2)) (tasks s).

(** What [isConnected()] answers while one [connect()] is in flight
    or has just returned, read off the progress of the call: what it
    answered before the call ([before]) while the call waits for the
    port to open, true while it waits for the handshake or for the
    device information and after it has returned.  Nothing is said of
    a call that is giving the thread back after a tear-down, or that
    has thrown. *)
Definition flag_expected (before : bool) (s : System) : option bool :=
  match agenda s, settled s with
  | [(_, Some OnNegotiate)], [] | [(_, Some OnFetch)], [] => Some true
  | [(_, Some (OnOpen _))], [] => Some before
  | [], [(_, Returned _)] => Some true
  | _, _ => None
  end.

(** The turns of the event loop in which no new call is taken and no
    close notification arrives: a suspended call goes on, the device
    closes a port, or a port has data to read. *)
Definition undisturbed (l : Label) : bool :=
  match l with
  | Resume _ | Unplug _ | Readable _ _ => true
  | _ => false
  end.

(** What a method has done to the flag so far: nothing, or the last
    assignment it made. *)
Inductive Flag :=
| Kept
| Assigned (b : bool).

Definition flag_after {X : Type} (o : op X) (f : Flag) : Flag :=
  match o with
  | SetIsOpen b => Assigned b
  | _ => f
  end.

Definition flag_value (before : bool) (f : Flag) : bool :=
  match f with
  | Kept => before
  | Assigned b => b
  end.

(** A method body, read without running it, whatever the operations
    answer: with the flag at [f] now, the flag is raised at every wait
    for the handshake or for the device information and at the return,
    and untouched at every wait for a port to open. *)
Fixpoint Tracks (f : Flag) (p : prog unit) : Prop :=
  match p with
  | Ret _ => f = Assigned true
  | Throw _ | Diverge => True
  | Vis o k =>
      match wait_of o with
      | Some OnNegotiate | Some OnFetch => f = Assigned true
      | Some (OnOpen _) => f = Kept
      | _ => True
      end /\
      forall x, Tracks (flag_after o f) (k x)
  end.

(** While one [connect()] is in flight or has just settled: the call is
    alone, and where it stands tells the flag. *)
Definition connecting (before : bool) (s : System) : Prop :=
  (exists p f, tasks s = [(0, p)] /\ settled s = [] /\ settled_result p = None /\
               Tracks f p /\ isOpen (world s) = flag_value before f) \/
  (exists r, tasks s = [] /\ settled s = [(0, r)] /\
             forall a, r = Returned a -> isOpen (world s) = true).

(** The port of the device is open. *)
Definition device_open (w : World) : bool :=
  match device w with
  | Some h =>
      match ports w !! h with
      | Some p => opened p
      | None => false
      end
  | None => false
  end.

(** ** Gated sends in flight *)

(** The three places at which a gated [sendRaw] is suspended: waiting
    for the gate, asleep for the packet interval inside the gate, and
    past the gate, about to return. *)
Definition waiting (data : bytes) : prog unit :=
  await (call MutexGranted;; try_finally (send data) (call MutexRelease)).

Definition sleeping (data : bytes) (ms : nat) : prog unit :=
  await (try_finally
           (call (Sleep ms);;
            d <- call GetDevice;
            h <- nonnull d;
            rejecting (PortWrite h data);;
            call (Emit (RawPacketSentEvent data)))
           (call MutexRelease)).

Definition yielding : prog unit := await (Ret tt).

(** The calls that have not written yet, in the order of the gate: the
    holder first, then the waiters.  [asleep] tells whether the holder
    has passed the connected-check. *)
Fixpoint waiting_in (q : list (tid * bytes)) (t : tid) : option (prog unit) :=
  match q with
  | [] => None
  | (t', d) :: q' => if Nat.eqb t t' then Some (waiting d) else waiting_in q' t
  end.

Definition stage (ms : nat) (q : list (tid * bytes)) (asleep : bool) (t : tid)
  : option (prog unit) :=
  match q with
  | [] => None
  | (t0, d0) :: q' =>
      if Nat.eqb t t0 then Some (if asleep then sleeping d0 ms else waiting d0)
      else waiting_in q' t
  end.

Definition gate_of (q : list (tid * bytes)) : Mutex :=
  match q with
  | [] => MutexOps.idle
  | (t0, _) :: q' => {| holder := Some t0; waiters := map fst q' |}
  end.

(** Reading a trace from the left: who is inside the gate.  [None]
    when the gate is entered while occupied, left by a call that is not
    inside, or when a wait or a write happens outside it. *)
Definition gate_step (st : option (option tid)) (ev : Event) : option (option tid) :=
  match st with
  | None => None
  | Some cur =>
      match ev, cur with
      | EvAcquire t, None => Some (Some t)
      | EvAcquire _, Some _ => None
      | EvRelease t, Some t' => if Nat.eqb t t' then Some None else None
      | EvRelease _, None => None
      | EvWrite _ _, None | EvSleep _, None => None
      | _, _ => Some cur
      end
  end.

Definition gate_state (tr : list Event) : option (option tid) :=
  fold_left gate_step tr (Some None).

(** Every write of the trace happens inside the gate, and the gate is
    never entered while another call is inside. *)
Definition exclusive (tr : list Event) : bool :=
  match gate_state tr with
  | Some _ => true
  | None => false
  end.

(** The labels of a run of gated sends: calls of [sendRaw] without the
    bypass flag, and their resumptions. *)
Definition gated (l : Label) : bool :=
  match l with
  | Invoke (CallSendRaw _ false) => true
  | Resume _ => true
  | _ => false
  end.

Definition issued_data (l : Label) : option bytes :=
  match l with
  | Invoke (CallSendRaw data false) => Some data
  | _ => None
  end.

(** The payloads of the calls, in the order of the calls. *)
Definition issued (ls : list Label) : list bytes := omap issued_data ls.

(** What holds between two steps of a run of gated sends on a
    connected session: [sent] has been written, the calls of [q] are
    queued at the gate in this order, and every other call in flight is
    about to return. *)
Record FifoInv (w0 : World) (h : handle) (sent : list bytes)
    (q : list (tid * bytes)) (asleep : bool) (s : System) : Prop := {
  fi_open : isOpen (world s) = true;
  fi_device : device (world s) = Some h;
  fi_port : exists p, ports (world s) !! h = Some p /\ opened p = true;
  fi_interval : packetIntervalMs (world s) = packetIntervalMs w0;
  fi_mutex : mutex (world s) = gate_of q;
  fi_tasks : forall t,
    find_task t (tasks s) = stage (packetIntervalMs w0) q asleep t \/
    (stage (packetIntervalMs w0) q asleep t = None /\
     find_task t (tasks s) = Some yielding);
  fi_fresh : forall t, spawned s <= t ->
    find_task t (tasks s) = None /\ t ∉ map fst q;
  fi_nodup : NoDup (map fst q);
  fi_asleep : asleep = true -> q <> [];
  fi_trace : exists new,
    trace (world s) = trace w0 ++ new /\
    writes new = sent /\
    gate_state new = Some (if asleep then head (map fst q) else None);
}.

(** Three gated sends issued back to back, and one way the event loop
    may run them. *)
Definition three_sends : list Label :=
  [Invoke (CallSendRaw [x01] false); Invoke (CallSendRaw [x02] false);
   Invoke (CallSendRaw [x03] false);
   Resume 0; Resume 0; Resume 1; Resume 0; Resume 1; Resume 2; Resume 2;
   Resume 1; Resume 2].

Definition three_sends_end : System :=
  default (boot com7_connected) (run three_sends (boot com7_connected)).

(** * The rest of the sources *)

(** ** Enumerating the ports *)

Module Scan.

(** What [SerialPort.list()] tells about one port, as far as [scan]
    reads it. *)
Record PortInfo := {
  path : string;
  friendlyName : option string;
  pnpId : option string;
}.

Record ScanItem := {
  address : string;
  name : string;
}.

(** [NiimbotHeadlessSerialClient.scan], on the list the platform
    returned. *)
Definition scan (ports : list PortInfo) : list ScanItem :=
  map (fun p =>
         let name :=
           match friendlyName p with
           | Some f => f
           | None =>
               match pnpId p with
               | Some i => i
               | None => "unknown"
               end
           end in
         {| name := name; address := path p |})
      ports.

End Scan.

(** ** More ways to read a trace *)

Definition console_chunk (ev : Event) : option bytes :=
  match ev with
  | EvConsole chunk => Some chunk
  | _ => None
  end.

(** The chunks printed by [console.info], oldest first. *)
Definition consoled (tr : list Event) : list bytes := omap console_chunk tr.

Definition emitted_event (ev : Event) : option ClientEvent :=
  match ev with
  | EvEmit e => Some e
  | _ => None
  end.

(** The events the client has emitted, oldest first. *)
Definition emitted (tr : list Event) : list ClientEvent := omap emitted_event tr.

(** The connection flag is down only when every port is closed. *)
Definition Tight (w : World) : Prop := isOpen w = false -> all_closed w.

(** How many times a session has called [connect]. *)
Definition is_connect (a : Action) : bool :=
  match a with
  | DoConnect => true
  | _ => false
  end.

Fixpoint connects (acts : list Action) : nat :=
  match acts with
  | [] => 0
  | a :: acts' => (if is_connect a then 1 else 0) + connects acts'
  end.

(** * The code around the client

    [src/utils.ts], [src/server/simple_server.ts], [src/server/worker.ts]
    and [src/cli/worker.ts] make clients, call their methods one after
    the other and turn what they throw into answers.  A method they
    [await] is run to its end with [exec].  What they print on the
    console is left out, but for the listener of [heartbeatfailed]. *)

(** ** What is thrown and what is answered *)

(** One issue of a [ZodError]: where the value was wrong, and why. *)
Record Issue := {
  issue_path : list string;
  issue_message : string;
}.

(** The classes of error that the callers tell apart; any other error
    is kept as the [Error] it is. *)
Inductive Thrown :=
| PlainError (e : Error)
| RestError (message : string) (status : nat)
| ZodError (issues : list Issue)
| InvalidArgumentError (message : string).

(** [new RestError(message, status = 500)] *)
Definition newRestError (message : string) (status : option nat) : Thrown :=
  RestError message (default 500 status).

(** The values handed to [JSON.stringify]. *)
#[warnings="-register-all"]
Inductive Json :=
| JNull
| JBool (b : bool)
| JNumber (n : nat)
| JString (s : string)
| JArray (items : list Json)
| JObject (fields : list (string * Json)).

(** How an [async] function ends. *)
Inductive Reply (A : Type) :=
| Answer (a : A)
| Throws (e : Thrown)
| NoReply.
Arguments Answer {A} a.
Arguments Throws {A} e.
Arguments NoReply {A}.

(** A method of the client, awaited by a caller that is alone with the
    client. *)
Definition awaited {A : Type} (p : prog A) (w : World) : Reply A * World :=
  match exec 0 p w with
  | (Returned a, w') => (Answer a, w')
  | (Raised e, w') => (Throws (PlainError e), w')
  | (_, w') => (NoReply, w')
  end.

(** ** [src/utils.ts] *)

Module Utils.

(** What [new NiimbotHeadlessSerialClient()] starts from: the device
    behind the ports of this machine, and the packet interval and debug
    flag that the library's client starts with. *)
Record Platform := {
  serial : Env;
  intervalMs : nat;
  clientDebug : bool;
}.

Inductive Listener :=
| OnPrintProgress
| OnHeartbeatFailed
| OnPacketSent
| OnPacketReceived
| OnConnect
| OnDisconnect.

(** The client object with the listeners added to it, oldest first. *)
Record Client := {
  world : World;
  listeners : list Listener;
}.

Definition initClient (pf : Platform) (transport address : string) (debug : bool)
  : Thrown + Client :=
  if String.eqb transport "serial" then
    let client := fresh (serial pf) (intervalMs pf) (clientDebug pf) in
    let client := snd (exec 0 (setPort address) client) in
    inr {| world := client;
           listeners :=
             [OnPrintProgress; OnHeartbeatFailed] ++
             (if debug then [OnPacketSent; OnPacketReceived; OnConnect; OnDisconnect]
              else []) |}
  else if String.eqb transport "ble" then
    inl (PlainError (MkError "Bluetooth not supported"))
  else inl (PlainError (MkError "Invalid transport")).

Inductive Line :=
| Log (text : string)
| Warn (text : string)
| WarnHeartbeatFailed (failedAttempts maxFails : nat).

(** The listener of [heartbeatfailed] (lines 42-50).  The promise of
    [client.disconnect()] is dropped; [disconnect] has no [await] in it
    and has run to its end when the listener returns. *)
Definition heartbeatfailed (failedAttempts : nat) (client : World) : list Line * World :=
  let maxFails := 5 in
  let said := [WarnHeartbeatFailed failedAttempts maxFails] in
  if Nat.leb maxFails failedAttempts
  then (said ++ [Warn "Disconnecting"], snd (exec 0 disconnect client))
  else (said, client).

(** *** [printImage] *)

Inductive LabelType :=
| WithGaps
| OtherLabelType (code : nat).

Record PrintOptions := {
  quantity : option nat;
  labelType : option LabelType;
  density : option nat;
}.

(** The options given to [newPrintTask]. *)
Record PrintTaskOptions := {
  task_density : nat;
  task_labelType : LabelType;
  totalPages : nat;
  statusPollIntervalMs : nat;
  statusTimeoutMs : nat;
}.

(** The result of [ImageEncoder.encodeImage], by what it was made from. *)
Inductive EncodedImage :=
| Encoded (image : string) (printDirection : option string).

Inductive PrintCall :=
| NewPrintTask (printTaskName : string) (o : PrintTaskOptions)
| PrintInit
| PrintPage (encoded : EncodedImage) (quantity : nat)
| WaitForFinished
| PrintEnd.

(** The print task of the library, seen from outside: a call to it fails
    or not, and it acts on the client through the client's methods and
    what the port reports.  Both may depend on the calls so far, the
    last one being the call that is answered. *)
Record Printer := {
  fails : list PrintCall -> World -> option Error;
  traffic : list PrintCall -> World -> list Action;
}.

(** The calls made to the print task so far, and the client. *)
Abbreviation Task := (list PrintCall * World)%type.

Definition task_call (pr : Printer) (c : PrintCall) (t : Task) : option Error * Task :=
  let calls := t.1 ++ [c] in
  (fails pr calls t.2,
   (calls, fold_left (fun w a => act a w) (traffic pr calls t.2) t.2)).

Definition printImage (pr : Printer) (printTaskName : string) (encoded : EncodedImage)
    (options : PrintOptions) (t : Task) : option Error * Task :=
  match task_call pr
          (NewPrintTask printTaskName
             {| task_density := default 3 (density options);
                task_labelType := default WithGaps (labelType options);
                totalPages := default 1 (quantity options);
                statusPollIntervalMs := 500;
                statusTimeoutMs := 8 * 1000 |}) t with
  | (Some e, t) => (Some e, t)
  | (None, t) =>
      let '(thrown, t) :=
        match task_call pr PrintInit t with
        | (Some e, t) => (Some e, t)
        | (None, t) =>
            match task_call pr (PrintPage encoded (default 1 (quantity options))) t with
            | (Some e, t) => (Some e, t)
            | (None, t) => task_call pr WaitForFinished t
            end
        end in
      match task_call pr PrintEnd t with
      | (Some e, t) => (Some e, t)
      | (None, t) => (thrown, t)
      end
  end.

(** The calls of a list made in order, up to the first that fails: what
    the [try] block of [printImage] does with its three steps. *)
Fixpoint attempted (pr : Printer) (steps : list PrintCall) (t : Task)
  : option Error * Task :=
  match steps with
  | [] => (None, t)
  | c :: rest =>
      match task_call pr c t with
      | (Some e, t') => (Some e, t')
      | (None, t') => attempted pr rest t'
      end
  end.

End Utils.

(** ** [src/server/simple_server.ts] *)

Module Http.

(** What [onRequest] and the handlers read of the request: the url, the
    method, the [content-type] header, and the chunks of the body. *)
Record Request := {
  url : option string;
  method : option string;
  contentType : option string;
  bodyParts : list string;
}.

(** What is written to the response, call by call.  The error of the
    last branch of [onRequest] is sent as the text [`${e}`], kept here
    as the error it is the text of. *)
Inductive Body :=
| Stringified (o : Json)
| ErrorText (e : Thrown).

Inductive ResponseCall :=
| SetHeader (name value : string)
| WriteHead (status : nat)
| End (body : option Body).

Definition writeBody (body : Body) (status : option nat) : list ResponseCall :=
  [SetHeader "Content-Type" "application/json";
   WriteHead (default 200 status);
   End (Some body)].

Definition writeObj (o : Json) (status : option nat) : list ResponseCall :=
  writeBody (Stringified o) status.

(** The status lines among the calls. *)
Definition statuses (calls : list ResponseCall) : list nat :=
  omap (fun c => match c with WriteHead status => Some status | _ => None end) calls.

(** The object [{ error }]. *)
Definition errorObj (error : string) : Json := JObject [("error", JString error)].

(** *** [readBodyJson] *)

Section ReadBodyJson.

(** [JSON.parse] and [schema.safeParse], [None] being the value [null]
    among the parsed data. *)
Context {Data T : Type}.
Variable parse : string -> Error + option Data.
Variable safeParse : option Data -> list Issue + T.

Inductive Settle :=
| Resolve (t : T)
| Reject (e : Thrown).

(** The calls of [resolve] and [reject] that the listener of [end]
    makes, in order. *)
Definition onEnd (bodyParts : list string) : list Settle :=
  let body := String.concat EmptyString bodyParts in
  let '(data, rejected) :=
    match parse body with
    | inr data => (data, [])
    | inl e => (None, [Reject (PlainError e)])
    end in
  rejected ++
  (if data is None then [Reject (PlainError (MkError "No data"))] else []) ++
  [match safeParse data with
   | inr t => Resolve t
   | inl issues => Reject (ZodError issues)
   end].

(** A promise keeps the first call that settles it. *)
Definition readBodyJson (request : Request) : Reply T :=
  match head (onEnd (bodyParts request)) with
  | Some (Resolve t) => Answer t
  | Some (Reject e) => Throws e
  | None => NoReply
  end.

End ReadBodyJson.

(** *** [SimpleServer] *)

Section SimpleServer.

(** The state that the handlers share. *)
Context {S : Type}.

Definition RouteHandler : Type := Request -> S -> Reply Json * S.

Record Route := {
  path : string;
  route_method : option string;
  handler : RouteHandler;
}.

Record SimpleServer := {
  routes : list Route;
  corsEnabled : bool;
}.

Definition newSimpleServer : SimpleServer :=
  {| routes := []; corsEnabled := false |}.

Definition enableCors (srv : SimpleServer) : SimpleServer :=
  {| routes := routes srv; corsEnabled := true |}.

Definition push (r : Route) (srv : SimpleServer) : SimpleServer :=
  {| routes := routes srv ++ [r]; corsEnabled := corsEnabled srv |}.

Definition get (path : string) (handler : RouteHandler) : SimpleServer -> SimpleServer :=
  push {| path := path; handler := handler; route_method := Some "GET" |}.

Definition post (path : string) (handler : RouteHandler) : SimpleServer -> SimpleServer :=
  push {| path := path; handler := handler; route_method := Some "POST" |}.

Definition anything (path : string) (handler : RouteHandler) : SimpleServer -> SimpleServer :=
  push {| path := path; handler := handler; route_method := None |}.

(** The test of [this.routes.find] (line 100). *)
Definition serves (req_url req_method : string) (r : Route) : bool :=
  String.eqb (path r) req_url &&
  match route_method r with
  | None => true
  | Some m => String.eqb m req_method
  end.

Definition corsHeaders : list ResponseCall :=
  [SetHeader "Access-Control-Allow-Origin" "*";
   SetHeader "Access-Control-Allow-Headers" "*";
   SetHeader "Access-Control-Allow-Methods" "OPTIONS, POST, GET";
   SetHeader "Access-Control-Max-Age" "2592000"].

(** The text of a [ZodError] (line 119). *)
Definition issuesText (issues : list Issue) : string :=
  String.concat (String (Ascii.ascii_of_nat 10) EmptyString)
    (map (fun i => (String.concat "→" (issue_path i) ++ ": " ++ issue_message i)%string)
       issues).

(** [request.headers["content-type"] === "application/json"] *)
Definition isJson (contentType : option string) : bool :=
  match contentType with
  | Some t => String.eqb t "application/json"
  | None => false
  end.

(** The [catch] of [onRequest]. *)
Definition writeThrown (e : Thrown) : list ResponseCall :=
  match e with
  | ZodError issues => writeObj (errorObj (issuesText issues)) (Some 400)
  | RestError message status => writeObj (errorObj message) (Some status)
  | _ => writeBody (ErrorText e) (Some 500)
  end.

(** [onRequest]: what is written to the response, and the state the
    handler leaves. *)
Definition onRequest (srv : SimpleServer) (request : Request) (st : S)
  : list ResponseCall * S :=
  match url request, method request with
  | Some req_url, Some req_method =>
      let cors := if corsEnabled srv then corsHeaders else [] in
      if corsEnabled srv && String.eqb req_method "OPTIONS"
      then (cors ++ [WriteHead 204; End None], st)
      else
        match find (serves req_url req_method) (routes srv) with
        | None => (cors ++ writeObj (errorObj "Not found") (Some 404), st)
        | Some route =>
            if String.eqb req_method "POST" && negb (isJson (contentType request))
            then (cors ++ writeObj (errorObj "Only JSON accepted") (Some 400), st)
            else
              match handler route request st with
              | (Answer result, st) => (cors ++ writeObj result (Some 200), st)
              | (Throws e, st) => (cors ++ writeThrown e, st)
              | (NoReply, st) => (cors, st)
              end
        end
  | _, _ => ([], st)
  end.

End SimpleServer.

Arguments Route : clear implicits.
Arguments SimpleServer : clear implicits.
Arguments RouteHandler : clear implicits.

End Http.

(** ** [src/server/worker.ts] *)

Module Rest.

(** The variables [client] and [debug] of the module. *)
Record State := {
  client : option World;
  debug : bool;
}.

Definition set_client (c : option World) (s : State) : State :=
  {| client := c; debug := debug s |}.

Definition setDebug (v : bool) (s : State) : State :=
  {| client := client s; debug := v |}.

(** [client?.isConnected()], as a condition. *)
Definition clientIsConnected (s : State) : bool :=
  match client s with
  | Some w =>
      match exec 0 isConnected w with
      | (Returned b, _) => b
      | _ => false
      end
  | None => false
  end.

Definition assertConnected (s : State) : option Thrown :=
  if negb (clientIsConnected s)
  then Some (newRestError "Not connected" (Some 400))
  else None.

Definition message (text : string) : Json := JObject [("message", JString text)].

Definition index : Json := message "Server is working".

(** What [ConnectSchema] and [ScanSchema] let through. *)
Record ConnectData := {
  transport : string;
  address : string;
}.

Record ScanData := {
  scan_transport : string;
  timeout : nat;
}.

Section Handlers.

(** [JSON.parse] and the two schemas, as [readBodyJson] uses them; the
    platform of the clients; the list that [SerialPort.list()] gives. *)
Context {Data : Type}.
Variable parse : string -> Error + option Data.
Variable ConnectSchema : option Data -> list Issue + ConnectData.
Variable ScanSchema : option Data -> list Issue + ScanData.
Variable pf : Utils.Platform.
Variable listed : list Scan.PortInfo.

Definition connect (r : Http.Request) (s : State) : Reply Json * State :=
  match Http.readBodyJson parse ConnectSchema r with
  | Answer data =>
      if clientIsConnected s
      then (Throws (newRestError "Already connected" (Some 400)), s)
      else
        match Utils.initClient pf (transport data) (address data) (debug s) with
        | inl e => (Throws e, s)
        | inr c =>
            let '(connecting, w) := awaited connect (Utils.world c) in
            let s := set_client (Some w) s in
            match connecting with
            | Answer _ => (Answer (message "Connected"), s)
            | Throws e => (Throws e, s)
            | NoReply => (NoReply, s)
            end
        end
  | Throws e => (Throws e, s)
  | NoReply => (NoReply, s)
  end.

Definition disconnect (r : Http.Request) (s : State) : Reply Json * State :=
  match assertConnected s with
  | Some e => (Throws e, s)
  | None =>
      match client s with
      | None => (Throws (PlainError TypeError), s)
      | Some w =>
          let '(disconnecting, w) := awaited disconnect w in
          match disconnecting with
          | Answer _ => (Answer (message "Disconnected"), set_client None s)
          | Throws e => (Throws e, set_client (Some w) s)
          | NoReply => (NoReply, set_client (Some w) s)
          end
      end
  end.

Definition connected (r : Http.Request) (s : State) : Reply Json * State :=
  (Answer (JObject [("connected", JBool (clientIsConnected s))]), s).

Definition deviceJson (dev : Scan.ScanItem) : Json :=
  JObject [("name", JString (Scan.name dev)); ("address", JString (Scan.address dev))].

Definition scan (r : Http.Request) (s : State) : Reply Json * State :=
  match Http.readBodyJson parse ScanSchema r with
  | Answer options =>
      if String.eqb (scan_transport options) "ble"
      then (Answer (JObject [("devices", JArray [])]), s)
      else if String.eqb (scan_transport options) "serial"
      then (Answer (JObject [("devices", JArray (map deviceJson (Scan.scan listed)))]), s)
      else (Throws (newRestError "Invalid transport" (Some 400)), s)
  | Throws e => (Throws e, s)
  | NoReply => (NoReply, s)
  end.

End Handlers.

(** *** The image of [print] *)

(** The two fields of [PrintSchema] that name the image. *)
Record ImageFields := {
  imageBase64 : option string;
  imageUrl : option string;
}.

(** [!!s] for a string that may be missing. *)
Definition truthy (s : option string) : bool :=
  match s with
  | Some (String _ _) => true
  | _ => false
  end.

(** The test given to [refine] (lines 43-45). *)
Definition imageRefinement (o : ImageFields) : bool :=
  negb (Bool.eqb (truthy (imageUrl o)) (truthy (imageBase64 o))).

Inductive ImageSource :=
| FromBase64 (b64 : string)
| FromUrl (url : string).

(** The choice of lines 103-109. *)
Definition imageSource (o : ImageFields) : Thrown + ImageSource :=
  match imageBase64 o with
  | Some b64 => inr (FromBase64 b64)
  | None =>
      match imageUrl o with
      | Some url => inr (FromUrl url)
      | None => inl (newRestError "Image is not defined" (Some 400))
      end
  end.

End Rest.

(** ** [src/cli/worker.ts] *)

Module Cli.

(** What the commands run on: the platform of the client, what the
    library has detected about the printer once connected, whether the
    image at a path can be loaded and thresholded (lines 73-75), resized
    (lines 78-83) and encoded (line 91), and the library's print task
    and firmware upgrade. *)
Record Machine := {
  platform : Utils.Platform;
  modelPrintDirection : World -> option string;
  printTaskType : World -> option string;
  load_fault : string -> option Error;
  resize_fault : string -> option Error;
  encode_fault : string -> option Error;
  printer : Utils.Printer;
  upgrade_fails : World -> option Error;
  upgrade_traffic : World -> list Action;
}.

Record PrintOptions := {
  transport : string;
  address : string;
  debug : bool;
  printTask : option string;
  printDirection : option string;
  quantity : nat;
  labelType : Utils.LabelType;
  density : nat;
  threshold : nat;
  labelWidth : option nat;
  labelHeight : option nat;
  imageFit : option string;
  imagePosition : option string;
}.

(** How a command ends: [process.exit], an error nobody catches, or a
    promise that never settles. *)
Inductive Ending :=
| Exit (status : nat)
| Uncaught (e : Thrown)
| Stuck.

(** What a command leaves: how it ended, the client it made if it got
    that far, and the calls it made to the print task. *)
Record Run := {
  ending : Ending;
  client : option World;
  printed : list Utils.PrintCall;
}.

Definition cliConnectAndPrintImageFile (m : Machine) (path : string) (options : PrintOptions)
  : Run :=
  let stop ending client := {| ending := ending; client := client; printed := [] |} in
  match Utils.initClient (platform m) (transport options) (address options) (debug options) with
  | inl e => stop (Uncaught e) None
  | inr c =>
  match awaited connect (Utils.world c) with
  | (Throws e, w) => stop (Uncaught e) (Some w)
  | (NoReply, w) => stop Stuck (Some w)
  | (Answer _, w) =>
  match load_fault m path with
  | Some e => stop (Uncaught (PlainError e)) (Some w)
  | None =>
  let resize :=
    match labelWidth options, labelHeight options with
    | Some _, Some _ => true
    | _, _ => false
    end in
  if negb resize &&
     (bool_decide (is_Some (imageFit options)) ||
      bool_decide (is_Some (imagePosition options)))
  then stop (Uncaught (InvalidArgumentError "label-width and label-height must be set"))
         (Some w)
  else
  match (if resize then resize_fault m path else None) with
  | Some e => stop (Uncaught (PlainError e)) (Some w)
  | None =>
  let printDirection :=
    match printDirection options with
    | Some d => Some d
    | None => modelPrintDirection m w
    end in
  let printTask :=
    match printTask options with
    | Some t => Some t
    | None => printTaskType m w
    end in
  match encode_fault m path with
  | Some e => stop (Uncaught (PlainError e)) (Some w)
  | None =>
  match printTask with
  | None =>
      stop (Uncaught (PlainError
              (MkError "Unable to detect print task, please set it manually")))
        (Some w)
  | Some printTask =>
      let status := 1 in
      let '(thrown, (calls, w)) :=
        Utils.printImage (printer m) printTask (Utils.Encoded path printDirection)
          {| Utils.quantity := Some (quantity options);
             Utils.labelType := Some (labelType options);
             Utils.density := Some (density options) |}
          ([], w) in
      let status := if thrown is None then 0 else status in
      let '(disconnecting, w) := awaited disconnect w in
      match disconnecting, thrown with
      | Throws e, _ => {| ending := Uncaught e; client := Some w; printed := calls |}
      | NoReply, _ => {| ending := Stuck; client := Some w; printed := calls |}
      | Answer _, Some e =>
          {| ending := Uncaught (PlainError e); client := Some w; printed := calls |}
      | Answer _, None =>
          {| ending := Exit status; client := Some w; printed := calls |}
      end
  end end end end end end.

Record InfoOptions := {
  info_transport : string;
  info_address : string;
  info_debug : bool;
}.

Definition cliPrinterInfo (m : Machine) (options : InfoOptions) : Run :=
  match Utils.initClient (platform m) (info_transport options) (info_address options)
          (info_debug options) with
  | inl e => {| ending := Uncaught e; client := None; printed := [] |}
  | inr c =>
      match awaited connect (Utils.world c) with
      | (Throws e, w) => {| ending := Uncaught e; client := Some w; printed := [] |}
      | (NoReply, w) => {| ending := Stuck; client := Some w; printed := [] |}
      | (Answer _, w) =>
          match awaited disconnect w with
          | (Throws e, w) => {| ending := Uncaught e; client := Some w; printed := [] |}
          | (NoReply, w) => {| ending := Stuck; client := Some w; printed := [] |}
          | (Answer _, w) => {| ending := Exit 0; client := Some w; printed := [] |}
          end
      end
  end.

Record FirmwareOptions := {
  fw_transport : string;
  fw_address : string;
  fw_debug : bool;
}.

(** [cliFlashFirmware], once the file has been read. *)
Definition cliFlashFirmware (m : Machine) (options : FirmwareOptions) : Run :=
  match Utils.initClient (platform m) (fw_transport options) (fw_address options)
          (fw_debug options) with
  | inl e => {| ending := Uncaught e; client := None; printed := [] |}
  | inr c =>
      match awaited connect (Utils.world c) with
      | (Throws e, w) => {| ending := Uncaught e; client := Some w; printed := [] |}
      | (NoReply, w) => {| ending := Stuck; client := Some w; printed := [] |}
      | (Answer _, w) =>
          let w := snd (exec 0 (call StopHeartbeat) w) in
          let thrown := upgrade_fails m w in
          let w := fold_left (fun w a => act a w) (upgrade_traffic m w) w in
          match awaited disconnect w, thrown with
          | (Throws e, w), _ => {| ending := Uncaught e; client := Some w; printed := [] |}
          | (NoReply, w), _ => {| ending := Stuck; client := Some w; printed := [] |}
          | (Answer _, w), Some e =>
              {| ending := Uncaught (PlainError e); client := Some w; printed := [] |}
          | (Answer _, w), None => {| ending := Exit 0; client := Some w; printed := [] |}
          end
      end
  end.

End Cli.

(** ** A machine used in the examples *)

(** A machine whose device answers every step of the handshake. *)
Definition bench : Utils.Platform :=
  {| Utils.serial := quiet; Utils.intervalMs := 10; Utils.clientDebug := false |}.

(** A request body that passes for [{transport: "serial", address: "COM7"}]. *)
Definition com7_body (_ : option unit) : list Issue + Rest.ConnectData :=
  inr {| Rest.transport := "serial"; Rest.address := "COM7" |}.

Definition any_json (_ : string) : Error + option unit := inr (Some tt).

Definition post_json (u : string) : Http.Request :=
  {| Http.url := Some u; Http.method := Some "POST";
     Http.contentType := Some "application/json"; Http.bodyParts := ["{}"] |}.

(** A print task that never fails and sends nothing, on the machine of
    the examples. *)
Definition bench_machine : Cli.Machine :=
  {| Cli.platform := bench;
     Cli.modelPrintDirection := fun _ => None;
     Cli.printTaskType := fun _ => None;
     Cli.load_fault := fun _ => None;
     Cli.resize_fault := fun _ => None;
     Cli.encode_fault := fun _ => None;
     Cli.printer := {| Utils.fails := fun _ _ => None; Utils.traffic := fun _ _ => [] |};
     Cli.upgrade_fails := fun _ => None;
     Cli.upgrade_traffic := fun _ => [] |}.

Definition label_options (fit : option string) : Cli.PrintOptions :=
  {| Cli.transport := "serial"; Cli.address := "COM7"; Cli.debug := false;
     Cli.printTask := Some "B1"; Cli.printDirection := None;
     Cli.quantity := 2; Cli.labelType := Utils.WithGaps; Cli.density := 3;
     Cli.threshold := 128; Cli.labelWidth := None; Cli.labelHeight := None;
     Cli.imageFit := fit; Cli.imagePosition := None |}.

(** * Properties *)

(** ** Running programs *)

Lemma exec_bind {A B : Type} self (p : prog A) (f : A -> prog B) w :
  exec self (bind p f) w =
  match exec self p w with
  | (Returned a, w') => exec self (f a) w'
  | (Raised e, w') => (Raised e, w')
  | (OutOfFuel, w') => (OutOfFuel, w')
  | (Blocked, w') => (Blocked, w')
  end.
Proof.
  revert w. induction p as [a|e| |X o k IH]; intros w; cbn; try done.
  destruct (ready self o w); [|done].
  destruct (perform self o w) as [x w']. apply IH.
Qed.

Lemma exec_attempt {A : Type} self (p : prog A) w :
  exec self (attempt p) w =
  match exec self p w with
  | (Returned a, w') => (Returned (inr a), w')
  | (Raised e, w') => (Returned (inl e), w')
  | (OutOfFuel, w') => (OutOfFuel, w')
  | (Blocked, w') => (Blocked, w')
  end.
Proof.
  revert w. induction p as [a|e| |X o k IH]; intros w; cbn; try done.
  destruct (ready self o w); [|done].
  destruct (perform self o w) as [x w']. apply IH.
Qed.

(** The operations of the port stay folded during simplification; the
    lemmas below say what they do. *)
Arguments serialLabel : simpl never.
Arguments port_close : simpl never.
Arguments port_closed : simpl never.
Arguments serial_open : simpl never.
Arguments port_read : simpl never.
Arguments port_write : simpl never.
Arguments port_on_close : simpl never.
Arguments port_on_readable : simpl never.
Arguments device_lost : simpl never.
Arguments negotiate : simpl never.
Arguments fetch_info : simpl never.

(** ** What the close listeners leave alone *)

Ltac iter_frame n := induction n as [|n IH]; [done | cbn; try rewrite IH; done].

Lemma iter_close_device n w : device (Nat.iter n closeListener w) = device w.
Proof. iter_frame n. Qed.
Lemma iter_close_portName n w : portName (Nat.iter n closeListener w) = portName w.
Proof. iter_frame n. Qed.
Lemma iter_close_connectResult n w : connectResult (Nat.iter n closeListener w) = connectResult w.
Proof. iter_frame n. Qed.
Lemma iter_close_packetIntervalMs n w : packetIntervalMs (Nat.iter n closeListener w) = packetIntervalMs w.
Proof. iter_frame n. Qed.
Lemma iter_close_debug n w : debug (Nat.iter n closeListener w) = debug w.
Proof. iter_frame n. Qed.
Lemma iter_close_heartbeat n w : heartbeat (Nat.iter n closeListener w) = heartbeat w.
Proof. iter_frame n. Qed.
Lemma iter_close_mutex n w : mutex (Nat.iter n closeListener w) = mutex w.
Proof. iter_frame n. Qed.
Lemma iter_close_env n w : env (Nat.iter n closeListener w) = env w.
Proof. iter_frame n. Qed.
Lemma iter_close_ports n w : ports (Nat.iter n closeListener w) = ports w.
Proof. iter_frame n. Qed.
Lemma iter_close_isOpen n w :
  isOpen (Nat.iter n closeListener w) = match n with O => isOpen w | S _ => false end.
Proof. destruct n; done. Qed.
Lemma iter_close_trace n w :
  trace (Nat.iter n closeListener w) = trace w ++ replicate n (EvEmit DisconnectEvent).
Proof.
  induction n as [|n IH]; [cbn; by rewrite app_nil_r|].
  rewrite Nat.iter_succ. unfold closeListener at 1. cbn [trace log set_isOpen].
  rewrite IH, <- app_assoc. f_equal.
  change [EvEmit DisconnectEvent] with (replicate 1 (EvEmit DisconnectEvent)).
  rewrite <- replicate_add. f_equal. lia.
Qed.

Create Rewrite HintDb frame.
Hint Rewrite iter_close_device iter_close_portName iter_close_connectResult
  iter_close_packetIntervalMs iter_close_debug iter_close_heartbeat iter_close_mutex
  iter_close_env iter_close_ports iter_close_isOpen iter_close_trace : frame.

(** ** What closing a port leaves alone *)

Ltac close_frame := unfold port_close; repeat case_match; done.

Lemma port_close_device h w : device (port_close h w) = device w.
Proof. close_frame. Qed.
Lemma port_close_portName h w : portName (port_close h w) = portName w.
Proof. close_frame. Qed.
Lemma port_close_connectResult h w : connectResult (port_close h w) = connectResult w.
Proof. close_frame. Qed.
Lemma port_close_packetIntervalMs h w : packetIntervalMs (port_close h w) = packetIntervalMs w.
Proof. close_frame. Qed.
Lemma port_close_debug h w : debug (port_close h w) = debug w.
Proof. close_frame. Qed.
Lemma port_close_heartbeat h w : heartbeat (port_close h w) = heartbeat w.
Proof. close_frame. Qed.
Lemma port_close_mutex h w : mutex (port_close h w) = mutex w.
Proof. close_frame. Qed.
Lemma port_close_env h w : env (port_close h w) = env w.
Proof. close_frame. Qed.
Lemma port_close_isOpen h w : isOpen (port_close h w) = isOpen w.
Proof. close_frame. Qed.
Hint Rewrite port_close_device port_close_portName port_close_connectResult
  port_close_packetIntervalMs port_close_debug port_close_heartbeat port_close_mutex
  port_close_env port_close_isOpen : frame.

Ltac closed_frame := unfold port_closed; repeat case_match; autorewrite with frame; done.

Lemma port_closed_device h w : device (port_closed h w) = device w.
Proof. closed_frame. Qed.
Lemma port_closed_portName h w : portName (port_closed h w) = portName w.
Proof. closed_frame. Qed.
Lemma port_closed_packetIntervalMs h w :
  packetIntervalMs (port_closed h w) = packetIntervalMs w.
Proof. closed_frame. Qed.
Lemma port_closed_mutex h w : mutex (port_closed h w) = mutex w.
Proof. closed_frame. Qed.
Lemma port_closed_env h w : env (port_closed h w) = env w.
Proof. closed_frame. Qed.
Hint Rewrite port_closed_device port_closed_portName port_closed_packetIntervalMs
  port_closed_mutex port_closed_env : frame.

(** ** [disconnect] and [connect] as functions on the world *)

Lemma device_lost_portName w : portName (device_lost w) = portName w.
Proof. unfold device_lost. case_match; by autorewrite with frame. Qed.
Lemma torn_down_portName w : portName (torn_down w) = portName w.
Proof. unfold torn_down. by rewrite device_lost_portName. Qed.

Lemma device_lost_isOpen w : isOpen (device_lost w) = isOpen w.
Proof. unfold device_lost. case_match; by autorewrite with frame. Qed.
Lemma torn_down_isOpen w : isOpen (torn_down w) = isOpen w.
Proof. unfold torn_down. by rewrite device_lost_isOpen. Qed.

Lemma exec_disconnect self w : exec self disconnect w = (Returned tt, torn_down w).
Proof.
  unfold torn_down, device_lost. cbn. destruct (device w); done.
Qed.

Lemma exec_connect self w :
  exec self connect w =
  match portName w with
  | None | Some EmptyString => (Raised (MkError "Port not set"), torn_down w)
  | Some name =>
      match serial_open name (torn_down w) with
      | (inl e, w2) => (Raised e, w2)
      | (inr h, w2) =>
          match handshake (installed h w2) with
          | (Some e, w3) => (Raised e, torn_down (set_isOpen false w3))
          | (None, w3) =>
              (Returned (announced w3), log (EvEmit (ConnectEvent (announced w3))) w3)
          end
      end
  end.
Proof.
  unfold connect, await. rewrite exec_bind, exec_bind, exec_disconnect. cbn.
  rewrite torn_down_portName.
  destruct (portName w) as [[|c name]|]; try done. cbn.
  destruct (serial_open _ _) as [[e|h] w2]; [done|]. cbn.
  unfold handshake, installed.
  destruct (negotiate _) as [[e|] w3]; cbn.
  - unfold torn_down, device_lost. cbn. destruct (device w3); done.
  - destruct (fetch_info w3) as [[e|] w4]; cbn; [|done].
    unfold torn_down, device_lost. cbn. destruct (device w4); done.
Qed.

(** ** The invariant holds in every session *)

Lemma tally_snoc f tr ev :
  tally f (tr ++ [ev]) = tally f tr + (if f ev then 1 else 0).
Proof. induction tr as [|x tr IH]; cbn; [lia|]. rewrite IH. lia. Qed.

Lemma tally_app f tr1 tr2 : tally f (tr1 ++ tr2) = tally f tr1 + tally f tr2.
Proof. induction tr1 as [|x tr1 IH]; cbn; [done|]. rewrite IH. lia. Qed.

Lemma owing_app l1 l2 : owing (l1 ++ l2) = owing l1 + owing l2.
Proof. induction l1 as [|x l1 IH]; cbn; [done|]. rewrite IH. lia. Qed.

Lemma owing_insert h p p' l :
  l !! h = Some p ->
  owing (<[h:=p']> l) + (if notifying p then 1 else 0) =
  owing l + (if notifying p' then 1 else 0).
Proof.
  revert h. induction l as [|x l IH]; intros [|h] Hl; cbn in *; try done.
  - simplify_eq. destruct (notifying p), (notifying p'); lia.
  - rewrite <- !Nat.add_assoc. f_equal. by apply IH.
Qed.

Lemma owing_insert_same h p p' l :
  l !! h = Some p -> notifying p' = notifying p -> owing (<[h:=p']> l) = owing l.
Proof.
  intros Hl Hn. pose proof (owing_insert h p p' l Hl) as H. rewrite Hn in H. lia.
Qed.

Lemma WF_fresh e i d : WF (fresh e i d).
Proof. split; cbn; try done. Qed.

Lemma WF_ext w w' :
  WF w -> mutex w' = mutex w -> isOpen w' = isOpen w -> device w' = device w ->
  ports w' = ports w ->
  tally is_close (trace w') = tally is_close (trace w) ->
  tally is_disconnect (trace w') = tally is_disconnect (trace w) -> WF w'.
Proof.
  intros [Hm Ho Hl Hn Ht] Em Eo Ed Ep Ec Edi. split.
  - congruence.
  - rewrite Eo, Ed, Ep. done.
  - rewrite Ed, Ep. done.
  - rewrite Ep. done.
  - unfold owed. rewrite Ec, Edi, Ep. done.
Qed.

Lemma port_close_open h p w :
  ports w !! h = Some p -> opened p = true ->
  port_close h w =
  log (EvClose h) (set_port h (with_notifying true (with_opened false p)) w).
Proof. intros Hp Ho. unfold port_close. by rewrite Hp, Ho. Qed.

Lemma port_close_closed h w p :
  ports w !! h = Some p -> opened p = false -> port_close h w = w.
Proof. unfold port_close. by intros -> ->. Qed.

Lemma port_close_missing h w : ports w !! h = None -> port_close h w = w.
Proof. unfold port_close. by intros ->. Qed.

Lemma WF_port_close h w : WF w -> WF (port_close h w).
Proof.
  intros Hwf. destruct (ports w !! h) as [p|] eqn:Hp.
  2:{ by rewrite port_close_missing. }
  destruct (opened p) eqn:Ho.
  2:{ by rewrite (port_close_closed h w p). }
  rewrite (port_close_open _ _ _ Hp Ho).
  destruct (wf_live _ Hwf _ _ Hp Ho) as [Hd Hc].
  assert (notifying p = false) as Hn.
  { destruct (notifying p) eqn:Hn; [|done].
    destruct (wf_owing _ Hwf _ _ Hp Hn) as [Ho' _]. congruence. }
  split; cbn.
  - apply Hwf.
  - intros _. exists h, (with_notifying true (with_opened false p)).
    rewrite list_lookup_insert_eq by (by eapply lookup_lt_Some). auto.
  - intros h' p' Hp' Ho'.
    destruct (decide (h' = h)) as [->|Hne].
    + rewrite list_lookup_insert_eq in Hp' by (by eapply lookup_lt_Some).
      by simplify_eq.
    + rewrite list_lookup_insert_ne in Hp' by done.
      by apply (wf_live _ Hwf).
  - intros h' p' Hp' Hn'.
    destruct (decide (h' = h)) as [->|Hne].
    + rewrite list_lookup_insert_eq in Hp' by (by eapply lookup_lt_Some).
      by simplify_eq.
    + rewrite list_lookup_insert_ne in Hp' by done.
      by apply (wf_owing _ Hwf h').
  - rewrite !tally_snoc. cbn. rewrite (wf_trace _ Hwf). unfold owed. cbn.
    pose proof (owing_insert h p (with_notifying true (with_opened false p))
                  (ports w) Hp) as H.
    rewrite Hn in H. cbn in H. lia.
Qed.

Lemma port_closed_owing h p w :
  ports w !! h = Some p -> notifying p = true ->
  port_closed h w =
  Nat.iter (closeListeners p) closeListener (set_port h (with_notifying false p) w).
Proof. intros Hp Hn. unfold port_closed. by rewrite Hp, Hn. Qed.

Lemma port_closed_settled h w p :
  ports w !! h = Some p -> notifying p = false -> port_closed h w = w.
Proof. unfold port_closed. by intros -> ->. Qed.

Lemma port_closed_missing h w : ports w !! h = None -> port_closed h w = w.
Proof. unfold port_closed. by intros ->. Qed.

(** In a session the notification of a port runs its one listener. *)
Lemma WF_port_closed_owing h p w :
  WF w -> ports w !! h = Some p -> notifying p = true ->
  port_closed h w = closeListener (set_port h (with_notifying false p) w).
Proof.
  intros Hwf Hp Hn. rewrite (port_closed_owing h p w Hp Hn).
  by destruct (wf_owing _ Hwf _ _ Hp Hn) as [_ ->].
Qed.

Lemma WF_port_closed h w : WF w -> WF (port_closed h w).
Proof.
  intros Hwf. destruct (ports w !! h) as [p|] eqn:Hp.
  2:{ by rewrite port_closed_missing. }
  destruct (notifying p) eqn:Hn.
  2:{ by rewrite (port_closed_settled h w p). }
  rewrite (WF_port_closed_owing _ _ _ Hwf Hp Hn).
  destruct (wf_owing _ Hwf _ _ Hp Hn) as [Ho Hc].
  split; cbn.
  - apply Hwf.
  - done.
  - intros h' p' Hp' Ho'.
    destruct (decide (h' = h)) as [->|Hne].
    + rewrite list_lookup_insert_eq in Hp' by (by eapply lookup_lt_Some).
      simplify_eq. cbn in Ho'. congruence.
    + rewrite list_lookup_insert_ne in Hp' by done.
      by apply (wf_live _ Hwf).
  - intros h' p' Hp' Hn'.
    destruct (decide (h' = h)) as [->|Hne].
    + rewrite list_lookup_insert_eq in Hp' by (by eapply lookup_lt_Some).
      by simplify_eq.
    + rewrite list_lookup_insert_ne in Hp' by done.
      by apply (wf_owing _ Hwf h').
  - rewrite !tally_snoc. cbn. rewrite (wf_trace _ Hwf). unfold owed. cbn.
    pose proof (owing_insert h p (with_notifying false p) (ports w) Hp) as H.
    rewrite Hn in H. cbn in H. lia.
Qed.

Lemma WF_log ev w :
  is_close ev = false -> is_disconnect ev = false -> WF w -> WF (log ev w).
Proof.
  intros Hc Hd Hwf. apply (WF_ext w); try done; cbn; rewrite tally_snoc.
  - rewrite Hc. lia.
  - rewrite Hd. lia.
Qed.

Lemma WF_set_isOpen_false w : WF w -> WF (set_isOpen false w).
Proof. intros [Hm Ho Hl Hn Ht]. by split. Qed.

Lemma WF_device_lost w :
  WF w -> WF (device_lost w) /\ all_closed (device_lost w).
Proof.
  intros Hwf. unfold device_lost.
  assert (Hnone : forall h p, ports w !! h = Some p -> opened p = true -> device w = Some h)
    by (intros h p Hp Ho; by destruct (wf_live _ Hwf _ _ Hp Ho)).
  destruct (device w) as [h|] eqn:Hd.
  - split; [by apply WF_port_close|].
    destruct (ports w !! h) as [p|] eqn:Hp; [destruct (opened p) eqn:Ho|].
    + rewrite (port_close_open _ _ _ Hp Ho). cbn.
      intros h' p' Hp'. cbn in Hp'. destruct (decide (h' = h)) as [->|Hne].
      * rewrite list_lookup_insert_eq in Hp' by (by eapply lookup_lt_Some). by simplify_eq.
      * rewrite list_lookup_insert_ne in Hp' by done.
        destruct (opened p') eqn:Ho'; [|done].
        specialize (Hnone _ _ Hp' Ho'). congruence.
    + rewrite (port_close_closed h w p) by done.
      intros h' p' Hp'. destruct (opened p') eqn:Ho'; [|done].
      specialize (Hnone _ _ Hp' Ho'). congruence.
    + rewrite port_close_missing by done.
      intros h' p' Hp'. destruct (opened p') eqn:Ho'; [|done].
      specialize (Hnone _ _ Hp' Ho'). congruence.
  - split; [done|].
    intros h' p' Hp'. destruct (opened p') eqn:Ho'; [|done].
    specialize (Hnone _ _ Hp' Ho'). congruence.
Qed.

Lemma WF_torn_down w : WF w -> WF (torn_down w) /\ all_closed (torn_down w).
Proof.
  intros Hwf. apply WF_device_lost. apply WF_log; [done..|].
  by apply (WF_ext w).
Qed.

Lemma serial_open_inv name w r w2 :
  serial_open name w = (r, w2) ->
  (exists e, r = inl e /\ w2 = log (EvOpenFailed name e) w) \/
  (r = inr (length (ports w)) /\
   w2 = log (EvOpen (length (ports w)) name) (set_ports (ports w ++ [new_port name]) w)).
Proof.
  unfold serial_open. destruct (open_fault _ _ _) as [e|]; intros [= <- <-]; eauto.
Qed.

Lemma insert_last {A : Type} (l : list A) (x y : A) :
  <[length l := y]> (l ++ [x]) = l ++ [y].
Proof. rewrite insert_app_r_alt; [|lia]. by rewrite Nat.sub_diag. Qed.

Lemma installed_fresh name w :
  installed (length (ports w))
    (log (EvOpen (length (ports w)) name) (set_ports (ports w ++ [new_port name]) w)) =
  set_device (Some (length (ports w)))
    (set_isOpen true
       (log (EvOpen (length (ports w)) name) (set_ports (ports w ++ [ready_port name]) w))).
Proof.
  unfold installed, port_on_readable, port_on_close. cbn.
  rewrite list_lookup_middle by done. cbn.
  rewrite insert_last, list_lookup_middle by done. cbn.
  unfold set_device, set_port, set_ports, set_isOpen, log. cbn.
  by rewrite !insert_last.
Qed.

Lemma WF_installed name w :
  WF w -> all_closed w ->
  WF (set_device (Some (length (ports w)))
        (set_isOpen true
           (log (EvOpen (length (ports w)) name) (set_ports (ports w ++ [ready_port name]) w)))).
Proof.
  intros Hwf Hall. split; cbn.
  - apply Hwf.
  - intros _. eexists _, _. split; [done|]. split; [by apply list_lookup_middle|by left].
  - intros h p Hp Ho.
    destruct (decide (h < length (ports w))) as [Hlt|Hge].
    + rewrite lookup_app_l in Hp by done. rewrite (Hall _ _ Hp) in Ho. done.
    + assert (h = length (ports w)) as ->.
      { apply lookup_lt_Some in Hp. rewrite length_app in Hp. cbn in Hp. lia. }
      rewrite list_lookup_middle in Hp by done. by simplify_eq.
  - intros h p Hp Hn.
    destruct (decide (h < length (ports w))) as [Hlt|Hge].
    + rewrite lookup_app_l in Hp by done. by apply (wf_owing _ Hwf h).
    + assert (h = length (ports w)) as ->.
      { apply lookup_lt_Some in Hp. rewrite length_app in Hp. cbn in Hp. lia. }
      rewrite list_lookup_middle in Hp by done. by simplify_eq.
  - rewrite !tally_snoc. cbn. rewrite (wf_trace _ Hwf). unfold owed. cbn.
    rewrite owing_app. cbn. lia.
Qed.

Lemma WF_negotiate w : WF w -> WF (negotiate w).2.
Proof.
  intros Hwf. unfold negotiate. destruct (negotiate_outcome _ _); cbn.
  - apply WF_log; [done..|]. by apply (WF_ext w).
  - by apply WF_log.
  - apply WF_device_lost. by apply WF_log.
Qed.

Lemma WF_fetch_info w : WF w -> WF (fetch_info w).2.
Proof.
  intros Hwf. unfold fetch_info. destruct (fetch_outcome _ _); cbn.
  - by apply WF_log.
  - by apply WF_log.
  - apply WF_device_lost. by apply WF_log.
Qed.

Lemma WF_handshake w : WF w -> WF (handshake w).2.
Proof.
  intros Hwf. unfold handshake.
  pose proof (WF_negotiate w Hwf) as Hn.
  destruct (negotiate w) as [[e|] w']; cbn in *; [done|].
  by apply WF_fetch_info.
Qed.

Lemma WF_connect self w : WF w -> WF (exec self connect w).2.
Proof.
  intros Hwf. rewrite exec_connect.
  destruct (WF_torn_down w Hwf) as (Hwf1 & Hall).
  destruct (portName w) as [[|c name]|]; cbn; try done.
  destruct (serial_open _ _) as [r w2] eqn:Hso.
  apply serial_open_inv in Hso as [(e & -> & ->)|[-> ->]]; cbn.
  - by apply WF_log.
  - rewrite installed_fresh.
    pose proof (WF_installed (String c name) _ Hwf1 Hall) as Hwf3.
    pose proof (WF_handshake _ Hwf3) as Hwf4.
    destruct (handshake _) as [[e|] w3]; cbn in *.
    + by apply WF_torn_down, WF_set_isOpen_false.
    + by apply WF_log.
Qed.

(** ** [sendRaw] and [dataReady] as functions on the world *)

Lemma exec_sendRaw_forced self data w :
  exec self (sendRaw data true) w = send_outcome data w.
Proof.
  unfold send_outcome. cbn. destruct (isOpen w); cbn; [|done].
  destruct (device w) as [h|]; cbn; [|done].
  destruct (port_write _ _ _) as [[e|] w2]; done.
Qed.

Lemma exec_sendRaw_gated self data w :
  exec self (sendRaw data false) w =
  let w1 := set_mutex (MutexOps.acquire self (mutex w)) (log (EvEnqueue self) w) in
  if bool_decide (holder (mutex w1) = Some self) then
    let '(r, w2) := send_outcome data (log (EvAcquire self) w1) in
    (r, set_mutex (MutexOps.release (mutex w2)) (log (EvRelease self) w2))
  else (Blocked, w1).
Proof.
  unfold send_outcome. cbn. case_bool_decide; [|done]. cbn.
  destruct (isOpen w); cbn; [|done].
  destruct (device w) as [h|]; cbn; [|done].
  destruct (port_write _ _ _) as [[e|] w2]; done.
Qed.

Lemma exec_dataReady_S self fuel w :
  exec self (dataReady (S fuel)) w =
  let '(again, w') := drain_once w in
  if again then exec self (dataReady fuel) w' else (Returned tt, w').
Proof.
  unfold drain_once. cbn [dataReady]. unfold try_catch.
  rewrite !exec_bind, exec_attempt. cbn.
  destruct (device w) as [h|]; cbn; [|done].
  destruct (port_read h w) as [[e|[chunk|]] w1]; cbn; try done.
  destruct (debug w1); cbn; destruct (decoder_fault _ _ _); cbn; done.
Qed.

(** ** Draining the port *)

Lemma live_from_insert i h p p' l :
  l !! h = Some p -> opened p' = opened p -> live_from i (<[h:=p']> l) = live_from i l.
Proof.
  revert i h. induction l as [|x l IH]; intros i [|h] Hl Ho; cbn in *; try done.
  - simplify_eq. by rewrite Ho.
  - f_equal. by apply IH.
Qed.

Lemma WF_set_port h p p' w :
  WF w -> ports w !! h = Some p -> opened p' = opened p ->
  notifying p' = notifying p ->
  closeListeners p' = closeListeners p -> WF (set_port h p' w).
Proof.
  intros Hwf Hp Ho Hn Hc. split; cbn.
  - apply Hwf.
  - intros Hi. destruct (wf_isOpen _ Hwf Hi) as (h0 & p0 & Hd & Hp0 & Ho0).
    destruct (decide (h0 = h)) as [->|Hne].
    + exists h, p'. rewrite list_lookup_insert_eq by (by eapply lookup_lt_Some).
      split; [done|]. split; [done|]. rewrite Ho, Hn. congruence.
    + exists h0, p0. by rewrite list_lookup_insert_ne.
  - intros h0 p0 Hp0 Ho0. destruct (decide (h0 = h)) as [->|Hne].
    + rewrite list_lookup_insert_eq in Hp0 by (by eapply lookup_lt_Some).
      simplify_eq. rewrite Hc. apply (wf_live _ Hwf _ _ Hp). congruence.
    + rewrite list_lookup_insert_ne in Hp0 by done. by apply (wf_live _ Hwf).
  - intros h0 p0 Hp0 Hn0. destruct (decide (h0 = h)) as [->|Hne].
    + rewrite list_lookup_insert_eq in Hp0 by (by eapply lookup_lt_Some).
      simplify_eq. rewrite Hc, Ho. apply (wf_owing _ Hwf _ _ Hp). congruence.
    + rewrite list_lookup_insert_ne in Hp0 by done. by apply (wf_owing _ Hwf h0).
  - unfold owed. cbn. rewrite (owing_insert_same h p p') by done. apply Hwf.
Qed.

Lemma port_read_inv h w r w' :
  port_read h w = (r, w') ->
  match ports w !! h with
  | None => r = inl TypeError /\ w' = w
  | Some p =>
      match incoming p with
      | [] => r = inr None /\ w' = w
      | Chunk c :: q => r = inr (Some c) /\ w' = set_port h (with_incoming q p) w
      | ReadFault e :: q => r = inl e /\ w' = set_port h (with_incoming q p) w
      end
  end.
Proof.
  unfold port_read. destruct (ports w !! h) as [p|]; [|by intros [= <- <-]].
  destruct (incoming p) as [|[c|e] q]; by intros [= <- <-].
Qed.

Lemma decoded_snoc tr ev :
  decoded (tr ++ [ev]) =
  decoded tr ++ from_option (fun c => [c]) [] (decoded_chunk ev).
Proof.
  unfold decoded. rewrite omap_app. cbn. by destruct (decoded_chunk ev).
Qed.

Lemma buffered_set_port h p q w :
  device w = Some h -> ports w !! h = Some p ->
  buffered (set_port h (with_incoming q p) w) = q.
Proof.
  intros Hd Hp. unfold buffered. cbn. rewrite Hd.
  by rewrite list_lookup_insert_eq by (by eapply lookup_lt_Some).
Qed.

Lemma drain_once_inv w again w' :
  drain_once w = (again, w') ->
  (isOpen w' = isOpen w /\ device w' = device w /\ env w' = env w /\
   live_handles w' = live_handles w /\ (WF w -> WF w')) /\
  debug w' = debug w /\
  match buffered w with
  | [] => again = false /\ w' = w
  | Chunk c :: q =>
      buffered w' = q /\ trace w' = at_decoder w c ++ [EvDecode c] /\
      again = match decoder_fault (env w) (at_decoder w c) c with
              | Some _ => false
              | None => true
              end
  | ReadFault e :: q =>
      again = false /\ buffered w' = q /\ trace w' = trace w
  end.
Proof.
  unfold drain_once, buffered, at_decoder. destruct (device w) as [h|] eqn:Hd.
  2:{ intros [= <- <-]. done. }
  destruct (port_read h w) as [r w1] eqn:Hr. apply port_read_inv in Hr.
  destruct (ports w !! h) as [p|] eqn:Hp.
  2:{ destruct Hr as [-> ->]. intros [= <- <-]. done. }
  destruct (incoming p) as [|[c|e] q] eqn:Hq; destruct Hr as [-> ->].
  - intros [= <- <-]. done.
  - intros [= <- <-]. cbn [debug set_port set_ports env trace].
    assert (Hwf : WF w -> WF (set_port h (with_incoming q p) w))
      by (intros Hwf; by eapply WF_set_port).
    assert (Hlive : live_handles (set_port h (with_incoming q p) w) = live_handles w)
      by (unfold live_handles; cbn; by eapply live_from_insert).
    pose proof (buffered_set_port h p q w Hd Hp) as Hb.
    destruct (debug w) eqn:Hdbg; cbn.
    + split; [split_and!; try done; intros; apply WF_log; [done..|]; apply WF_log; auto|].
      by split_and!.
    + split; [split_and!; try done; intros; apply WF_log; auto|].
      by split_and!.
  - intros [= <- <-]. split; [split_and!; try done|].
    + unfold live_handles; cbn; by eapply live_from_insert.
    + intros Hwf; by eapply WF_set_port.
    + split; [done|]. split; [done|]. split; [|done]. by apply buffered_set_port.
Qed.

(** C9: one run of [dataReady], given fuel for every buffered item and
    one more, returns without raising and leaves the connection state
    (the flag, the stored port, the open handles) as it was.  It does
    to the buffer exactly what the read loop is asked to do
    ([drained]): the chunks go to the decoder in arrival order, and the
    run ends at the empty buffer ([read()] gives null), at the first
    read that throws, or right after the first chunk on which the
    decoder throws; what comes after that stays in the buffer. *)
Theorem dataReady_drains self fuel w :
  length (buffered w) < fuel ->
  exists w',
    exec self (dataReady fuel) w = (Returned tt, w') /\
    isOpen w' = isOpen w /\ device w' = device w /\
    live_handles w' = live_handles w /\
    decoded (trace w') =
      decoded (trace w) ++ (drained (env w) (debug w) (trace w) (buffered w)).1 /\
    buffered w' = (drained (env w) (debug w) (trace w) (buffered w)).2.
Proof.
  revert w. induction fuel as [|fuel IH]; intros w Hlen; [lia|].
  rewrite exec_dataReady_S.
  destruct (drain_once w) as [again w1] eqn:Hd.
  apply drain_once_inv in Hd as [(Ho & Hdev & Henv & Hlive & _) [Hdbg Hb]].
  destruct (buffered w) as [|[c|e] q] eqn:Hbuf.
  - destruct Hb as [-> ->]. exists w. rewrite Hbuf. cbn. by rewrite app_nil_r.
  - destruct Hb as (Hq & Htr & Hagain). cbn [drained]. fold (at_decoder w c).
    destruct (decoder_fault (env w) (at_decoder w c) c) as [e|] eqn:Hf; subst again.
    + exists w1. cbn. split_and!; try done.
      rewrite Htr, decoded_snoc. cbn. f_equal.
      unfold at_decoder. destruct (debug w); [|done].
      rewrite decoded_snoc. cbn. by rewrite app_nil_r.
    + destruct (IH w1) as (w' & He & Ho' & Hdev' & Hlive' & Hdec' & Hbuf').
      { rewrite Hq. cbn in Hlen. lia. }
      rewrite Henv, Hdbg, Htr, Hq in Hdec', Hbuf'.
      exists w'. rewrite He, Ho', Hdev', Hlive'.
      destruct (drained _ _ _ q) as [cs kept]. cbn [fst snd] in *.
      split_and!; try done.
      rewrite Hdec', decoded_snoc. cbn. rewrite <- app_assoc. cbn. f_equal.
      unfold at_decoder. destruct (debug w); [|done].
      rewrite decoded_snoc. cbn. by rewrite app_nil_r.
  - destruct Hb as (-> & Hq & Htr). exists w1. cbn. rewrite Htr, app_nil_r, Hq.
    split_and!; done.
Qed.

Lemma dataReady_drains_witness :
  let w := port_arrive 0 [Chunk [x01]; Chunk [x02]; Chunk [x03]]
             (session garbled 10 false [DoSetPort "COM7"; DoConnect]) in
  (length (buffered w) < 4 /\
   drained (env w) (debug w) (trace w) (buffered w) = ([[x01]; [x02]], [Chunk [x03]])) /\
  exists w',
    exec 0 (dataReady 4) w = (Returned tt, w') /\
    isOpen w' = isOpen w /\ device w' = device w /\
    live_handles w' = live_handles w /\
    decoded (trace w') =
      decoded (trace w) ++ (drained (env w) (debug w) (trace w) (buffered w)).1 /\
    buffered w' = (drained (env w) (debug w) (trace w) (buffered w)).2.
Proof.
  intros w. split; [split; [vm_compute; lia|vm_compute; reflexivity]|].
  apply (dataReady_drains 0 4 w). vm_compute. lia.
Defined.

Lemma WF_dataReady self fuel w : WF w -> WF (exec self (dataReady fuel) w).2.
Proof.
  revert w. induction fuel as [|fuel IH]; intros w Hwf; [done|].
  rewrite exec_dataReady_S.
  destruct (drain_once w) as [again w1] eqn:Hd.
  apply drain_once_inv in Hd as [(_ & _ & _ & _ & Hwf1) _].
  destruct again; [apply IH|]; auto.
Qed.

(** ** Every action keeps the invariant *)

Lemma port_write_inv h data w r w' :
  port_write h data w = (r, w') ->
  match ports w !! h with
  | None => r = Some TypeError /\ w' = w
  | Some p =>
      if opened p
      then r = None /\
           w' = log (EvWrite h data) (set_port h (with_written (written p ++ [data]) p) w)
      else r = Some (MkError "Port is not open") /\ w' = log (EvWriteFailed h data) w
  end.
Proof.
  unfold port_write. destruct (ports w !! h) as [p|]; [|by intros [= <- <-]].
  destruct (opened p); by intros [= <- <-].
Qed.

Lemma WF_set_mutex_log ev w :
  is_close ev = false -> is_disconnect ev = false ->
  WF (set_mutex MutexOps.idle w) -> WF (set_mutex MutexOps.idle (log ev w)).
Proof.
  intros Hc Hd Hwf. apply (WF_ext (log ev (set_mutex MutexOps.idle w))); try done.
  by apply WF_log.
Qed.

Lemma send_outcome_inv data w r w' :
  send_outcome data w = (r, w') ->
  mutex w' = mutex w /\ isOpen w' = isOpen w /\ device w' = device w /\
  (WF (set_mutex MutexOps.idle w) -> WF (set_mutex MutexOps.idle w')).
Proof.
  unfold send_outcome. destruct (isOpen w) eqn:Hi; [|by intros [= <- <-]].
  cbn. destruct (device w) as [h|] eqn:Hd.
  2:{ intros [= <- <-]. split_and!; try done. by apply WF_set_mutex_log. }
  destruct (port_write _ _ _) as [r0 w2] eqn:Hw. apply port_write_inv in Hw. cbn in Hw.
  destruct (ports w !! h) as [p|] eqn:Hp.
  - destruct (opened p) eqn:Ho; destruct Hw as [-> ->]; intros [= <- <-].
    + split_and!; try done. intros Hwf.
      do 2 (apply WF_set_mutex_log; [done..|]).
      apply (WF_ext (set_port h (with_written (written p ++ [data]) p)
                       (log (EvSleep (packetIntervalMs w)) (set_mutex MutexOps.idle w))));
        try done.
      eapply WF_set_port; [|done..]. by apply WF_log.
    + split_and!; try done. intros Hwf. by do 2 (apply WF_set_mutex_log; [done..|]).
  - destruct Hw as [-> ->]. intros [= <- <-]. split_and!; try done.
    intros Hwf. by apply WF_set_mutex_log.
Qed.

Lemma WF_set_mutex_idle w : WF w -> WF (set_mutex MutexOps.idle w).
Proof. intros Hwf. apply (WF_ext w); try done. cbn. symmetry. apply Hwf. Qed.

Lemma WF_sendRaw self data force w : WF w -> WF (exec self (sendRaw data force) w).2.
Proof.
  intros Hwf. destruct force.
  - rewrite exec_sendRaw_forced. destruct (send_outcome data w) as [r w'] eqn:Hs.
    apply send_outcome_inv in Hs as (Hm & _ & _ & Hwf'). cbn.
    apply (WF_ext (set_mutex MutexOps.idle w')); try done.
    + apply Hwf'. by apply WF_set_mutex_idle.
    + cbn. rewrite Hm. apply Hwf.
  - rewrite exec_sendRaw_gated. cbn. rewrite (wf_mutex _ Hwf). cbn.
    rewrite bool_decide_eq_true_2 by done.
    destruct (send_outcome _ _) as [r w'] eqn:Hs.
    apply send_outcome_inv in Hs as (Hm & _ & _ & Hwf'). cbn. rewrite Hm. cbn.
    apply WF_set_mutex_log; [done..|]. apply Hwf'.
    apply (WF_ext (log (EvAcquire self) (log (EvEnqueue self) w))); try done.
    + by do 2 (apply WF_log; [done..|]).
    + cbn. symmetry. apply Hwf.
Qed.

Lemma WF_port_arrive h items w : WF w -> WF (port_arrive h items w).
Proof.
  intros Hwf. unfold port_arrive. destruct (ports w !! h) as [p|] eqn:Hp; [|done].
  destruct (opened p); [|done]. by eapply WF_set_port.
Qed.

Lemma WF_port_readable fuel h w : WF w -> WF (port_readable fuel h w).
Proof.
  intros Hwf. unfold port_readable. destruct (ports w !! h) as [p|]; [|done].
  induction (readableListeners p) as [|n IH]; [done|].
  rewrite Nat.iter_succ. by apply WF_dataReady.
Qed.

Lemma WF_act a w : WF w -> WF (act a w).
Proof.
  intros Hwf. destruct a; cbn [act].
  - by apply (WF_ext w).
  - by apply WF_connect.
  - rewrite exec_disconnect. by apply WF_torn_down.
  - by apply WF_sendRaw.
  - by apply WF_port_close.
  - by apply WF_port_closed.
  - by apply WF_port_arrive.
  - by apply WF_port_readable.
Qed.

Lemma WF_session e i d acts : WF (session e i d acts).
Proof.
  unfold session. generalize (WF_fresh e i d). generalize (fresh e i d).
  induction acts as [|a acts IH]; intros w Hwf; cbn; [done|].
  apply IH. by apply WF_act.
Qed.

(** ** What a successful and a failed connect leave behind *)

Lemma negotiate_ok w w' :
  negotiate w = (None, w') -> exists r, w' = log EvNegotiate (set_connectResult r w).
Proof.
  unfold negotiate. destruct (negotiate_outcome _ _) as [r|e|e]; intros [= <-]; eauto.
Qed.

Lemma fetch_info_ok w w' : fetch_info w = (None, w') -> w' = log EvFetchInfo w.
Proof.
  unfold fetch_info. destruct (fetch_outcome _ _) as [r|e|e]; by intros [= <-].
Qed.

Lemma handshake_ok w w' :
  handshake w = (None, w') ->
  exists r, w' = log EvFetchInfo (log EvNegotiate (set_connectResult r w)).
Proof.
  unfold handshake. destruct (negotiate w) as [[e|] w1] eqn:Hn; [done|].
  apply negotiate_ok in Hn as [r ->]. intros ->%fetch_info_ok. eauto.
Qed.

Lemma connect_success self w info w' :
  exec self connect w = (Returned info, w') ->
  exists name r,
    portName w = Some name /\
    info = announced (connected_world name r (torn_down w)) /\
    w' = log (EvEmit (ConnectEvent info)) (connected_world name r (torn_down w)).
Proof.
  rewrite exec_connect. destruct (portName w) as [[|c name]|]; [done| |done].
  destruct (serial_open _ _) as [r0 w2] eqn:Hso.
  apply serial_open_inv in Hso as [(e & -> & ->)|[-> ->]]; [done|].
  rewrite installed_fresh.
  destruct (handshake _) as [[e|] w3] eqn:Hh; [done|].
  apply handshake_ok in Hh as [r ->]. intros [= <- <-].
  by exists (String c name), r.
Qed.

Lemma port_close_isOpen_false h w : isOpen w = false -> isOpen (port_close h w) = false.
Proof. intros Hi. by rewrite port_close_isOpen. Qed.

Lemma port_close_closes h w p :
  ports w !! h = Some p ->
  exists p', ports (port_close h w) !! h = Some p' /\ opened p' = false.
Proof.
  intros Hp. unfold port_close. rewrite Hp. destruct (opened p) eqn:Ho; [|eauto].
  cbn. rewrite list_lookup_insert_eq by (by eapply lookup_lt_Some). eauto.
Qed.

Lemma port_close_lookup h h' w :
  is_Some (ports w !! h') -> is_Some (ports (port_close h w) !! h').
Proof.
  intros Hs. unfold port_close. repeat case_match; try done.
  cbn. apply lookup_lt_is_Some.
  rewrite length_insert. by apply lookup_lt_is_Some.
Qed.

Lemma device_lost_device w : device (device_lost w) = device w.
Proof. unfold device_lost. case_match; by autorewrite with frame. Qed.

Lemma device_lost_lookup h w :
  is_Some (ports w !! h) -> is_Some (ports (device_lost w) !! h).
Proof. unfold device_lost. case_match; [apply port_close_lookup|done]. Qed.

Lemma negotiate_frame w :
  device (negotiate w).2 = device w /\
  forall h, is_Some (ports w !! h) -> is_Some (ports (negotiate w).2 !! h).
Proof.
  unfold negotiate. destruct (negotiate_outcome _ _); cbn; try done.
  rewrite device_lost_device. split; [done|]. intros h Hs. by apply device_lost_lookup.
Qed.

Lemma fetch_info_frame w :
  device (fetch_info w).2 = device w /\
  forall h, is_Some (ports w !! h) -> is_Some (ports (fetch_info w).2 !! h).
Proof.
  unfold fetch_info. destruct (fetch_outcome _ _); cbn; try done.
  rewrite device_lost_device. split; [done|]. intros h Hs. by apply device_lost_lookup.
Qed.

Lemma handshake_frame w :
  device (handshake w).2 = device w /\
  forall h, is_Some (ports w !! h) -> is_Some (ports (handshake w).2 !! h).
Proof.
  unfold handshake. destruct (negotiate_frame w) as [Hd Hp].
  destruct (negotiate w) as [[e|] w1]; cbn in *; [done|].
  destruct (fetch_info_frame w1) as [Hd' Hp']. rewrite Hd', Hd. eauto.
Qed.

Lemma live_from_closed i l :
  (forall j p, l !! j = Some p -> opened p = false) -> live_from i l = [].
Proof.
  revert i. induction l as [|x l IH]; intros i Hall; [done|]. cbn.
  rewrite (Hall 0 x eq_refl). cbn. apply IH. intros j p Hj. by apply (Hall (S j)).
Qed.

Lemma live_from_app i l1 l2 :
  live_from i (l1 ++ l2) = live_from i l1 ++ live_from (i + length l1) l2.
Proof.
  revert i. induction l1 as [|x l1 IH]; intros i; cbn.
  - by rewrite Nat.add_0_r.
  - rewrite IH, <- app_assoc. do 3 f_equal. lia.
Qed.

Lemma all_closed_live w : all_closed w -> live_handles w = [].
Proof. intros Hall. by apply live_from_closed. Qed.

Lemma live_from_single i h l :
  (forall j p, l !! j = Some p -> opened p = true -> i + j = h) ->
  live_from i l = [] \/ live_from i l = [h].
Proof.
  revert i. induction l as [|x l IH]; intros i Hall; [by left|]. cbn.
  destruct (opened x) eqn:Ho.
  - right. pose proof (Hall 0 x eq_refl Ho) as Hh.
    rewrite live_from_closed; [cbn; f_equal; lia|].
    intros j p Hj. destruct (opened p) eqn:Hop; [|done].
    pose proof (Hall (S j) p Hj Hop). lia.
  - cbn. apply IH. intros j p Hj Hop. pose proof (Hall (S j) p Hj Hop). lia.
Qed.

Lemma WF_live_handles w :
  WF w -> live_handles w = [] \/ exists h, device w = Some h /\ live_handles w = [h].
Proof.
  intros Hwf. destruct (device w) as [h|] eqn:Hd.
  - destruct (live_from_single 0 h (ports w)) as [Hl|Hl]; [|by left|right; eauto].
    intros j p Hj Ho. destruct (wf_live _ Hwf _ _ Hj Ho) as [Hd' _]. cbn. congruence.
  - left. apply all_closed_live. intros j p Hj. destruct (opened p) eqn:Ho; [|done].
    destruct (wf_live _ Hwf _ _ Hj Ho) as [Hd' _]. congruence.
Qed.

(** ** The connect event *)

(** C10: when [connect()] succeeds, the connect event it emits carries
    the device name "Serial (<portName>)", and the result code recorded
    by the negotiation, or [ConnectResult.FirmwareErrors] when none was
    recorded. *)
Theorem connect_announces self w info w' :
  exec self connect w = (Returned info, w') ->
  exists name tr,
    portName w = Some name /\
    deviceName info = ("Serial (" ++ name ++ ")")%string /\
    (connectResult w' = None -> result info = FirmwareErrors) /\
    (forall r, connectResult w' = Some r -> result info = r) /\
    trace w' = tr ++ [EvEmit (ConnectEvent info)].
Proof.
  intros (name & r & Hn & -> & ->)%connect_success.
  exists name, (trace (connected_world name r (torn_down w))).
  cbn. rewrite torn_down_portName, Hn. split_and!; try done.
  - by intros ->.
  - by intros r' ->.
Qed.

Lemma connect_announces_witness :
  exec 0 connect com7 =
    (Returned {| deviceName := "Serial (COM7)"; result := FirmwareErrors |},
     (exec 0 connect com7).2) /\
  exists name tr,
    portName com7 = Some name /\
    "Serial (COM7)"%string = ("Serial (" ++ name ++ ")")%string /\
    (connectResult (exec 0 connect com7).2 = None -> FirmwareErrors = FirmwareErrors) /\
    (forall r, connectResult (exec 0 connect com7).2 = Some r -> FirmwareErrors = r) /\
    trace (exec 0 connect com7).2 =
      tr ++ [EvEmit (ConnectEvent {| deviceName := "Serial (COM7)"; result := FirmwareErrors |})].
Proof.
  split; [vm_compute; reflexivity|].
  apply (connect_announces 0 com7
           {| deviceName := "Serial (COM7)"; result := FirmwareErrors |}
           (exec 0 connect com7).2).
  vm_compute; reflexivity.
Defined.

(** ** A handshake that fails *)



(** ** Connection status and the disconnect event *)

Lemma owed_port_close h p w :
  ports w !! h = Some p -> opened p = true -> notifying p = false ->
  owed (port_close h w) = S (owed w).
Proof.
  intros Hp Ho Hn. rewrite (port_close_open _ _ _ Hp Ho). unfold owed. cbn.
  pose proof (owing_insert h p (with_notifying true (with_opened false p))
                (ports w) Hp) as H.
  rewrite Hn in H. cbn in H. lia.
Qed.

Lemma port_closed_arrives h p w :
  WF w -> ports w !! h = Some p -> notifying p = true ->
  isOpen (port_closed h w) = false /\
  trace (port_closed h w) = trace w ++ [EvEmit DisconnectEvent] /\
  S (owed (port_closed h w)) = owed w.
Proof.
  intros Hwf Hp Hn. rewrite (WF_port_closed_owing _ _ _ Hwf Hp Hn).
  split; [done|]. split; [done|]. unfold owed. cbn.
  pose proof (owing_insert h p (with_notifying false p) (ports w) Hp) as H.
  rewrite Hn in H. cbn in H. lia.
Qed.

(** C7, as the code has it: [disconnect()] closes the port and leaves
    the flag alone; the flag is lowered by the close notification of
    the port, which arrives later.  In a session used by one caller at
    a time, with the reports of the ports arriving between the calls:
    [isConnected()] is true after a [connect()] that succeeded;
    [disconnect()], and a port closed by the device, leave
    [isConnected()] as it was, and the closed port owes its
    notification; when the notification of a port arrives,
    [isConnected()] is false and exactly one disconnect event is
    emitted; and in the history of the session every close has been
    answered by exactly one disconnect event, but for the closes whose
    notification is still owed. *)
Theorem connection_status_follows e i d acts :
  let w := session e i d acts in
  (forall self info w', exec self connect w = (Returned info, w') ->
     (exec self isConnected w').1 = Returned true) /\
  (forall self,
     (exec self isConnected (exec self disconnect w).2).1 =
     (exec self isConnected w).1) /\
  (forall self h p, ports w !! h = Some p -> opened p = true ->
     (exec self isConnected (port_close h w)).1 = (exec self isConnected w).1 /\
     trace (port_close h w) = trace w ++ [EvClose h] /\
     owed (port_close h w) = S (owed w)) /\
  (forall self h p, ports w !! h = Some p -> notifying p = true ->
     (exec self isConnected (port_closed h w)).1 = Returned false /\
     trace (port_closed h w) = trace w ++ [EvEmit DisconnectEvent] /\
     S (owed (port_closed h w)) = owed w) /\
  tally is_close (trace w) = tally is_disconnect (trace w) + owed w.
Proof.
  intros w. pose proof (WF_session e i d acts) as Hwf. fold w in Hwf. split_and!.
  - intros self info w' (name & r & _ & _ & ->)%connect_success. done.
  - intros self. rewrite exec_disconnect. cbn. by rewrite torn_down_isOpen.
  - intros self h p Hp Ho. cbn. rewrite port_close_isOpen. split; [done|].
    split; [by rewrite (port_close_open _ _ _ Hp Ho)|].
    apply (owed_port_close h p); try done.
    destruct (notifying p) eqn:Hn; [|done].
    destruct (wf_owing _ Hwf _ _ Hp Hn). congruence.
  - intros self h p Hp Hn.
    destruct (port_closed_arrives h p w Hwf Hp Hn) as (Hi & Ht & Ho).
    cbn. by rewrite Hi.
  - apply Hwf.
Qed.

Lemma connection_status_follows_witness :
  (exec 0 isConnected (exec 0 connect com7).2).1 = Returned true /\
  (exec 0 isConnected (exec 0 disconnect com7_connected).2).1 =
    (exec 0 isConnected com7_connected).1 /\
  ((exec 0 isConnected (port_close 0 com7_connected)).1 =
     (exec 0 isConnected com7_connected).1 /\
   trace (port_close 0 com7_connected) = trace com7_connected ++ [EvClose 0] /\
   owed (port_close 0 com7_connected) = S (owed com7_connected)) /\
  (let w := session quiet 10 false [DoSetPort "COM7"; DoConnect; DoDisconnect] in
   (exec 0 isConnected (port_closed 0 w)).1 = Returned false /\
   trace (port_closed 0 w) = trace w ++ [EvEmit DisconnectEvent] /\
   S (owed (port_closed 0 w)) = owed w) /\
  (let w := session quiet 10 false
              [DoSetPort "COM7"; DoConnect; DoDisconnect; DoClosed 0] in
   tally is_close (trace w) = tally is_disconnect (trace w) + owed w).
Proof.
  split; [|split; [|split; [|split]]].
  - refine (proj1 (connection_status_follows quiet 10 false [DoSetPort "COM7"]) 0
              {| deviceName := "Serial (COM7)"; result := FirmwareErrors |}
              (exec 0 connect com7).2 _).
    vm_compute; reflexivity.
  - exact (proj1 (proj2 (connection_status_follows quiet 10 false
                           [DoSetPort "COM7"; DoConnect])) 0).
  - refine (proj1 (proj2 (proj2 (connection_status_follows quiet 10 false
                                   [DoSetPort "COM7"; DoConnect]))) 0 0
              (ready_port "COM7") _ _); vm_compute; reflexivity.
  - refine (proj1 (proj2 (proj2 (proj2 (connection_status_follows quiet 10 false
              [DoSetPort "COM7"; DoConnect; DoDisconnect])))) 0 0
              (with_notifying true (with_opened false (ready_port "COM7"))) _ _);
      vm_compute; reflexivity.
  - exact (proj2 (proj2 (proj2 (proj2 (connection_status_follows quiet 10 false
             [DoSetPort "COM7"; DoConnect; DoDisconnect; DoClosed 0]))))).
Defined.

(** C7 as stated fails: right after a [disconnect()] that has run to
    its end on a connected session the port is closed, and
    [isConnected()] still answers true; it answers false only once the
    close notification of the port has arrived. *)
Lemma connected_after_disconnect :
  match exec 0 disconnect com7_connected with
  | (Returned _, w) =>
      live_handles w = [] /\
      (exec 0 isConnected w).1 = Returned true /\
      (exec 0 isConnected (port_closed 0 w)).1 = Returned false
  | _ => False
  end.
Proof. vm_compute. by split_and!. Qed.

(** ** One handle at a time *)

Lemma port_close_length h w : length (ports (port_close h w)) = length (ports w).
Proof.
  unfold port_close. repeat case_match; try done.
  cbn. by rewrite length_insert.
Qed.

Lemma torn_down_length w : length (ports (torn_down w)) = length (ports w).
Proof.
  unfold torn_down, device_lost. cbn. case_match; [|done]. by rewrite port_close_length.
Qed.

Lemma connected_world_live name r w1 :
  all_closed w1 ->
  live_handles (connected_world name r w1) = [length (ports w1)].
Proof.
  intros Hall. unfold live_handles. cbn. rewrite live_from_app.
  by rewrite (live_from_closed 0 (ports w1)).
Qed.

(** C8, as the code has it: a session used by one caller at a time,
    each call run to its end before the next is made, never has more
    than one open port; when [connect()] succeeds twice in a row, the
    port of the first call is the only one open after it, it is closed
    before the second call opens its own, and the port of the second
    call is the only one open in the end. *)
Theorem one_live_handle e i d acts :
  let w := session e i d acts in
  length (live_handles w) <= 1 /\
  forall self1 self2 info1 w1 info2 w2,
    exec self1 connect w = (Returned info1, w1) ->
    exec self2 connect w1 = (Returned info2, w2) ->
    exists h1 h2 name tr1 tr2 tr3,
      live_handles w1 = [h1] /\ live_handles w2 = [h2] /\ h1 <> h2 /\
      live_handles (torn_down w1) = [] /\
      trace w2 = tr1 ++ EvClose h1 :: tr2 ++ EvOpen h2 name :: tr3.
Proof.
  intros w. pose proof (WF_session e i d acts) as Hwf. fold w in Hwf. split.
  - destruct (WF_live_handles w Hwf) as [->|(h & _ & ->)]; cbn; lia.
  - intros self1 self2 info1 w1 info2 w2 H1 H2.
    pose proof (WF_connect self1 w Hwf) as Hwf1. rewrite H1 in Hwf1. cbn [snd] in Hwf1.
    apply connect_success in H1 as (name1 & r1 & _ & _ & ->).
    apply connect_success in H2 as (name2 & r2 & _ & _ & ->).
    destruct (WF_torn_down w Hwf) as (_ & Hall).
    destruct (WF_torn_down _ Hwf1) as (_ & Hall1).
    set (c1 := connected_world name1 r1 (torn_down w)) in *.
    set (w1 := log (EvEmit (ConnectEvent info1)) c1) in *.
    exists (length (ports (torn_down w))), (length (ports (torn_down w1))),
      name2, (trace c1 ++ [EvEmit (ConnectEvent info1); EvStopHeartbeat]),
      [],
      [EvNegotiate; EvFetchInfo; EvEmit (ConnectEvent info2)].
    split_and!.
    + unfold live_handles, w1. cbn [ports log]. by apply connected_world_live.
    + unfold live_handles. cbn [ports log]. by apply connected_world_live.
    + rewrite !torn_down_length. unfold w1, c1. cbn. rewrite length_app, torn_down_length. cbn. lia.
    + by apply all_closed_live.
    + cbn [trace log connected_world set_connectResult set_device set_isOpen set_ports].
      unfold torn_down, device_lost.
      cbn [device log set_heartbeat w1 c1 connected_world set_connectResult set_device].
      erewrite port_close_open.
      * cbn. rewrite <- !app_assoc. done.
      * cbn. by apply list_lookup_middle.
      * done.
Qed.

Lemma one_live_handle_witness :
  length (live_handles com7_connected) <= 1 /\
  exists h1 h2 name tr1 tr2 tr3,
    live_handles (exec 0 connect com7).2 = [h1] /\
    live_handles (exec 0 connect (exec 0 connect com7).2).2 = [h2] /\
    h1 <> h2 /\
    live_handles (torn_down (exec 0 connect com7).2) = [] /\
    trace (exec 0 connect (exec 0 connect com7).2).2 =
      tr1 ++ EvClose h1 :: tr2 ++ EvOpen h2 name :: tr3.
Proof.
  split.
  - exact (proj1 (one_live_handle quiet 10 false [DoSetPort "COM7"; DoConnect])).
  - refine (proj2 (one_live_handle quiet 10 false [DoSetPort "COM7"]) 0 0
              {| deviceName := "Serial (COM7)"; result := FirmwareErrors |}
              (exec 0 connect com7).2
              {| deviceName := "Serial (COM7)"; result := FirmwareErrors |}
              (exec 0 connect (exec 0 connect com7).2).2 _ _);
      vm_compute; reflexivity.
Defined.

(** ** Sending *)

Lemma writes_snoc tr ev :
  writes (tr ++ [ev]) = writes tr ++ from_option (fun c => [c]) [] (written_data ev).
Proof. unfold writes. rewrite omap_app. cbn. by destruct (written_data ev). Qed.

(** C4, as the code has it: with the bypass flag set, a send on a
    connected session does not touch the gate, whoever holds it, but it
    still waits the configured packet interval before it writes; then
    it writes and emits the raw-packet-sent event. *)
Theorem forced_send_skips_gate_only self data w h p :
  isOpen w = true -> device w = Some h -> ports w !! h = Some p -> opened p = true ->
  exists w',
    exec self (sendRaw data true) w = (Returned tt, w') /\
    trace w' = trace w ++ [EvSleep (packetIntervalMs w); EvWrite h data;
                           EvEmit (RawPacketSentEvent data)] /\
    mutex w' = mutex w.
Proof.
  intros Hi Hd Hp Ho. eexists. rewrite exec_sendRaw_forced. unfold send_outcome.
  rewrite Hi. cbn. rewrite Hd. unfold port_write. cbn. rewrite Hp, Ho.
  split; [done|]. cbn. by rewrite <- !app_assoc.
Qed.

Lemma forced_send_skips_gate_only_witness :
  (isOpen com7_connected = true /\ device com7_connected = Some 0 /\
   ports com7_connected !! 0 = Some (ready_port "COM7") /\
   opened (ready_port "COM7") = true) /\
  exists w',
    exec 5 (sendRaw [x01] true) com7_connected = (Returned tt, w') /\
    trace w' = trace com7_connected ++
      [EvSleep (packetIntervalMs com7_connected); EvWrite 0 [x01];
       EvEmit (RawPacketSentEvent [x01])] /\
    mutex w' = mutex com7_connected.
Proof.
  split; [split_and!; vm_compute; reflexivity|].
  apply (forced_send_skips_gate_only 5 [x01] com7_connected 0 (ready_port "COM7"));
    vm_compute; reflexivity.
Defined.
(** ** Calls suspended at their awaits *)

Lemma port_on_close_isOpen h w : isOpen (port_on_close h w) = isOpen w.
Proof. unfold port_on_close. by case_match. Qed.

Lemma port_on_readable_isOpen h w : isOpen (port_on_readable h w) = isOpen w.
Proof. unfold port_on_readable. by case_match. Qed.

Hint Rewrite port_on_close_isOpen port_on_readable_isOpen : frame.

Lemma dataReady_isOpen self fuel w :
  isOpen (exec self (dataReady fuel) w).2 = isOpen w.
Proof.
  revert w. induction fuel as [|fuel IH]; intros w; [done|].
  rewrite exec_dataReady_S.
  destruct (drain_once w) as [again w1] eqn:Hd.
  apply drain_once_inv in Hd as [(Hi & _) _].
  destruct again; [rewrite IH|]; done.
Qed.

Lemma port_readable_isOpen fuel h w : isOpen (port_readable fuel h w) = isOpen w.
Proof.
  unfold port_readable. destruct (ports w !! h) as [p|]; [|done].
  induction (readableListeners p) as [|n IH]; [done|].
  rewrite Nat.iter_succ. unfold readableListener at 1. by rewrite dataReady_isOpen.
Qed.

(** The flag is a field of the object: no operation but the assignment
    touches it. *)
Lemma perform_isOpen self {X : Type} (o : op X) w f :
  isOpen w = f -> isOpen (perform self o w).2 = match o with SetIsOpen b => b | _ => f end.
Proof.
  intros <-. destruct o; cbn; try done.
  - unfold negotiate. case_match; cbn; by rewrite ?device_lost_isOpen.
  - unfold fetch_info. case_match; cbn; by rewrite ?device_lost_isOpen.
  - unfold serial_open. by case_match.
  - apply port_on_close_isOpen.
  - apply port_on_readable_isOpen.
  - apply port_close_isOpen.
  - unfold port_read. by repeat case_match.
  - unfold port_write. by repeat case_match.
Qed.

Lemma perform_flag self {X : Type} (o : op X) w before f :
  isOpen w = flag_value before f ->
  isOpen (perform self o w).2 = flag_value before (flag_after o f).
Proof.
  intros H. rewrite (perform_isOpen self o w _ H). by destruct o.
Qed.

Lemma advance_tracks self before p :
  forall f w, Tracks f p -> isOpen w = flag_value before f ->
    exists f', Tracks f' (advance self p w).1 /\
               isOpen (advance self p w).2 = flag_value before f'.
Proof.
  induction p as [a|e| |X o k IH]; intros f w Ht Hi; try (by exists f).
  cbn [advance]. destruct (is_await o) eqn:Ha; [by exists f|].
  destruct (perform self o w) as [x w'] eqn:Hp.
  destruct Ht as [_ Ht]. apply (IH x (flag_after o f)); [done|].
  pose proof (perform_flag self o w before f Hi) as H. by rewrite Hp in H.
Qed.

Lemma resume_tracks self before p f w p' w' :
  Tracks f p -> isOpen w = flag_value before f ->
  resume self p w = Some (p', w') ->
  exists f', Tracks f' p' /\ isOpen w' = flag_value before f'.
Proof.
  intros Ht Hi. destruct p as [a|e| |X o k]; try done. cbn [resume].
  destruct (ready self o w); [|done].
  destruct (perform self o w) as [x w1] eqn:Hp. intros [= Hadv].
  destruct Ht as [_ Ht].
  pose proof (perform_flag self o w before f Hi) as H. rewrite Hp in H.
  destruct (advance_tracks self before (k x) _ w1 (Ht x) H) as (f' & Ht' & Hi').
  rewrite Hadv in Ht', Hi'. by exists f'.
Qed.

(** [connect], read without running it. *)
Lemma connect_tracks : Tracks Kept (body CallConnect).
Proof.
  cbn. repeat (first [done | split | intros [] | intros ? | case_match]; cbn).
Qed.

Lemma connecting_park before s p w f :
  tasks s = [] \/ (exists p0, tasks s = [(0, p0)]) -> settled s = [] ->
  Tracks f p -> isOpen w = flag_value before f ->
  connecting before (park 0 p w s).
Proof.
  intros Hts Hse Ht Hi. unfold park.
  assert (Hdrop : drop_task 0 (tasks s) = []).
  { destruct Hts as [->|[p0 ->]]; done. }
  destruct (settled_result p) as [r|] eqn:Hr.
  - right. exists r. cbn. rewrite Hdrop, Hse. split_and!; try done.
    intros a ->. destruct p; try done. cbn in Ht. by subst f.
  - left. exists p, f. cbn. by rewrite Hdrop, Hse.
Qed.

Lemma connecting_invoke w :
  exists s, step (Invoke CallConnect) (boot w) = Some s /\ connecting (isOpen w) s.
Proof.
  cbn [step boot world tasks spawned settled].
  destruct (advance 0 (body CallConnect) w) as [p w'] eqn:Ha.
  eexists. split; [done|].
  destruct (advance_tracks 0 (isOpen w) _ Kept w connect_tracks eq_refl) as (f & Ht & Hi).
  rewrite Ha in Ht, Hi. apply (connecting_park _ _ _ _ f); cbn; auto.
Qed.

Lemma connecting_world before s w :
  connecting before s -> isOpen w = isOpen (world s) ->
  connecting before
    {| world := w; tasks := tasks s; spawned := spawned s; settled := settled s |}.
Proof.
  intros [(p & f & Ht & Hs & Hr & Htr & Hi)|(r & Ht & Hs & Hi)] Hw.
  - left. exists p, f. cbn. split_and!; congruence.
  - right. exists r. cbn. split_and!; try done. intros a Ha. rewrite Hw. eauto.
Qed.

Lemma connecting_step before l s s' :
  connecting before s -> undisturbed l = true -> step l s = Some s' ->
  connecting before s'.
Proof.
  intros Hc Hl Hstep. destruct l as [c|t|h|h|h fuel]; try done; cbn [step] in Hstep.
  - destruct Hc as [(p & f & Ht & Hs & Hr & Htr & Hi)|(r & Ht & Hs & Hi)];
      rewrite Ht in Hstep; cbn in Hstep; try done.
    destruct (Nat.eqb t 0) eqn:E; [|done]. apply Nat.eqb_eq in E as ->.
    destruct (resume 0 p (world s)) as [[p' w']|] eqn:Hres; [|done].
    injection Hstep as <-.
    destruct (resume_tracks _ before _ _ _ _ _ Htr Hi Hres) as (f' & Ht' & Hi').
    apply (connecting_park _ _ _ _ f'); eauto.
  - injection Hstep as <-. apply connecting_world; [done|]. apply port_close_isOpen.
  - injection Hstep as <-. apply connecting_world; [done|]. apply port_readable_isOpen.
Qed.

Lemma connecting_run before ls :
  forall s s', connecting before s -> forallb undisturbed ls = true ->
    run ls s = Some s' -> connecting before s'.
Proof.
  induction ls as [|l ls IH]; intros s s' Hc Hl Hrun; cbn in Hrun.
  - by injection Hrun as <-.
  - cbn in Hl. apply andb_prop in Hl as [Hl Hls].
    destruct (step l s) as [s1|] eqn:Hstep; [|done].
    eapply IH; [|done..]. by eapply connecting_step.
Qed.

Lemma connecting_flag before s b :
  connecting before s -> flag_expected before s = Some b -> isOpen (world s) = b.
Proof.
  unfold flag_expected, agenda.
  intros [(p & f & Ht & Hs & Hr & Htr & Hi)|(r & Ht & Hs & Hi)];
    rewrite Ht, Hs; cbn; try done.
  - destruct p as [| | |X o k]; try done. cbn. destruct Htr as [Hw _].
    destruct (wait_of o) as [[]|]; try done; intros [= <-]; by subst f.
  - destruct r; try done. intros [= <-]. eauto.
Qed.




(** C8 as stated fails: a [connect()] is made, and before it has
    returned the port name is changed and a second [connect()] is made.
    Both calls pass the tear-down before either has stored a port, both
    open their port and both return: the session is left with two open
    ports, the first of which nothing refers to any more. *)
Lemma overlapping_connects_leak :
  match run [Invoke CallConnect; Resume 0;
             Invoke (CallSetPort "COM8"); Invoke CallConnect; Resume 2;
             Resume 0; Resume 2; Resume 0; Resume 2; Resume 0; Resume 2]
          (boot com7) with
  | Some s =>
      settled s = [(1, Returned tt); (0, Returned tt); (2, Returned tt)] /\
      tasks s = [] /\
      live_handles (world s) = [0; 1] /\
      map path (ports (world s)) = ["COM7"; "COM8"]%string /\
      device (world s) = Some 1
  | None => False
  end.
Proof. vm_compute. by split_and!. Qed.

(** C4 as stated fails: a send with the bypass flag on a connected
    session is suspended on the packet interval before anything is
    written; the write comes when the wait is over. *)
Lemma forced_send_waits_interval :
  match step (Invoke (CallSendRaw [x01] true)) (boot com7_connected) with
  | Some s =>
      agenda s = [(0, Some (OnSleep 10))] /\
      packetIntervalMs (world s) = 10 /\
      writes (trace (world s)) = [] /\
      match step (Resume 0) s with
      | Some s' =>
          trace (world s') =
            trace com7_connected ++
              [EvSleep 10; EvWrite 0 [x01]; EvEmit (RawPacketSentEvent [x01])]
      | None => False
      end
  | None => False
  end.
Proof. vm_compute. by split_and!. Qed.

(** C3 as stated fails: a send issued while the session is not
    connected joins the queue of the gate behind the caller that holds
    it, is granted the gate in its turn, and only then fails with "Not
    connected". *)
Lemma failing_send_occupies_queue :
  match run [Invoke (CallSendRaw [x01] false); Resume 0; Unplug 0; Closed 0]
          (boot com7_connected) with
  | Some s0 =>
      (exec 1 isConnected (world s0)).1 = Returned false /\
      mutex (world s0) = {| holder := Some 0; waiters := [] |} /\
      match step (Invoke (CallSendRaw [x02] false)) s0 with
      | Some s1 =>
          mutex (world s1) = {| holder := Some 0; waiters := [1] |} /\
          agenda s1 = [(0, Some (OnSleep 10)); (1, Some OnGate)] /\
          match run [Resume 0; Resume 1] s1 with
          | Some s2 =>
              settled s2 = [(0, Raised (MkError "Port is not open"));
                            (1, Raised (MkError "Not connected"))] /\
              drop (length (trace (world s1))) (trace (world s2)) =
                [EvSleep 10; EvWriteFailed 0 [x01]; EvRelease 0;
                 EvAcquire 1; EvRelease 1]
          | None => False
          end
      | None => False
      end
  | None => False
  end.
Proof. vm_compute. by split_and!. Qed.

(** C2 as stated fails: a gated send invoked while [isConnected()]
    answers false waits for the gate behind another caller; a
    [connect()] raises the flag in the meantime, and when the send is
    granted the gate it passes the check and writes to the new port. *)
Lemma send_invoked_disconnected_writes :
  match run [Invoke (CallSendRaw [x01] false); Resume 0; Unplug 0; Closed 0]
          (boot com7_connected) with
  | Some s0 =>
      (exec 1 isConnected (world s0)).1 = Returned false /\
      match run [Invoke (CallSendRaw [x02] false);
                 Invoke CallConnect; Resume 0; Resume 2; Resume 2;
                 Resume 1; Resume 1] s0 with
      | Some s1 =>
          settled s1 = [(0, Raised (MkError "Port is not open"))] /\
          agenda s1 = [(2, Some OnNegotiate); (1, Some OnYield)] /\
          writes (trace (world s1)) = [[x02]] /\
          omap (fun p => last (written p)) (ports (world s1)) = [[x02]]
      | None => False
      end
  | None => False
  end.
Proof. vm_compute. by split_and!. Qed.

(** ** Gated sends keep the order of the calls *)

Lemma advance_gated t data w :
  advance t (sendRaw data false) w =
  (waiting data, set_mutex (MutexOps.acquire t (mutex w)) (log (EvEnqueue t) w)).
Proof. reflexivity. Qed.

Lemma resume_waiting t data w :
  isOpen w = true -> holder (mutex w) = Some t ->
  resume t (waiting data) w =
  Some (sleeping data (packetIntervalMs w), log (EvAcquire t) w).
Proof.
  intros Hi Hh. cbn. rewrite bool_decide_eq_true_2 by done. cbn. by rewrite Hi.
Qed.

Lemma resume_waiting_blocked t data w :
  holder (mutex w) <> Some t -> resume t (waiting data) w = None.
Proof. intros Hh. cbn. by rewrite bool_decide_eq_false_2. Qed.

Lemma resume_sleeping t data ms w h p :
  device w = Some h -> ports w !! h = Some p -> opened p = true ->
  resume t (sleeping data ms) w =
  Some (yielding,
        set_mutex (MutexOps.release (mutex w))
          (log (EvRelease t)
             (log (EvEmit (RawPacketSentEvent data))
                (log (EvWrite h data)
                   (set_port h (with_written (written p ++ [data]) p)
                      (log (EvSleep ms) w)))))).
Proof.
  intros Hd Hp Ho. cbn. rewrite Hd. cbn. unfold port_write. cbn. by rewrite Hp, Ho.
Qed.

Lemma resume_yielding t w : resume t yielding w = Some (Ret tt, w).
Proof. reflexivity. Qed.

Lemma resume_waiting_disconnected t data w :
  isOpen w = false -> holder (mutex w) = Some t ->
  resume t (waiting data) w =
  Some (Throw (MkError "Not connected"),
        set_mutex (MutexOps.release (mutex w))
          (log (EvRelease t) (log (EvAcquire t) w))).
Proof.
  intros Hi Hh. cbn. rewrite bool_decide_eq_true_2 by done. cbn. by rewrite Hi.
Qed.

(** C3, as the code has it: in the gated path the connected-check runs
    after the gate is acquired.  The call joins the queue of the gate
    before anything is checked; when it is granted the gate on a
    session that is not connected it fails with "Not connected" without
    sleeping or writing, and releases the gate; with the gate free at
    the call, the gate is left as it was. *)
Theorem gated_send_checks_inside_gate t data :
  (forall w,
     advance t (sendRaw data false) w =
     (waiting data,
      set_mutex (MutexOps.acquire t (mutex w)) (log (EvEnqueue t) w))) /\
  (forall w,
     isOpen w = false -> holder (mutex w) = Some t ->
     resume t (waiting data) w =
     Some (Throw (MkError "Not connected"),
           set_mutex (MutexOps.release (mutex w))
             (log (EvRelease t) (log (EvAcquire t) w)))) /\
  (forall w,
     isOpen w = false -> mutex w = MutexOps.idle ->
     exists w',
       exec t (sendRaw data false) w = (Raised (MkError "Not connected"), w') /\
       trace w' = trace w ++ [EvEnqueue t; EvAcquire t; EvRelease t] /\
       mutex w' = mutex w /\
       ports w' = ports w).
Proof.
  split_and!.
  - intros w. apply advance_gated.
  - intros w. apply resume_waiting_disconnected.
  - intros w Hi Hm. eexists. rewrite exec_sendRaw_gated. cbn. rewrite Hm. cbn.
    rewrite bool_decide_eq_true_2 by done.
    unfold send_outcome. cbn. rewrite Hi. split; [done|]. cbn.
    by rewrite <- !app_assoc.
Qed.

Lemma gated_send_checks_inside_gate_witness :
  (isOpen (set_mutex {| holder := Some 3; waiters := [] |} com7) = false /\
   holder (mutex (set_mutex {| holder := Some 3; waiters := [] |} com7)) = Some 3 /\
   isOpen com7 = false /\ mutex com7 = MutexOps.idle) /\
  resume 3 (waiting [x01]) (set_mutex {| holder := Some 3; waiters := [] |} com7) =
    Some (Throw (MkError "Not connected"),
          set_mutex
            (MutexOps.release
               (mutex (set_mutex {| holder := Some 3; waiters := [] |} com7)))
            (log (EvRelease 3)
               (log (EvAcquire 3)
                  (set_mutex {| holder := Some 3; waiters := [] |} com7)))) /\
  exists w',
    exec 3 (sendRaw [x01] false) com7 = (Raised (MkError "Not connected"), w') /\
    trace w' = trace com7 ++ [EvEnqueue 3; EvAcquire 3; EvRelease 3] /\
    mutex w' = mutex com7 /\
    ports w' = ports com7.
Proof.
  split; [split_and!; vm_compute; reflexivity|]. split.
  - apply (proj1 (proj2 (gated_send_checks_inside_gate 3 [x01]))
             (set_mutex {| holder := Some 3; waiters := [] |} com7));
      vm_compute; reflexivity.
  - apply (proj2 (proj2 (gated_send_checks_inside_gate 3 [x01])) com7);
      vm_compute; reflexivity.
Defined.

(** C2, as the code has it: the connected-check of a send is made when
    its closure runs, which is at the call with the bypass flag and
    once the gate is granted without it; a send that finds
    [isConnected()] false at that moment fails with "Not connected",
    and nothing is written to a port.  So does a gated send that is
    called on a free gate and runs to its end without another call in
    between. *)
Theorem sendRaw_not_connected t data :
  (forall w,
     (exec t isConnected w).1 = Returned false ->
     advance t (sendRaw data true) w = (Throw (MkError "Not connected"), w)) /\
  (forall w0 w,
     (exec t isConnected w).1 = Returned false -> holder (mutex w) = Some t ->
     exists w',
       resume t (advance t (sendRaw data false) w0).1 w =
         Some (Throw (MkError "Not connected"), w') /\
       ports w' = ports w /\
       writes (trace w') = writes (trace w)) /\
  (forall w force,
     (exec t isConnected w).1 = Returned false ->
     force = true \/ mutex w = MutexOps.idle ->
     exists w',
       exec t (sendRaw data force) w = (Raised (MkError "Not connected"), w') /\
       ports w' = ports w /\
       writes (trace w') = writes (trace w)).
Proof.
  split_and!.
  - cbn. intros w [= Hi]. by rewrite Hi.
  - cbn [exec isConnected call perform ready fst]. intros w0 w [= Hi] Hh.
    rewrite advance_gated. cbn [fst].
    rewrite (resume_waiting_disconnected _ _ _ Hi Hh). eexists. split; [done|].
    cbn. by rewrite !writes_snoc, !app_nil_r.
  - cbn [exec isConnected call perform ready fst]. intros w force [= Hi] Hgate.
    destruct force.
    + exists w. rewrite exec_sendRaw_forced. unfold send_outcome. by rewrite Hi.
    + destruct Hgate as [|Hm]; [done|].
      eexists. rewrite exec_sendRaw_gated. cbn. rewrite Hm. cbn.
      rewrite bool_decide_eq_true_2 by done.
      unfold send_outcome. cbn. rewrite Hi. split; [done|]. cbn.
      by rewrite !writes_snoc, !app_nil_r.
Qed.

Lemma sendRaw_not_connected_witness :
  let held := set_mutex {| holder := Some 3; waiters := [4] |} com7 in
  ((exec 3 isConnected com7).1 = Returned false /\
   (exec 3 isConnected held).1 = Returned false /\
   holder (mutex held) = Some 3 /\
   (false = true \/ mutex com7 = MutexOps.idle)) /\
  advance 3 (sendRaw [x01; x02] true) com7 = (Throw (MkError "Not connected"), com7) /\
  (exists w',
     resume 3 (advance 3 (sendRaw [x01; x02] false) com7_connected).1 held =
       Some (Throw (MkError "Not connected"), w') /\
     ports w' = ports held /\
     writes (trace w') = writes (trace held)) /\
  exists w',
    exec 3 (sendRaw [x01; x02] false) com7 = (Raised (MkError "Not connected"), w') /\
    ports w' = ports com7 /\
    writes (trace w') = writes (trace com7).
Proof.
  split; [split_and!; [vm_compute; reflexivity..|right; vm_compute; reflexivity]|].
  split_and!.
  - apply (proj1 (sendRaw_not_connected 3 [x01; x02]) com7). vm_compute; reflexivity.
  - apply (proj1 (proj2 (sendRaw_not_connected 3 [x01; x02])) com7_connected
             (set_mutex {| holder := Some 3; waiters := [4] |} com7));
      vm_compute; reflexivity.
  - apply (proj2 (proj2 (sendRaw_not_connected 3 [x01; x02])) com7 false);
      [vm_compute; reflexivity | right; vm_compute; reflexivity].
Defined.

Lemma find_task_app t l1 l2 :
  find_task t (l1 ++ l2) =
  match find_task t l1 with
  | Some p => Some p
  | None => find_task t l2
  end.
Proof.
  induction l1 as [|[t' p] l1 IH]; cbn; [done|]. by destruct (Nat.eqb t t').
Qed.

Lemma find_task_drop_eq t l : find_task t (drop_task t l) = None.
Proof.
  induction l as [|[t' p] l IH]; cbn; [done|].
  destruct (Nat.eqb t t') eqn:E; [done|]. cbn. by rewrite E.
Qed.

Lemma find_task_drop_ne t t' l :
  t <> t' -> find_task t' (drop_task t l) = find_task t' l.
Proof.
  intros Hne. induction l as [|[t0 p] l IH]; cbn; [done|].
  destruct (Nat.eqb t t0) eqn:E.
  - apply Nat.eqb_eq in E as <-. rewrite IH.
    by rewrite (proj2 (Nat.eqb_neq t' t)) by done.
  - cbn. by rewrite IH.
Qed.

Lemma find_task_park t p w s t' :
  find_task t' (tasks (park t p w s)) =
  if Nat.eqb t' t
  then match settled_result p with Some _ => None | None => Some p end
  else find_task t' (tasks s).
Proof.
  unfold park. destruct (Nat.eqb t' t) eqn:E.
  - apply Nat.eqb_eq in E as ->.
    destruct (settled_result p); cbn.
    + apply find_task_drop_eq.
    + rewrite find_task_app, find_task_drop_eq. cbn. by rewrite Nat.eqb_refl.
  - apply Nat.eqb_neq in E.
    destruct (settled_result p); cbn.
    + by apply find_task_drop_ne.
    + rewrite find_task_app, find_task_drop_ne by done. cbn.
      rewrite (proj2 (Nat.eqb_neq t' t)) by done. by destruct (find_task t' (tasks s)).
Qed.

Lemma world_park t p w s : world (park t p w s) = w.
Proof. unfold park. by destruct (settled_result p). Qed.

Lemma spawned_park t p w s : spawned (park t p w s) = spawned s.
Proof. unfold park. by destruct (settled_result p). Qed.

Lemma waiting_in_None q t : t ∉ map fst q -> waiting_in q t = None.
Proof.
  induction q as [|[t' d] q IH]; cbn; [done|]. intros Hn.
  rewrite not_elem_of_cons in Hn. destruct Hn as [Hne Hn].
  rewrite (proj2 (Nat.eqb_neq t t')) by done. by apply IH.
Qed.

Lemma waiting_in_Some q t p :
  waiting_in q t = Some p -> exists d, p = waiting d /\ t ∈ map fst q.
Proof.
  induction q as [|[t' d] q IH]; cbn; [done|].
  destruct (Nat.eqb t t') eqn:E.
  - apply Nat.eqb_eq in E as ->. intros [= <-]. exists d. split; [done|]. by left.
  - intros H. destruct (IH H) as (d' & -> & Hin). exists d'. split; [done|]. by right.
Qed.

Lemma waiting_in_snoc q t d t' :
  t ∉ map fst q ->
  waiting_in (q ++ [(t, d)]) t' =
  if Nat.eqb t' t then Some (waiting d) else waiting_in q t'.
Proof.
  induction q as [|[t0 d0] q IH]; cbn; [done|]. intros Hn.
  rewrite not_elem_of_cons in Hn. destruct Hn as [Hne Hn].
  destruct (Nat.eqb t' t0) eqn:E.
  - apply Nat.eqb_eq in E as ->. by rewrite (proj2 (Nat.eqb_neq t0 t)) by done.
  - by apply IH.
Qed.

Lemma stage_awake ms q t : stage ms q false t = waiting_in q t.
Proof. by destruct q as [|[t0 d0] q]. Qed.

Lemma gate_state_snoc tr ev : gate_state (tr ++ [ev]) = gate_step (gate_state tr) ev.
Proof. unfold gate_state. by rewrite fold_left_app. Qed.

Lemma gate_of_acquire q t d :
  MutexOps.acquire t (gate_of q) = gate_of (q ++ [(t, d)]).
Proof.
  destruct q as [|[t0 d0] q]; cbn; [done|].
  unfold MutexOps.acquire, MutexOps.dispatch. cbn. by rewrite map_app.
Qed.

Lemma gate_of_release t0 d0 q : MutexOps.release (gate_of ((t0, d0) :: q)) = gate_of q.
Proof. by destruct q as [|[t1 d1] q]. Qed.

Ltac wsimpl :=
  cbn [isOpen device portName connectResult packetIntervalMs debug heartbeat
       mutex ports env trace set_device set_portName set_isOpen
       set_connectResult set_heartbeat set_mutex set_ports set_port log].

Lemma fifo_boot w0 :
  WF w0 -> isOpen w0 = true -> device_open w0 = true ->
  exists h, FifoInv w0 h [] [] false (boot w0).
Proof.
  intros Hwf Hi Hdo. unfold device_open in Hdo.
  destruct (device w0) as [h|] eqn:Hd; [|done].
  destruct (ports w0 !! h) as [p|] eqn:Hp; [|done]. rename Hdo into Ho.
  exists h. split; cbn; try done.
  - eauto.
  - apply Hwf.
  - by left.
  - intros t _. split; [done|]. apply not_elem_of_nil.
  - constructor.
  - exists []. by rewrite app_nil_r.
Qed.

Lemma fifo_invoke w0 h sent q asleep s data :
  FifoInv w0 h sent q asleep s ->
  exists s',
    step (Invoke (CallSendRaw data false)) s = Some s' /\
    FifoInv w0 h sent (q ++ [(spawned s, data)]) asleep s'.
Proof.
  intros [Hi Hd Hp Hms Hm Ht Hf Hn Ha (new & Htr & Hw & Hg)].
  eexists. split; [cbn [step body]; rewrite advance_gated; reflexivity|].
  destruct (Hf (spawned s) (le_n _)) as [Hnone Hnotin].
  split; rewrite ?world_park, ?spawned_park; wsimpl; cbn [spawned]; try done.
  - rewrite Hm. by apply gate_of_acquire.
  - intros t. rewrite find_task_park. cbn [tasks settled_result waiting await bind call].
    destruct q as [|[t0 d0] q'].
    + assert (asleep = false) as -> by (destruct asleep; [by destruct Ha|done]).
      cbn. destruct (Nat.eqb t (spawned s)) eqn:E; [by left|].
      destruct (Ht t) as [H|[_ H]]; [left|right]; done.
    + cbn [app stage]. cbn in Hnotin. destruct (Nat.eqb t (spawned s)) eqn:E.
      * apply Nat.eqb_eq in E as ->. left.
        rewrite not_elem_of_cons in Hnotin. destruct Hnotin as [Hne Hnotin].
        rewrite (proj2 (Nat.eqb_neq (spawned s) t0)) by done.
        rewrite waiting_in_snoc, Nat.eqb_refl by done. done.
      * rewrite not_elem_of_cons in Hnotin. destruct Hnotin as [Hne Hnotin].
        specialize (Ht t). cbn [stage] in Ht.
        destruct (Nat.eqb t t0); [done|]. by rewrite waiting_in_snoc, E.
  - intros t Hle. rewrite find_task_park.
    rewrite (proj2 (Nat.eqb_neq t (spawned s))) by lia.
    destruct (Hf t ltac:(lia)) as [H1 H2]. split; [done|].
    rewrite map_app. cbn. rewrite not_elem_of_app, not_elem_of_cons. split_and!; [done|lia|].
    apply not_elem_of_nil.
  - rewrite map_app. cbn. apply NoDup_app. split_and!; [done| |apply NoDup_singleton].
    intros t Hin ->%list_elem_of_singleton. done.
  - intros _. by destruct q.
  - exists (new ++ [EvEnqueue (spawned s)]). rewrite Htr, app_assoc. split; [done|].
    rewrite writes_snoc, app_nil_r, gate_state_snoc, Hg. split; [done|].
    destruct asleep; [|done]. destruct q as [|[t0 d0] q']; [by destruct Ha|]. done.
Qed.

Lemma fifo_resume w0 h sent q asleep s t s' :
  FifoInv w0 h sent q asleep s ->
  step (Resume t) s = Some s' ->
  exists sent' q' asleep',
    FifoInv w0 h sent' q' asleep' s' /\
    sent' ++ map snd q' = sent ++ map snd q.
Proof.
  intros [Hi Hd (p0 & Hp0 & Ho0) Hms Hm Ht Hf Hn Ha (new & Htr & Hw & Hg)] Hstep.
  cbn [step] in Hstep.
  destruct (find_task t (tasks s)) as [p|] eqn:Hft; [|done].
  destruct (resume t p (world s)) as [[p' w']|] eqn:Hr; [|done].
  injection Hstep as <-.
  assert (Hlt : t < spawned s).
  { destruct (decide (t < spawned s)); [done|].
    destruct (Hf t ltac:(lia)) as [H _]. congruence. }
  destruct (Ht t) as [Hst|[Hnone Hy]].
  - rewrite Hft in Hst. symmetry in Hst.
    destruct q as [|[t0 d0] q']; [done|]. cbn [stage] in Hst.
    cbn [map fst] in Hn. apply NoDup_cons in Hn as [Hn0 Hn'].
    destruct (Nat.eqb t t0) eqn:E.
    + apply Nat.eqb_eq in E as ->. injection Hst as <-. destruct asleep.
      * rewrite (resume_sleeping _ _ _ _ h p0) in Hr by done. injection Hr as <- <-.
        exists (sent ++ [d0]), q', false. split; [|by rewrite <- app_assoc].
        split; rewrite ?world_park, ?spawned_park; wsimpl; try done.
        -- exists (with_written (written p0 ++ [d0]) p0). split; [|done].
           by rewrite list_lookup_insert_eq by (by eapply lookup_lt_Some).
        -- rewrite Hm. apply gate_of_release.
        -- intros t. rewrite find_task_park. cbn [settled_result yielding await bind call].
           rewrite stage_awake. destruct (Nat.eqb t t0) eqn:E.
           ++ apply Nat.eqb_eq in E as ->. right. split; [|done]. by apply waiting_in_None.
           ++ specialize (Ht t). cbn [stage] in Ht. by rewrite E in Ht.
        -- intros t Hle. destruct (Hf t Hle) as [H1 H2]. rewrite find_task_park.
           rewrite (proj2 (Nat.eqb_neq t t0)) by lia. split; [done|].
           cbn in H2. by apply not_elem_of_cons in H2 as [_ H2].
        -- exists (new ++ [EvSleep (packetIntervalMs w0); EvWrite h d0;
                          EvEmit (RawPacketSentEvent d0); EvRelease t0]).
           rewrite Htr, <- !app_assoc. split; [done|].
           change (new ++ [EvSleep (packetIntervalMs w0); EvWrite h d0;
                           EvEmit (RawPacketSentEvent d0); EvRelease t0])
             with (new ++ [EvSleep (packetIntervalMs w0)] ++ [EvWrite h d0] ++
                     [EvEmit (RawPacketSentEvent d0)] ++ [EvRelease t0]).
           rewrite !app_assoc, !writes_snoc, !gate_state_snoc, Hg, Hw. cbn.
           by rewrite Nat.eqb_refl, !app_nil_r.
      * rewrite resume_waiting in Hr by (rewrite ?Hm; done). injection Hr as <- <-.
        exists sent, ((t0, d0) :: q'), true. split; [|done].
        split; rewrite ?world_park, ?spawned_park; wsimpl; try done.
        -- eauto.
        -- intros t. rewrite find_task_park. rewrite Hms.
           cbn [settled_result sleeping await bind call try_finally attempt].
           cbn [stage]. destruct (Nat.eqb t t0) eqn:E; [by left|].
           specialize (Ht t). cbn [stage] in Ht. by rewrite E in Ht.
        -- intros t Hle. destruct (Hf t Hle) as [H1 H2]. rewrite find_task_park.
           by rewrite (proj2 (Nat.eqb_neq t t0)) by lia.
        -- by apply NoDup_cons.
        -- exists (new ++ [EvAcquire t0]). rewrite Htr, app_assoc. split; [done|].
           by rewrite writes_snoc, gate_state_snoc, Hg, app_nil_r.
    + apply waiting_in_Some in Hst as (d & -> & Hin).
      rewrite resume_waiting_blocked in Hr; [done|].
      rewrite Hm. cbn. intros [= ->]. by rewrite Nat.eqb_refl in E.
  - rewrite Hft in Hy. injection Hy as ->. rewrite resume_yielding in Hr.
    injection Hr as <- <-.
    exists sent, q, asleep. split; [|done].
    split; rewrite ?world_park, ?spawned_park; try done.
    + eauto.
    + intros t'. rewrite find_task_park. cbn [settled_result].
      destruct (Nat.eqb t' t) eqn:E; [|apply Ht].
      apply Nat.eqb_eq in E as ->. left. by rewrite Hnone.
    + intros t' Hle. destruct (Hf t' Hle) as [H1 H2]. rewrite find_task_park.
      by rewrite (proj2 (Nat.eqb_neq t' t)) by lia.
    + by exists new.
Qed.

Lemma fifo_run w0 h ls :
  forall sent q asleep s s',
    FifoInv w0 h sent q asleep s ->
    forallb gated ls = true ->
    run ls s = Some s' ->
    exists sent' q' asleep',
      FifoInv w0 h sent' q' asleep' s' /\
      sent' ++ map snd q' = sent ++ map snd q ++ issued ls.
Proof.
  induction ls as [|l ls IH]; intros sent q asleep s s' Hinv Hg Hrun.
  - injection Hrun as <-. exists sent, q, asleep. by rewrite app_nil_r.
  - cbn [forallb] in Hg. apply andb_prop in Hg as [Hl Hg]. cbn [run] in Hrun.
    destruct (step l s) as [s1|] eqn:Hstep; [|done].
    destruct l as [[| | |data [|]]|t| | |]; try done.
    + destruct (fifo_invoke _ _ _ _ _ _ data Hinv) as (s1' & Hs1 & Hinv1).
      rewrite Hstep in Hs1. injection Hs1 as <-.
      destruct (IH _ _ _ _ _ Hinv1 Hg Hrun) as (sent' & q' & a' & Hinv' & Heq).
      exists sent', q', a'. split; [done|].
      rewrite Heq, map_app, <- !app_assoc. done.
    + destruct (fifo_resume _ _ _ _ _ _ _ _ Hinv Hstep) as (sent1 & q1 & a1 & Hinv1 & Heq1).
      destruct (IH _ _ _ _ _ Hinv1 Hg Hrun) as (sent' & q' & a' & Hinv' & Heq).
      exists sent', q', a'. split; [done|].
      rewrite Heq, app_assoc, Heq1, <- app_assoc. done.
Qed.

Lemma fifo_progress w0 h sent q asleep s :
  FifoInv w0 h sent q asleep s ->
  tasks s <> [] -> exists t s', step (Resume t) s = Some s'.
Proof.
  intros [Hi Hd (p0 & Hp0 & Ho0) Hms Hm Ht Hf Hn Ha _] Hne.
  destruct q as [|[t0 d0] q'].
  - assert (exists t p, find_task t (tasks s) = Some p) as (t & p & Hft).
    { destruct (tasks s) as [|[t p] l]; [done|]. exists t, p. cbn. by rewrite Nat.eqb_refl. }
    destruct (Ht t) as [H|[_ H]]; rewrite Hft in H; [done|]. injection H as ->.
    exists t. eexists. cbn [step]. rewrite Hft, resume_yielding. done.
  - exists t0. specialize (Ht t0). cbn [stage] in Ht. rewrite Nat.eqb_refl in Ht.
    destruct Ht as [Hft|[? _]]; [|done].
    destruct asleep; eexists; cbn [step]; rewrite Hft.
    + rewrite (resume_sleeping _ _ _ _ h p0) by done. done.
    + rewrite resume_waiting by (rewrite ?Hm; done). done.
Qed.

Lemma fifo_drained w0 h sent q asleep s :
  FifoInv w0 h sent q asleep s -> tasks s = [] -> q = [].
Proof.
  intros Hinv Hts. destruct q as [|[t0 d0] q']; [done|].
  destruct (fi_tasks _ _ _ _ _ _ Hinv t0) as [H|[H _]];
    cbn [stage] in H; rewrite Nat.eqb_refl in H; [|done].
  rewrite Hts in H. by destruct asleep.
Qed.

(** C1: on a connected session (the flag is up and the port of the
    device is open), however the event loop interleaves a
    sequence of gated sends, what the port has been asked to write is
    at every moment a prefix of the payloads in the order of the calls;
    every write happens inside the gate and no call enters the gate
    while another is inside; when no call is left in flight everything
    has been written, and as long as one is left some call can go
    on. *)
Theorem gated_sends_fifo e i d acts ls s :
  isOpen (session e i d acts) = true ->
  device_open (session e i d acts) = true ->
  forallb gated ls = true ->
  run ls (boot (session e i d acts)) = Some s ->
  exists new pending,
    trace (world s) = trace (session e i d acts) ++ new /\
    writes new ++ pending = issued ls /\
    exclusive new = true /\
    (tasks s = [] -> pending = []) /\
    (tasks s <> [] -> exists t s', step (Resume t) s = Some s').
Proof.
  intros Hi Hdo Hg Hrun.
  destruct (fifo_boot _ (WF_session e i d acts) Hi Hdo) as [h Hinv].
  destruct (fifo_run _ _ _ _ _ _ _ _ Hinv Hg Hrun) as (sent & q & a & Hinv' & Heq).
  destruct (fi_trace _ _ _ _ _ _ Hinv') as (new & Htr & Hw & Hgs).
  exists new, (map snd q). split_and!.
  - done.
  - by rewrite Hw, Heq.
  - unfold exclusive. by rewrite Hgs.
  - intros Hts. by rewrite (fifo_drained _ _ _ _ _ _ Hinv' Hts).
  - by eapply fifo_progress.
Qed.

Lemma gated_sends_fifo_witness :
  (isOpen (session quiet 10 false [DoSetPort "COM7"; DoConnect]) = true /\
   device_open (session quiet 10 false [DoSetPort "COM7"; DoConnect]) = true /\
   forallb gated three_sends = true /\
   run three_sends (boot (session quiet 10 false [DoSetPort "COM7"; DoConnect])) =
     Some three_sends_end) /\
  exists new pending,
    trace (world three_sends_end) =
      trace (session quiet 10 false [DoSetPort "COM7"; DoConnect]) ++ new /\
    writes new ++ pending = issued three_sends /\
    exclusive new = true /\
    (tasks three_sends_end = [] -> pending = []) /\
    (tasks three_sends_end <> [] ->
     exists t s', step (Resume t) three_sends_end = Some s').
Proof.
  split; [split_and!; vm_compute; reflexivity|].
  apply (gated_sends_fifo quiet 10 false [DoSetPort "COM7"; DoConnect] three_sends);
    vm_compute; reflexivity.
Defined.

(** The example run writes the three payloads in the order of the
    calls and leaves no call in flight. *)
Example three_sends_in_order :
  tasks three_sends_end = [] /\
  writes (trace (world three_sends_end)) = [[x01]; [x02]; [x03]].
Proof. vm_compute. done. Qed.

(** ** The scenarios of the specification *)

(** Endpoint "COM7" unreachable: [connect()] fails with the error of
    the open, and [isConnected()] stays false. *)
Example unreachable_endpoint :
  let w := session unreachable 10 false [DoSetPort "COM7"] in
  (exec 0 connect w).1 = Raised (MkError "TransportUnavailable") /\
  (exec 0 isConnected (exec 0 connect w).2).1 = Returned false /\
  live_handles (exec 0 connect w).2 = [].
Proof. vm_compute. done. Qed.

(** No endpoint configured: [connect()] fails with "Port not set". *)
Example endpoint_not_set :
  (exec 0 connect (fresh quiet 10 false)).1 = Raised (MkError "Port not set").
Proof. vm_compute. done. Qed.

(** Cable removed in the middle of a session: once the close
    notification of the port has arrived there is one disconnect event,
    and the next send fails with "Not connected"; a send made before it
    arrives passes the check and fails at the write. *)
Example cable_removed :
  let w0 := session quiet 10 false [DoSetPort "COM7"; DoConnect; DoUnplug 0] in
  let w := session quiet 10 false [DoSetPort "COM7"; DoConnect; DoUnplug 0; DoClosed 0] in
  (exec 0 (sendRaw [x01] false) w0).1 = Raised (MkError "Port is not open") /\
  List.filter is_disconnect (trace w) = [EvEmit DisconnectEvent] /\
  (exec 0 (sendRaw [x01] false) w).1 = Raised (MkError "Not connected") /\
  (exec 0 (sendRaw [x01] true) w).1 = Raised (MkError "Not connected").
Proof. vm_compute. done. Qed.

(** A drain that meets a read error after two chunks: the two chunks
    reach the decoder in order, the error is swallowed, and what came
    after it stays in the buffer. *)
Example drain_with_read_error :
  let w := port_arrive 0 [Chunk [x01]; Chunk [x02]; ReadFault (MkError "EIO"); Chunk [x03]]
             com7_connected in
  (exec 0 (dataReady 5) w).1 = Returned tt /\
  decoded (trace (exec 0 (dataReady 5) w).2) = [[x01]; [x02]] /\
  buffered (exec 0 (dataReady 5) w).2 = [Chunk [x03]] /\
  isOpen (exec 0 (dataReady 5) w).2 = true.
Proof. vm_compute. done. Qed.

(** [disconnect()], then the notification: the port is closed when
    [disconnect()] returns, and [isConnected()] turns false, with the
    disconnect event, when the close notification arrives. *)
Example disconnect_then_notification :
  let w0 := session quiet 10 false [DoSetPort "COM7"; DoConnect; DoDisconnect] in
  let w := session quiet 10 false [DoSetPort "COM7"; DoConnect; DoDisconnect; DoClosed 0] in
  live_handles w0 = [] /\ isOpen w0 = true /\ emitted_disconnects w0 = 0 /\
  live_handles w = [] /\ isOpen w = false /\ emitted_disconnects w = 1 /\
  (exec 0 (sendRaw [x01] false) w0).1 = Raised (MkError "Port is not open").
Proof. vm_compute. done. Qed.

(** A second [connect()] on a connected session, then the close
    notification of the first port: the new port is open, and the late
    notification lowers the flag of the new connection. *)
Example reconnect_then_notification :
  let w := session quiet 10 false [DoSetPort "COM7"; DoConnect; DoConnect; DoClosed 0] in
  live_handles w = [1] /\ device w = Some 1 /\
  (exec 0 isConnected w).1 = Returned false /\
  (exec 0 (sendRaw [x01] false) w).1 = Raised (MkError "Not connected").
Proof. vm_compute. done. Qed.

(** * Further properties of the sources *)

(** ** [scan] *)

(** X1: [scan] answers with one item per port, in the order of the
    platform's list, each with the port's path as address; the name is
    the friendly name when the platform gives one, else the plug-and-play
    id, else "unknown". *)
Theorem scan_items (ports : list Scan.PortInfo) :
  length (Scan.scan ports) = length ports /\
  map Scan.address (Scan.scan ports) = map Scan.path ports /\
  forall i p, ports !! i = Some p ->
    exists item,
      Scan.scan ports !! i = Some item /\
      (forall f, Scan.friendlyName p = Some f -> Scan.name item = f) /\
      (forall id, Scan.friendlyName p = None -> Scan.pnpId p = Some id ->
         Scan.name item = id) /\
      (Scan.friendlyName p = None -> Scan.pnpId p = None ->
         Scan.name item = "unknown"%string).
Proof.
  split_and!.
  - apply length_map.
  - unfold Scan.scan. by rewrite map_map.
  - intros i p Hp. eexists. split.
    + unfold Scan.scan. apply (list_lookup_fmap_Some_2 _ _ _ _ Hp).
    + cbn. split_and!.
      * by intros f ->.
      * by intros id -> ->.
      * by intros -> ->.
Qed.

(** ** [connect] *)

Lemma exec_isConnected self w : exec self isConnected w = (Returned (isOpen w), w).
Proof. done. Qed.

Lemma handshake_length w : length (ports (handshake w).2) = length (ports w).
Proof.
  assert (forall w, length (ports (device_lost w)) = length (ports w)) as Hdl.
  { intros w0. unfold device_lost. case_match; [apply port_close_length|done]. }
  unfold handshake, negotiate, fetch_info.
  repeat (case_match; simplify_eq; cbn; rewrite ?Hdl; cbn); done.
Qed.

Lemma connect_raised_inv self w err w' :
  WF w -> exec self connect w = (Raised err, w') ->
  WF w' /\ all_closed w' /\
  (length (ports w') = length (ports w) /\ isOpen w' = isOpen w \/
   length (ports w') = S (length (ports w)) /\ isOpen w' = false).
Proof.
  intros Hwf. rewrite exec_connect.
  destruct (WF_torn_down w Hwf) as (Hwf1 & Hall).
  assert (length (ports (torn_down w)) = length (ports w) /\
          isOpen (torn_down w) = isOpen w) as Hsame
    by (split; [apply torn_down_length|apply torn_down_isOpen]).
  destruct (portName w) as [[|c name]|];
    [intros [= <- <-]; split_and!; [done..|by left]|
    |intros [= <- <-]; split_and!; [done..|by left]].
  destruct (serial_open _ _) as [r w2] eqn:Hso.
  apply serial_open_inv in Hso as [(e & -> & ->)|[-> ->]].
  - intros [= <- <-]. split_and!; [by apply WF_log|done|by left].
  - rewrite installed_fresh.
    pose proof (WF_installed (String c name) _ Hwf1 Hall) as Hwf3.
    pose proof (WF_handshake _ Hwf3) as Hwf4.
    pose proof (handshake_length
      (set_device (Some (length (ports (torn_down w))))
         (set_isOpen true
            (log (EvOpen (length (ports (torn_down w))) (String c name))
               (set_ports (ports (torn_down w) ++ [ready_port (String c name)])
                  (torn_down w)))))) as Hlen.
    destruct (handshake _) as [[e|] w3]; [|done].
    intros [= <- <-]. cbn in Hwf4, Hlen.
    destruct (WF_torn_down _ (WF_set_isOpen_false _ Hwf4)) as [Hwf5 Hall5].
    split_and!; [done..|]. right.
    rewrite torn_down_length, torn_down_isOpen. cbn. rewrite Hlen, length_app.
    cbn. destruct Hsame as [-> _]. split; [lia|done].
Qed.

Lemma exec_connect_total self w :
  (exists info w', exec self connect w = (Returned info, w')) \/
  (exists e w', exec self connect w = (Raised e, w')).
Proof.
  rewrite exec_connect. repeat case_match; eauto.
Qed.

(** A [connect] that fails on a client that was not connected leaves it
    not connected. *)
Lemma connect_raised_first self w err w' :
  WF w -> isOpen w = false -> exec self connect w = (Raised err, w') ->
  WF w' /\ all_closed w' /\ isOpen w' = false.
Proof.
  intros Hwf Hi Hc.
  apply connect_raised_inv in Hc as (Hwf' & Hall & [[_ Hi']|[_ Hi']]); [|done|done].
  all: split_and!; [done..|congruence].
Qed.

(** X2: with no port name set, or with the empty name, [connect] does
    what [disconnect] does and then fails with "Port not set": the port
    of the current connection is closed although no new one is tried.
    No port is opened, and [isConnected()] goes on answering what it
    answered before the call. *)
Theorem connect_port_not_set self w :
  portName w = None \/ portName w = Some EmptyString ->
  exec self connect w =
    (Raised (MkError "Port not set"), (exec self disconnect w).2) /\
  length (ports (exec self connect w).2) = length (ports w) /\
  (exec self isConnected (exec self connect w).2).1 = (exec self isConnected w).1 /\
  (WF w -> live_handles (exec self connect w).2 = []).
Proof.
  intros Hn. rewrite exec_connect, exec_disconnect.
  assert (match portName w with
          | None | Some EmptyString => True | _ => False end) as Hp
    by (by destruct Hn as [-> | ->]).
  destruct (portName w) as [[|c name]|]; try done; cbn.
  all: split_and!; [done|apply torn_down_length|by rewrite torn_down_isOpen|].
  all: intros Hwf; destruct (WF_torn_down w Hwf) as (_ & Hall).
  all: by apply all_closed_live.
Qed.

Lemma connect_port_not_set_witness :
  let w := session quiet 10 false [DoSetPort "COM7"; DoConnect; DoSetPort EmptyString] in
  (isOpen w = true /\ live_handles w = [0] /\
   (portName w = None \/ portName w = Some EmptyString)) /\
  exec 0 connect w = (Raised (MkError "Port not set"), (exec 0 disconnect w).2) /\
  length (ports (exec 0 connect w).2) = length (ports w) /\
  (exec 0 isConnected (exec 0 connect w).2).1 = (exec 0 isConnected w).1 /\
  (WF w -> live_handles (exec 0 connect w).2 = []).
Proof.
  intros w. split.
  - split_and!; [vm_compute; reflexivity..|right; vm_compute; reflexivity].
  - apply (connect_port_not_set 0 w). right. vm_compute. reflexivity.
Defined.

(** X3: whatever makes [connect] fail in a session (no port name, a
    port that does not open, a handshake that fails), afterwards no
    port is open.  When the call opened no port, [isConnected()] answers
    what it answered before the call; when it opened one and the
    handshake failed, [isConnected()] answers false. *)
Theorem connect_failure_disconnected e i d acts self err w' :
  exec self connect (session e i d acts) = (Raised err, w') ->
  live_handles w' = [] /\
  (length (ports w') = length (ports (session e i d acts)) /\
   (exec self isConnected w').1 = (exec self isConnected (session e i d acts)).1 \/
   length (ports w') = S (length (ports (session e i d acts))) /\
   (exec self isConnected w').1 = Returned false).
Proof.
  intros Hc. apply connect_raised_inv in Hc as (Hwf & Hall & Hcase);
    [|apply WF_session].
  rewrite !exec_isConnected. cbn [fst]. split; [by apply all_closed_live|].
  destruct Hcase as [[-> ->]|[-> ->]]; [by left|by right].
Qed.

Lemma connect_failure_disconnected_witness :
  let acts := [DoSetPort "COM7"; DoConnect; DoDisconnect] in
  exec 0 connect (session mute 10 false acts) =
    (Raised (MkError "timeout"), (exec 0 connect (session mute 10 false acts)).2) /\
  live_handles (exec 0 connect (session mute 10 false acts)).2 = [] /\
  (length (ports (exec 0 connect (session mute 10 false acts)).2) =
     length (ports (session mute 10 false acts)) /\
   (exec 0 isConnected (exec 0 connect (session mute 10 false acts)).2).1 =
     (exec 0 isConnected (session mute 10 false acts)).1 \/
   length (ports (exec 0 connect (session mute 10 false acts)).2) =
     S (length (ports (session mute 10 false acts))) /\
   (exec 0 isConnected (exec 0 connect (session mute 10 false acts)).2).1 =
     Returned false).
Proof.
  intros acts.
  assert (exec 0 connect (session mute 10 false acts) =
          (Raised (MkError "timeout"),
           (exec 0 connect (session mute 10 false acts)).2)) as H
    by (vm_compute; reflexivity).
  split; [exact H|].
  exact (connect_failure_disconnected mute 10 false acts 0 _ _ H).
Defined.



Lemma torn_down_device w : device (torn_down w) = device w.
Proof. unfold torn_down. by rewrite device_lost_device. Qed.

(** ** [sendRaw] *)

Lemma release_sole self :
  MutexOps.release {| holder := Some self; waiters := [] |} = MutexOps.idle.
Proof. done. Qed.

(** X6: a gated [sendRaw] that finds the gate free always gives it
    back: whether the send succeeds or fails, the call ends (it is
    never left waiting), the gate is free again afterwards, and the
    release is the last thing that happens. *)
Theorem gated_send_releases self data w :
  mutex w = MutexOps.idle ->
  exists r w',
    exec self (sendRaw data false) w = (r, w') /\
    (r = Returned tt \/ exists e, r = Raised e) /\
    mutex w' = MutexOps.idle /\
    last (trace w') = Some (EvRelease self).
Proof.
  intros Hm. rewrite exec_sendRaw_gated. cbn. rewrite Hm. cbn.
  rewrite bool_decide_eq_true_2 by done.
  destruct (send_outcome _ _) as [r w'] eqn:Hs.
  pose proof Hs as Hr.
  apply send_outcome_inv in Hs as (Hm' & _ & _ & _).
  eexists _, _. split; [done|]. cbn. rewrite Hm'. cbn.
  split_and!; [|done|by rewrite last_snoc].
  revert Hr. unfold send_outcome. repeat case_match; intros [= <- <-]; eauto.
Qed.

Lemma gated_send_releases_witness :
  mutex com7_connected = MutexOps.idle /\
  exists r w',
    exec 3 (sendRaw [x01; x02] false) com7_connected = (r, w') /\
    (r = Returned tt \/ exists e, r = Raised e) /\
    mutex w' = MutexOps.idle /\
    last (trace w') = Some (EvRelease 3).
Proof.
  split; [vm_compute; reflexivity|].
  apply (gated_send_releases 3 [x01; x02] com7_connected).
  vm_compute; reflexivity.
Defined.

Lemma send_outcome_connected data w h p :
  isOpen w = true -> device w = Some h -> ports w !! h = Some p -> opened p = true ->
  send_outcome data w =
    (Returned tt,
     log (EvEmit (RawPacketSentEvent data))
       (log (EvWrite h data)
          (set_port h (with_written (written p ++ [data]) p)
             (log (EvSleep (packetIntervalMs w)) w)))).
Proof.
  intros Hi Hd Hp Ho. unfold send_outcome. rewrite Hi. cbn. rewrite Hd.
  destruct (port_write _ _ _) as [r w2] eqn:Hw.
  apply port_write_inv in Hw. cbn in Hw. rewrite Hp, Ho in Hw.
  by destruct Hw as [-> ->].
Qed.

Lemma send_outcome_flag data w :
  (send_outcome data w).1 = Raised (MkError "Not connected") <-> isOpen w = false.
Proof.
  unfold send_outcome. destruct (isOpen w); [|done]. cbn.
  split; [|done]. destruct (device w) as [h|]; [|done].
  destruct (port_write _ _ _) as [r w2] eqn:Hw. apply port_write_inv in Hw.
  cbn in Hw. destruct (ports w !! h) as [p|]; [destruct (opened p)|];
    destruct Hw as [-> _]; done.
Qed.

Lemma device_open_inv w :
  device_open w = true ->
  exists h p, device w = Some h /\ ports w !! h = Some p /\ opened p = true.
Proof.
  unfold device_open. destruct (device w) as [h|]; [|done].
  destruct (ports w !! h) as [p|] eqn:Hp; [|done]. eauto.
Qed.

(** X7: in a session used by one caller at a time, [sendRaw] fails
    with "Not connected" exactly when [isConnected()] answers false,
    with or without [force].  When [isConnected()] answers true and the
    port of the device is open, [sendRaw] succeeds, the payload has
    been appended, once, to what that port was given, and one
    [rawpacketsent] event carries it. *)
Theorem sendRaw_by_flag e i d acts self data force :
  let w := session e i d acts in
  let r := exec self (sendRaw data force) w in
  (r.1 = Raised (MkError "Not connected") <->
   (exec self isConnected w).1 = Returned false) /\
  ((exec self isConnected w).1 = Returned true -> device_open w = true ->
   r.1 = Returned tt /\
   exists h p,
     device w = Some h /\ ports w !! h = Some p /\
     ports r.2 = <[h := with_written (written p ++ [data]) p]> (ports w) /\
     writes (trace r.2) = writes (trace w) ++ [data] /\
     emitted (trace r.2) = emitted (trace w) ++ [RawPacketSentEvent data]).
Proof.
  intros w r. pose proof (WF_session e i d acts) as Hwf. fold w in Hwf.
  rewrite exec_isConnected. cbn [fst]. split.
  - assert (isOpen w = false <-> Returned (isOpen w) = Returned false) as <-
      by (split; [by intros ->|by intros [= ->]]).
    subst r. destruct force.
    + rewrite exec_sendRaw_forced. apply send_outcome_flag.
    + rewrite exec_sendRaw_gated. cbn. rewrite (wf_mutex _ Hwf). cbn.
      rewrite bool_decide_eq_true_2 by done.
      pose proof (send_outcome_flag data
        (log (EvAcquire self)
           (set_mutex {| holder := Some self; waiters := [] |}
              (log (EvEnqueue self) w)))) as H.
      destruct (send_outcome _ _) as [r0 w2]. exact H.
  - intros [= Hi] (h & p & Hd & Hp & Ho)%device_open_inv.
    subst r. destruct force.
    + rewrite exec_sendRaw_forced.
      rewrite (send_outcome_connected data w h p) by done.
      split; [done|]. exists h, p. cbn. split_and!; try done.
      * unfold writes. rewrite <- !app_assoc, omap_app. cbn. done.
      * unfold emitted. rewrite <- !app_assoc, omap_app. cbn. done.
    + rewrite exec_sendRaw_gated. cbn. rewrite (wf_mutex _ Hwf). cbn.
      rewrite bool_decide_eq_true_2 by done.
      erewrite (send_outcome_connected data _ h p); [|done..].
      split; [done|]. exists h, p. cbn. split_and!; try done.
      * unfold writes. rewrite <- !app_assoc, omap_app. cbn. done.
      * unfold emitted. rewrite <- !app_assoc, omap_app. cbn. done.
Qed.

Lemma sendRaw_by_flag_witness :
  let acts := [DoSetPort "COM7"; DoConnect; DoSendRaw [x01] false] in
  let w := session quiet 10 false acts in
  let r := exec 0 (sendRaw [x02; x03] false) w in
  ((exec 0 isConnected w).1 = Returned true /\ device_open w = true) /\
  r.1 = Returned tt /\
  exists h p,
    device w = Some h /\ ports w !! h = Some p /\
    ports r.2 = <[h := with_written (written p ++ [[x02; x03]]) p]> (ports w) /\
    writes (trace r.2) = writes (trace w) ++ [[x02; x03]] /\
    emitted (trace r.2) = emitted (trace w) ++ [RawPacketSentEvent [x02; x03]].
Proof.
  intros acts w r. split; [split; vm_compute; reflexivity|].
  apply (proj2 (sendRaw_by_flag quiet 10 false acts 0 [x02; x03] false));
    vm_compute; reflexivity.
Defined.

(** ** [dataReady] *)

(** What one turn of the loop leaves alone, and what it prints. *)
Lemma drain_once_quiet w again w' :
  drain_once w = (again, w') ->
  writes (trace w') = writes (trace w) /\
  emitted (trace w') = emitted (trace w) /\
  mutex w' = mutex w /\ debug w' = debug w /\
  (forall h, written <$> ports w' !! h = written <$> ports w !! h) /\
  (forall h, opened <$> ports w' !! h = opened <$> ports w !! h) /\
  exists cs,
    decoded (trace w') = decoded (trace w) ++ cs /\
    consoled (trace w') = consoled (trace w) ++ (if debug w then cs else []).
Proof.
  unfold drain_once. destruct (device w) as [h|].
  2:{ intros [= <- <-]. split_and!; try done. exists [].
      destruct (debug w); by rewrite !app_nil_r. }
  destruct (port_read h w) as [r w1] eqn:Hr. apply port_read_inv in Hr.
  assert (trace w1 = trace w /\ mutex w1 = mutex w /\ debug w1 = debug w /\
          env w1 = env w /\
          (forall h', written <$> ports w1 !! h' = written <$> ports w !! h') /\
          (forall h', opened <$> ports w1 !! h' = opened <$> ports w !! h'))
    as (Ht & Hm & Hdbg & He & Hw & Ho).
  { destruct (ports w !! h) as [p|] eqn:Hp; [|by destruct Hr as [_ ->]].
    assert (forall q, let w2 := set_port h (with_incoming q p) w in
      trace w2 = trace w /\ mutex w2 = mutex w /\ debug w2 = debug w /\
      env w2 = env w /\
      (forall h', written <$> ports w2 !! h' = written <$> ports w !! h') /\
      (forall h', opened <$> ports w2 !! h' = opened <$> ports w !! h')) as Hset.
    { intros q. cbn. split_and!; try done.
      all: intros h'; destruct (decide (h = h')) as [<-|Hne].
      all: try (rewrite list_lookup_insert_eq by (by eapply lookup_lt_Some);
                by rewrite Hp).
      all: by rewrite list_lookup_insert_ne. }
    destruct (incoming p) as [|[c|e] q]; destruct Hr as [_ ->];
      [done|apply Hset..]. }
  destruct r as [e|[chunk|]]; intros [= <- <-].
  - rewrite Ht. split_and!; try done. exists [].
    destruct (debug w); by rewrite !app_nil_r.
  - rewrite Hdbg. destruct (debug w); cbn; rewrite Ht.
    + split_and!; try done.
      * unfold writes. rewrite <- !app_assoc, omap_app. cbn. by rewrite app_nil_r.
      * unfold emitted. rewrite <- !app_assoc, omap_app. cbn. by rewrite app_nil_r.
      * exists [chunk]. unfold decoded, consoled.
        rewrite <- !app_assoc, !omap_app. cbn. done.
    + split_and!; try done.
      * unfold writes. rewrite omap_app. cbn. by rewrite app_nil_r.
      * unfold emitted. rewrite omap_app. cbn. by rewrite app_nil_r.
      * exists [chunk]. unfold decoded, consoled.
        rewrite !omap_app. cbn. by rewrite app_nil_r.
  - rewrite Ht. split_and!; try done. exists [].
    destruct (debug w); by rewrite !app_nil_r.
Qed.

(** X8: apart from handing what it reads to the packet decoder,
    [dataReady] does nothing to the connection.  However long it runs
    and whatever the port or the decoder answer, it asks no port to
    write, leaves the gate of [sendRaw], the connection flag and the
    stored device as they were, and opens or closes no port. *)
Theorem dataReady_only_reads self fuel w :
  let w' := (exec self (dataReady fuel) w).2 in
  writes (trace w') = writes (trace w) /\
  mutex w' = mutex w /\ isOpen w' = isOpen w /\ device w' = device w /\
  (forall h, written <$> ports w' !! h = written <$> ports w !! h) /\
  (forall h, opened <$> ports w' !! h = opened <$> ports w !! h).
Proof.
  cbn zeta. revert w. induction fuel as [|fuel IH]; intros w; [done|].
  rewrite exec_dataReady_S.
  destruct (drain_once w) as [again w1] eqn:Hd.
  pose proof Hd as Hq.
  apply drain_once_inv in Hd as [(Hi & Hdev & _) _].
  apply drain_once_quiet in Hq as (Hw & _ & Hm & _ & Hwr & Hop & _).
  destruct again.
  - destruct (IH w1) as (-> & -> & -> & -> & Hwr' & Hop').
    split_and!; try done.
    + intros h. by rewrite Hwr'.
    + intros h. by rewrite Hop'.
  - done.
Qed.

(** X9: [dataReady] hands every chunk it reads to the decoder, and
    prints exactly those chunks, in the same order, when the client was
    made with [debug] on, and prints nothing when it was not. *)
Theorem dataReady_console self fuel w :
  let w' := (exec self (dataReady fuel) w).2 in
  exists cs,
    decoded (trace w') = decoded (trace w) ++ cs /\
    consoled (trace w') = consoled (trace w) ++ (if debug w then cs else []).
Proof.
  cbn zeta. revert w. induction fuel as [|fuel IH]; intros w.
  { exists []. destruct (debug w); by rewrite !app_nil_r. }
  rewrite exec_dataReady_S.
  destruct (drain_once w) as [again w1] eqn:Hd.
  apply drain_once_quiet in Hd as (_ & _ & _ & Hdbg & _ & _ & cs & Hdec & Hcon).
  destruct again; [|by exists cs].
  destruct (IH w1) as (cs' & Hdec' & Hcon').
  exists (cs ++ cs'). rewrite Hdec', Hcon', Hdec, Hcon, Hdbg.
  rewrite <- !app_assoc. by destruct (debug w).
Qed.

(** ** The connection flag and the ports *)

Lemma all_closed_ext w w' :
  (forall h, opened <$> ports w' !! h = opened <$> ports w !! h) ->
  all_closed w -> all_closed w'.
Proof.
  intros Hop Hall h p Hp. specialize (Hop h). rewrite Hp in Hop. cbn in Hop.
  destruct (ports w !! h) as [p0|] eqn:Hp0; [|done].
  cbn in Hop. injection Hop as ->. by eapply Hall.
Qed.

Lemma set_port_opened h p p' w h' :
  ports w !! h = Some p -> opened p' = opened p ->
  opened <$> ports (set_port h p' w) !! h' = opened <$> ports w !! h'.
Proof.
  intros Hp Ho. cbn. destruct (decide (h = h')) as [<-|Hne].
  - rewrite list_lookup_insert_eq by (by eapply lookup_lt_Some).
    rewrite Hp. cbn. by rewrite Ho.
  - by rewrite list_lookup_insert_ne.
Qed.

Lemma send_outcome_opened data w h' :
  opened <$> ports (send_outcome data w).2 !! h' = opened <$> ports w !! h'.
Proof.
  unfold send_outcome. destruct (isOpen w); [|done]. cbn.
  destruct (device w) as [h|]; [|done].
  destruct (port_write _ _ _) as [r w2] eqn:Hw. apply port_write_inv in Hw.
  cbn in Hw. destruct (ports w !! h) as [p|] eqn:Hp.
  - destruct (opened p) eqn:Ho; destruct Hw as [-> ->]; [|done].
    by apply (set_port_opened h p _ (log _ w)).
  - by destruct Hw as [-> ->].
Qed.

Lemma sendRaw_opened self data force w h' :
  opened <$> ports (exec self (sendRaw data force) w).2 !! h' = opened <$> ports w !! h' /\
  isOpen (exec self (sendRaw data force) w).2 = isOpen w.
Proof.
  destruct force.
  - rewrite exec_sendRaw_forced. split; [apply send_outcome_opened|].
    destruct (send_outcome data w) as [r w'] eqn:Hs.
    by apply send_outcome_inv in Hs as (_ & ? & _).
  - rewrite exec_sendRaw_gated. cbn. case_bool_decide; [|done].
    set (w1 := log _ _).
    pose proof (send_outcome_opened data w1 h') as Hop.
    destruct (send_outcome data w1) as [r w'] eqn:Hs.
    apply send_outcome_inv in Hs as (_ & ? & _). done.
Qed.

Lemma dataReady_opened self fuel w :
  isOpen (exec self (dataReady fuel) w).2 = isOpen w /\
  forall h, opened <$> ports (exec self (dataReady fuel) w).2 !! h = opened <$> ports w !! h.
Proof.
  revert w. induction fuel as [|fuel IH]; intros w; [done|].
  rewrite exec_dataReady_S.
  destruct (drain_once w) as [again w1] eqn:Hd.
  pose proof Hd as Hq.
  apply drain_once_inv in Hd as [(Hi & _) _].
  apply drain_once_quiet in Hq as (_ & _ & _ & _ & _ & Hop & _).
  destruct again; [|done].
  destruct (IH w1) as [-> Hop']. split; [done|]. intros h. by rewrite Hop'.
Qed.

Lemma length_by_lookup (l l' : list SerialPort) :
  (forall h, opened <$> l' !! h = opened <$> l !! h) -> length l' = length l.
Proof.
  intros H. apply Nat.le_antisymm.
  - destruct (decide (length l' <= length l)) as [|Hgt]; [done|].
    specialize (H (length l)).
    rewrite (lookup_ge_None_2 l (length l)) in H by done.
    destruct (lookup_lt_is_Some_2 l' (length l) ltac:(lia)) as [x Hx].
    by rewrite Hx in H.
  - destruct (decide (length l <= length l')) as [|Hgt]; [done|].
    specialize (H (length l')).
    rewrite (lookup_ge_None_2 l' (length l')) in H by done.
    destruct (lookup_lt_is_Some_2 l (length l') ltac:(lia)) as [x Hx].
    by rewrite Hx in H.
Qed.

Lemma port_readable_opened fuel h w :
  isOpen (port_readable fuel h w) = isOpen w /\
  forall h', opened <$> ports (port_readable fuel h w) !! h' = opened <$> ports w !! h'.
Proof.
  unfold port_readable. destruct (ports w !! h) as [p|]; [|done].
  induction (readableListeners p) as [|n [IHi IHo]]; [done|].
  rewrite Nat.iter_succ. unfold readableListener at 1 3.
  set (w1 := Nat.iter n _ w) in *.
  destruct (dataReady_opened 0 fuel w1) as (Hi' & Hop).
  split; [congruence|]. intros h'. by rewrite Hop.
Qed.

Lemma port_closed_length h w : length (ports (port_closed h w)) = length (ports w).
Proof.
  unfold port_closed. repeat case_match; try done.
  rewrite iter_close_ports. cbn. by rewrite length_insert.
Qed.

(** What is not a [connect] opens no port. *)
Lemma act_length a w :
  is_connect a = false -> length (ports (act a w)) = length (ports w).
Proof.
  intros Ha. destruct a; cbn [act]; try done.
  - rewrite exec_disconnect. apply torn_down_length.
  - apply length_by_lookup. intros h. apply sendRaw_opened.
  - apply port_close_length.
  - apply port_closed_length.
  - unfold port_arrive. repeat case_match; try done. cbn. by rewrite length_insert.
  - apply length_by_lookup. apply port_readable_opened.
Qed.

(** With one port at most, the flag is down only when it is closed. *)
Lemma Tight_act a w :
  WF w -> is_connect a = false -> length (ports w) <= 1 -> Tight w -> Tight (act a w).
Proof.
  intros Hwf Ha Hlen Ht. destruct a; cbn [act]; try done.
  - intros _. rewrite exec_disconnect. by apply WF_torn_down.
  - intros Hi. destruct (sendRaw_opened 0 data force w 0) as [_ Hi'].
    rewrite Hi' in Hi.
    apply (all_closed_ext w); [|by apply Ht].
    intros h. apply sendRaw_opened.
  - destruct (ports w !! h) as [p|] eqn:Hp; [destruct (opened p) eqn:Ho|].
    + intros _. destruct (wf_live _ Hwf _ _ Hp Ho) as [Hd _].
      replace (port_close h w) with (device_lost w)
        by (unfold device_lost; by rewrite Hd).
      by apply WF_device_lost.
    + by rewrite (port_close_closed h w p).
    + by rewrite port_close_missing.
  - destruct (ports w !! h) as [p|] eqn:Hp.
    2:{ by rewrite port_closed_missing. }
    destruct (notifying p) eqn:Hn.
    2:{ by rewrite (port_closed_settled h w p). }
    rewrite (WF_port_closed_owing _ _ _ Hwf Hp Hn). intros _ h' p' Hp'. cbn in Hp'.
    destruct (wf_owing _ Hwf _ _ Hp Hn) as [Ho _].
    assert (h' = h) as ->.
    { apply lookup_lt_Some in Hp, Hp'. rewrite length_insert in Hp'. lia. }
    rewrite list_lookup_insert_eq in Hp' by (by eapply lookup_lt_Some).
    by simplify_eq.
  - unfold port_arrive. destruct (ports w !! h) as [p|] eqn:Hp; [|done].
    destruct (opened p); [|done]. intros Hi.
    apply (all_closed_ext w); [|by apply Ht].
    intros h'. by apply (set_port_opened h p).
  - destruct (port_readable_opened fuel h w) as [Hi' Hop].
    intros Hi. rewrite Hi' in Hi. apply (all_closed_ext w); [done|by apply Ht].
Qed.

Lemma Tight_connect w :
  WF w -> ports w = [] ->
  length (ports (act DoConnect w)) <= 1 /\ Tight (act DoConnect w).
Proof.
  intros Hwf Hnil. cbn [act].
  destruct (exec_connect_total 0 w) as [(info & w' & Hc)|(e & w' & Hc)];
    rewrite Hc; cbn [snd].
  - apply connect_success in Hc as (name & r & _ & _ & ->). split; [|done].
    cbn. rewrite length_app, torn_down_length, Hnil. cbn. lia.
  - apply connect_raised_inv in Hc as (_ & Hall & Hcase); [|done].
    split; [|by intros _]. rewrite Hnil in Hcase. cbn in Hcase.
    destruct Hcase as [[-> _]|[-> _]]; lia.
Qed.

(** A session that has called [connect] once at most has one port at
    most, and its flag is down only when that port is closed. *)
Lemma Tight_actions acts :
  forall w, WF w ->
    (connects acts = 0 -> length (ports w) <= 1 -> Tight w ->
     length (ports (fold_left (fun w a => act a w) acts w)) <= 1 /\
     Tight (fold_left (fun w a => act a w) acts w)) /\
    (connects acts <= 1 -> ports w = [] ->
     length (ports (fold_left (fun w a => act a w) acts w)) <= 1 /\
     Tight (fold_left (fun w a => act a w) acts w)).
Proof.
  induction acts as [|a acts IH]; intros w Hwf.
  { split; [done|]. intros _ Hnil. cbn. split; [rewrite Hnil; cbn; lia|].
    intros _ h p Hp. by rewrite Hnil in Hp. }
  destruct (IH (act a w) (WF_act a w Hwf)) as [IH0 IH1].
  cbn [connects fold_left].
  destruct (is_connect a) eqn:Ha; cbn [Nat.add].
  - split; [done|]. intros Hc Hnil. destruct a; try done.
    destruct (Tight_connect w Hwf Hnil) as [Hlen Ht].
    apply IH0; [lia|done..].
  - split.
    + intros Hc Hlen Ht. apply IH0; [done| |by apply Tight_act].
      by rewrite act_length.
    + intros Hc Hnil. apply IH1; [done|].
      apply length_zero_iff_nil. rewrite act_length by done. by rewrite Hnil.
Qed.

Lemma Tight_session e i d acts :
  connects acts <= 1 -> Tight (session e i d acts).
Proof.
  intros Hc. by apply (Tight_actions acts (fresh e i d) (WF_fresh e i d)).
Qed.

Lemma live_from_nil i l j p :
  live_from i l = [] -> l !! j = Some p -> opened p = false.
Proof.
  revert i j. induction l as [|x l IH]; intros i [|j] Hl Hp; cbn in *; try done.
  - simplify_eq. by destruct (opened p).
  - apply app_eq_nil in Hl as [_ Hl]. by eapply IH.
Qed.

Lemma owing_none l h p : owing l = 0 -> l !! h = Some p -> notifying p = false.
Proof.
  revert h. induction l as [|x l IH]; intros h Ho Hp; [done|]. cbn in Ho.
  destruct h as [|h]; cbn in Hp.
  - simplify_eq. destruct (notifying p); [done|done].
  - apply (IH h); [|done]. destruct (notifying x); [done|]. exact Ho.
Qed.

(** X10: in a session used by one caller at a time, [isConnected()]
    answers true only when the stored device is a port that is open, or
    that has been closed and whose close notification has not arrived
    yet; so, with no notification outstanding, true means that the port
    of the device is open.  In a session that has called [connect] once
    at most, [isConnected()] answers false only when no port is
    open. *)
Theorem isConnected_tells_port_state e i d acts self :
  let w := session e i d acts in
  ((exec self isConnected w).1 = Returned true ->
   exists h p, device w = Some h /\ ports w !! h = Some p /\
               (opened p = true \/ notifying p = true)) /\
  ((exec self isConnected w).1 = Returned true -> owed w = 0 ->
   device_open w = true) /\
  ((exec self isConnected w).1 = Returned false -> connects acts <= 1 ->
   live_handles w = []).
Proof.
  intros w. rewrite exec_isConnected. cbn [fst].
  pose proof (WF_session e i d acts) as Hwf. fold w in Hwf.
  split_and!.
  - intros [= Hi]. by apply Hwf.
  - intros [= Hi] Ho. destruct (wf_isOpen _ Hwf Hi) as (h & p & Hd & Hp & Hop).
    unfold device_open. rewrite Hd, Hp.
    destruct Hop as [|Hn]; [done|]. by rewrite (owing_none _ _ _ Ho Hp) in Hn.
  - intros [= Hi] Hc. by apply all_closed_live, Tight_session.
Qed.

Lemma isConnected_tells_port_state_witness :
  let acts := [DoSetPort "COM7"; DoConnect; DoSendRaw [x01] false] in
  let gone := [DoSetPort "COM7"; DoConnect; DoUnplug 0; DoClosed 0] in
  ((exec 0 isConnected (session quiet 10 false acts)).1 = Returned true /\
   owed (session quiet 10 false acts) = 0 /\
   (exec 0 isConnected (session quiet 10 false gone)).1 = Returned false /\
   connects gone <= 1) /\
  (exists h p, device (session quiet 10 false acts) = Some h /\
               ports (session quiet 10 false acts) !! h = Some p /\
               (opened p = true \/ notifying p = true)) /\
  device_open (session quiet 10 false acts) = true /\
  live_handles (session quiet 10 false gone) = [].
Proof.
  intros acts gone.
  split; [split_and!; [vm_compute; reflexivity..|vm_compute; lia]|].
  split_and!.
  - apply (proj1 (isConnected_tells_port_state quiet 10 false acts 0)).
    vm_compute; reflexivity.
  - apply (proj1 (proj2 (isConnected_tells_port_state quiet 10 false acts 0)));
      vm_compute; reflexivity.
  - apply (proj2 (proj2 (isConnected_tells_port_state quiet 10 false gone 0)));
      [vm_compute; reflexivity|vm_compute; lia].
Defined.

(** ** [initClient] and its listeners *)

Lemma WF_actions acts w : WF w -> WF (fold_left (fun w a => act a w) acts w).
Proof.
  revert w. induction acts as [|a acts IH]; intros w Hwf; cbn; [done|].
  by apply IH, WF_act.
Qed.

Lemma initClient_serial pf transport address debug c :
  Utils.initClient pf transport address debug = inr c ->
  transport = "serial"%string /\
  Utils.world c =
    session (Utils.serial pf) (Utils.intervalMs pf) (Utils.clientDebug pf)
      [DoSetPort address].
Proof.
  unfold Utils.initClient.
  destruct (String.eqb transport "serial") eqn:Hs.
  - intros [= <-]. by apply String.eqb_eq in Hs.
  - by destruct (String.eqb transport "ble").
Qed.

Lemma initClient_refused pf transport address debug e :
  Utils.initClient pf transport address debug = inl e ->
  transport <> "serial"%string /\ exists e', e = PlainError e'.
Proof.
  unfold Utils.initClient.
  destruct (String.eqb transport "serial") eqn:Hs; [done|].
  apply String.eqb_neq in Hs.
  destruct (String.eqb transport "ble"); intros [= <-]; eauto.
Qed.

(** X11: [initClient] makes a client only for the transport "serial";
    "ble" and anything else are refused with their own message.  The
    client it makes has done nothing yet, and its first [connect] either
    fails leaving no port open (with "Port not set", and without trying
    any port, when the address is empty) or ends connected to a port
    opened on exactly the address given, which the connection info
    names. *)
Theorem initClient_then_connect pf transport address debug :
  match Utils.initClient pf transport address debug with
  | inl e =>
      transport <> "serial"%string /\
      e = PlainError (MkError (if String.eqb transport "ble"
                               then "Bluetooth not supported"
                               else "Invalid transport"))
  | inr c =>
      transport = "serial"%string /\
      trace (Utils.world c) = [] /\ ports (Utils.world c) = [] /\
      match exec 0 connect (Utils.world c) with
      | (Returned info, w) =>
          address <> EmptyString /\
          deviceName info = ("Serial (" ++ address ++ ")")%string /\
          isOpen w = true /\ live_handles w = [0] /\
          path <$> ports w !! 0 = Some address
      | (Raised e, w) =>
          isOpen w = false /\ live_handles w = [] /\
          (address = EmptyString -> e = MkError "Port not set" /\ ports w = [])
      | _ => False
      end
  end.
Proof.
  destruct (Utils.initClient _ _ _ _) as [e|c] eqn:Hi.
  - unfold Utils.initClient in Hi.
    destruct (String.eqb transport "serial") eqn:Hs; [done|].
    apply String.eqb_neq in Hs. split; [done|].
    by destruct (String.eqb transport "ble"); injection Hi as <-.
  - apply initClient_serial in Hi as [-> Hw]. rewrite Hw.
    split; [done|]. split; [done|]. split; [done|].
    set (w0 := session _ _ _ _).
    pose proof (WF_session (Utils.serial pf) (Utils.intervalMs pf)
                  (Utils.clientDebug pf) [DoSetPort address]) as Hwf.
    fold w0 in Hwf.
    destruct (exec_connect_total 0 w0) as [(info & w & Hc)|(e & w & Hc)]; rewrite Hc.
    + pose proof Hc as Hc'.
      apply connect_success in Hc as (name & r & Hn & -> & ->).
      injection Hn as <-.
      assert (address <> EmptyString) as Hne.
      { intros ->. rewrite exec_connect in Hc'. done. }
      split; [done|]. split; [done|]. split; [done|].
      split.
      * assert (live_handles (connected_world address r (torn_down w0)) = [0]) as Hl.
        { rewrite connected_world_live by (by apply WF_torn_down).
          by rewrite torn_down_length. }
        exact Hl.
      * cbn. rewrite list_lookup_middle by (by rewrite torn_down_length). done.
    + pose proof Hc as Hc'.
      apply connect_raised_first in Hc as (_ & Hall & Hi); [|done..].
      split; [done|]. split; [by apply all_closed_live|].
      intros ->. rewrite exec_connect in Hc'. by injection Hc' as <- <-.
Qed.

(** X12: the listener that [initClient] puts on [heartbeatfailed]
    leaves the client alone while fewer than five heartbeats in a row
    have failed, and calls [disconnect] from the fifth on: when it
    returns no port is open, and [isConnected()] answers what it
    answered before; it answers false once the close notification of a
    port has arrived. *)
Theorem heartbeatfailed_threshold e i d acts failedAttempts :
  let client := session e i d acts in
  let after := Utils.heartbeatfailed failedAttempts client in
  (failedAttempts < 5 ->
   after = ([Utils.WarnHeartbeatFailed failedAttempts 5], client)) /\
  (5 <= failedAttempts ->
   after.1 = [Utils.WarnHeartbeatFailed failedAttempts 5; Utils.Warn "Disconnecting"] /\
   after.2 = (exec 0 disconnect client).2 /\
   live_handles after.2 = [] /\
   (exec 0 isConnected after.2).1 = (exec 0 isConnected client).1 /\
   forall h p, ports after.2 !! h = Some p -> notifying p = true ->
     (exec 0 isConnected (port_closed h after.2)).1 = Returned false).
Proof.
  intros client after. subst after. unfold Utils.heartbeatfailed. split.
  - intros Hlt. by rewrite (proj2 (Nat.leb_gt 5 failedAttempts) Hlt).
  - intros Hle. rewrite (proj2 (Nat.leb_le 5 failedAttempts) Hle).
    rewrite exec_disconnect, !exec_isConnected. cbn [fst snd].
    destruct (WF_torn_down client (WF_session e i d acts)) as (Hwf & Hall).
    split_and!; [done..|by apply all_closed_live|by rewrite torn_down_isOpen|].
    intros h p Hp Hn. rewrite exec_isConnected. cbn [fst].
    by rewrite (WF_port_closed_owing _ _ _ Hwf Hp Hn).
Qed.

Lemma heartbeatfailed_threshold_witness :
  let after := Utils.heartbeatfailed 5 com7_connected in
  (4 < 5 /\ 5 <= 5 /\ isOpen com7_connected = true) /\
  Utils.heartbeatfailed 4 com7_connected =
    ([Utils.WarnHeartbeatFailed 4 5], com7_connected) /\
  after.1 = [Utils.WarnHeartbeatFailed 5 5; Utils.Warn "Disconnecting"] /\
  after.2 = (exec 0 disconnect com7_connected).2 /\
  live_handles after.2 = [] /\
  (exec 0 isConnected after.2).1 = (exec 0 isConnected com7_connected).1 /\
  (exec 0 isConnected (port_closed 0 after.2)).1 = Returned false.
Proof.
  intros after.
  split; [split_and!; [lia|lia|vm_compute; reflexivity]|].
  split.
  - apply (heartbeatfailed_threshold quiet 10 false [DoSetPort "COM7"; DoConnect] 4). lia.
  - destruct (proj2 (heartbeatfailed_threshold quiet 10 false
                       [DoSetPort "COM7"; DoConnect] 5) (le_n 5))
      as (H1 & H2 & H3 & H4 & H5).
    split_and!; [exact H1|exact H2|exact H3|exact H4|].
    refine (H5 0 (with_notifying true (with_opened false (ready_port "COM7"))) _ _);
      vm_compute; reflexivity.
Defined.

(** ** [printImage] *)

Lemma task_call_calls pr c t :
  (Utils.task_call pr c t).2.1 = t.1 ++ [c].
Proof. done. Qed.

Lemma attempted_calls pr steps :
  forall t failed t',
    Utils.attempted pr steps t = (failed, t') ->
    exists n, n <= length steps /\ t'.1 = t.1 ++ take n steps /\
              (failed = None -> n = length steps) /\
              (failed <> None -> 0 < n).
Proof.
  induction steps as [|c rest IH]; intros t failed t' H; cbn [Utils.attempted] in H.
  - injection H as <- <-. exists 0. rewrite app_nil_r. by split_and!.
  - pose proof (task_call_calls pr c t) as Hc. revert H.
    destruct (Utils.task_call pr c t) as [[e|] t1]; cbn [fst snd] in Hc; intros H.
    + injection H as <- <-. exists 1. cbn. rewrite take_0.
      split_and!; [lia|done|done|lia].
    + destruct (IH _ _ _ H) as (n & Hn & Ht & Hnone & Hsome).
      exists (S n). cbn. rewrite Ht, Hc, <- app_assoc. cbn.
      split_and!; [lia|done|intros; f_equal; auto|lia].
Qed.

(** X13: [printImage] asks for one print task, with as many pages as
    it will print (the quantity given, one when none is given); when
    that fails, it fails with the same error and nothing else is
    called.  Otherwise it makes the calls [printInit], [printPage],
    [waitForFinished] in this order up to the first that fails, then
    calls [printEnd], exactly once and last.  It fails with the error
    of [printEnd] when [printEnd] fails, else with the error of the step
    that failed, and succeeds only when all five calls were made and
    none failed. *)
Theorem printImage_calls pr printTaskName encoded options t :
  let pages := default 1 (Utils.quantity options) in
  let o := {| Utils.task_density := default 3 (Utils.density options);
              Utils.task_labelType := default Utils.WithGaps (Utils.labelType options);
              Utils.totalPages := pages;
              Utils.statusPollIntervalMs := 500;
              Utils.statusTimeoutMs := 8 * 1000 |} in
  let steps := [Utils.PrintInit; Utils.PrintPage encoded pages; Utils.WaitForFinished] in
  let done := Utils.printImage pr printTaskName encoded options t in
  match Utils.task_call pr (Utils.NewPrintTask printTaskName o) t with
  | (Some e, t1) =>
      done = (Some e, t1) /\ t1.1 = t.1 ++ [Utils.NewPrintTask printTaskName o]
  | (None, t1) =>
      let '(failed, t2) := Utils.attempted pr steps t1 in
      let '(ended, t3) := Utils.task_call pr Utils.PrintEnd t2 in
      done = (match ended with Some e => Some e | None => failed end, t3) /\
      exists n, 0 < n <= 3 /\
        t3.1 = t.1 ++ [Utils.NewPrintTask printTaskName o] ++ take n steps ++ [Utils.PrintEnd] /\
        (failed = None -> n = 3) /\
        (done.1 = None <-> failed = None /\ ended = None)
  end.
Proof.
  intros pages o steps done. subst done. unfold Utils.printImage. fold pages. fold o.
  pose proof (task_call_calls pr (Utils.NewPrintTask printTaskName o) t) as C1.
  destruct (Utils.task_call pr (Utils.NewPrintTask _ _) t) as [[e|] t1];
    cbn [fst snd] in C1; [done|].
  destruct (Utils.attempted pr steps t1) as [failed t2] eqn:Ha.
  pose proof (attempted_calls pr steps t1 failed t2 Ha) as (n & Hn & Ht2 & Hnone & Hsome).
  pose proof (task_call_calls pr Utils.PrintEnd t2) as C5.
  assert ((let '(thrown, t0) :=
             match Utils.task_call pr Utils.PrintInit t1 with
             | (Some e, t0) => (Some e, t0)
             | (None, t0) =>
                 match Utils.task_call pr (Utils.PrintPage encoded pages) t0 with
                 | (Some e, t3) => (Some e, t3)
                 | (None, t3) => Utils.task_call pr Utils.WaitForFinished t3
                 end
             end in
           match Utils.task_call pr Utils.PrintEnd t0 with
           | (Some e, t3) => (Some e, t3)
           | (None, t3) => (thrown, t3)
           end) =
          (let '(ended, t3) := Utils.task_call pr Utils.PrintEnd t2 in
           (match ended with Some e => Some e | None => failed end, t3))) as ->.
  { revert Ha. subst steps. cbn [Utils.attempted].
    destruct (Utils.task_call pr Utils.PrintInit t1) as [[e1|] u1].
    { intros [= <- <-]. by destruct (Utils.task_call pr Utils.PrintEnd u1) as [[?|] ?]. }
    destruct (Utils.task_call pr (Utils.PrintPage encoded pages) u1) as [[e2|] u2].
    { intros [= <- <-]. by destruct (Utils.task_call pr Utils.PrintEnd u2) as [[?|] ?]. }
    destruct (Utils.task_call pr Utils.WaitForFinished u2) as [[e3|] u3].
    { intros [= <- <-]. by destruct (Utils.task_call pr Utils.PrintEnd u3) as [[?|] ?]. }
    intros [= <- <-]. by destruct (Utils.task_call pr Utils.PrintEnd u3) as [[?|] ?]. }
  destruct (Utils.task_call pr Utils.PrintEnd t2) as [ended t3]; cbn [fst snd] in C5.
  split; [done|].
  assert (0 < n) as Hpos.
  { destruct failed as [e|]; [by apply Hsome|]. rewrite Hnone by done. cbn. lia. }
  exists n. cbn in Hn. split_and!.
  - lia.
  - lia.
  - by rewrite C5, Ht2, C1, <- !app_assoc.
  - exact Hnone.
  - cbn [fst]. destruct ended, failed; split; try done; by intros [? ?].
Qed.

(** ** [readBodyJson] *)

(** X14: [readBodyJson] always settles, and with the first thing that
    goes wrong: the error of [JSON.parse] when the body is not JSON,
    "No data" when the body is the JSON value null (whatever the schema
    thinks of null), the schema's issues when the schema refuses the
    data, and the schema's result otherwise. *)
Theorem readBodyJson_outcome {Data T : Type}
    (parse : string -> Error + option Data)
    (safeParse : option Data -> list Issue + T) (request : Http.Request) :
  Http.readBodyJson parse safeParse request =
  match parse (String.concat EmptyString (Http.bodyParts request)) with
  | inl e => Throws (PlainError e)
  | inr None => Throws (PlainError (MkError "No data"))
  | inr (Some d) =>
      match safeParse (Some d) with
      | inr t => Answer t
      | inl issues => Throws (ZodError issues)
      end
  end.
Proof.
  unfold Http.readBodyJson, Http.onEnd.
  destruct (parse _) as [e|[d|]]; cbn; [done| |done].
  by destruct (safeParse _).
Qed.

(** ** [SimpleServer.onRequest] *)

Lemma find_app {A : Type} (f : A -> bool) (l1 l2 : list A) :
  find f (l1 ++ l2) = match find f l1 with Some x => Some x | None => find f l2 end.
Proof. induction l1 as [|x l1 IH]; cbn; [done|]. by destruct (f x). Qed.

Lemma corsHeaders_headers :
  Forall (fun c => exists n v, c = Http.SetHeader n v) Http.corsHeaders.
Proof. repeat constructor; eauto. Qed.

(** X15: [onRequest] writes nothing and runs no handler for a request
    without url or method.  For any other request, provided the handler
    it reaches comes back, it writes exactly one response: some headers,
    then one status line, then one end of the body, and nothing after. *)
Theorem onRequest_one_response {S : Type} (srv : Http.SimpleServer S)
    (request : Http.Request) (st : S) :
  (Http.url request = None \/ Http.method request = None ->
   Http.onRequest srv request st = ([], st)) /\
  (forall u m,
     Http.url request = Some u -> Http.method request = Some m ->
     (forall route, In route (Http.routes srv) ->
        (Http.handler route request st).1 <> NoReply) ->
     exists headers status body,
       (Http.onRequest srv request st).1 =
         headers ++ [Http.WriteHead status; Http.End body] /\
       Forall (fun c => exists n v, c = Http.SetHeader n v) headers).
Proof.
  split.
  - unfold Http.onRequest. intros [-> | ->]; [done|]. by destruct (Http.url request).
  - intros u m Hu Hm Hback. unfold Http.onRequest. rewrite Hu, Hm.
    assert (Forall (fun c => exists n v, c = Http.SetHeader n v)
              (if Http.corsEnabled srv then Http.corsHeaders else [])) as Hcors.
    { destruct (Http.corsEnabled srv); [apply corsHeaders_headers|constructor]. }
    set (cors := if Http.corsEnabled srv then _ else _) in *.
    assert (forall o status,
      exists headers status' body,
        cors ++ Http.writeBody o status =
          headers ++ [Http.WriteHead status'; Http.End body] /\
        Forall (fun c => exists n v, c = Http.SetHeader n v) headers) as Hw.
    { intros o status.
      exists (cors ++ [Http.SetHeader "Content-Type" "application/json"]),
        (default 200 status), (Some o).
      split; [by rewrite <- app_assoc|].
      apply Forall_app. split; [done|]. repeat constructor; eauto. }
    destruct (_ && _).
    { exists cors, 204, None. done. }
    destruct (find _ _) as [route|] eqn:Hf; [|apply Hw].
    destruct (_ && _); [apply Hw|].
    apply find_some in Hf as [Hin _]. specialize (Hback route Hin).
    destruct (Http.handler route request st) as [[result|e|] st']; cbn [fst snd].
    + apply Hw.
    + destruct e; apply Hw.
    + done.
Qed.

Lemma onRequest_one_response_witness :
  let srv := Http.get "/" (fun _ st => (Answer Rest.index, st)) Http.newSimpleServer in
  let request := {| Http.url := Some "/"%string; Http.method := Some "GET"%string;
                    Http.contentType := None; Http.bodyParts := [] |} in
  (Http.onRequest srv request tt).1 =
    [Http.SetHeader "Content-Type" "application/json";
     Http.WriteHead 200; Http.End (Some (Http.Stringified Rest.index))] /\
  exists headers status body,
    (Http.onRequest srv request tt).1 =
      headers ++ [Http.WriteHead status; Http.End body] /\
    Forall (fun c => exists n v, c = Http.SetHeader n v) headers.
Proof.
  intros srv request. split; [vm_compute; reflexivity|].
  apply (proj2 (onRequest_one_response srv request tt) "/"%string "GET"%string);
    [reflexivity|reflexivity|].
  intros route [<-|[]]. cbn. discriminate.
Defined.

(** X16: with CORS enabled every response starts with the four
    [Access-Control] headers, and a request with the method OPTIONS is
    answered 204 with an empty body without looking at the routes or
    running a handler.  With CORS off the only header ever set is the
    content type. *)
Theorem onRequest_cors {S : Type} (srv : Http.SimpleServer S)
    (request : Http.Request) (st : S) u m :
  Http.url request = Some u -> Http.method request = Some m ->
  if Http.corsEnabled srv
  then take 4 (Http.onRequest srv request st).1 = Http.corsHeaders /\
       (m = "OPTIONS"%string ->
        Http.onRequest srv request st =
          (Http.corsHeaders ++ [Http.WriteHead 204; Http.End None], st))
  else forall n v, In (Http.SetHeader n v) (Http.onRequest srv request st).1 ->
         n = "Content-Type"%string.
Proof.
  intros Hu Hm. unfold Http.onRequest. rewrite Hu, Hm.
  destruct (Http.corsEnabled srv); cbn [andb].
  - split.
    + repeat case_match; done.
    + intros ->. done.
  - intros n v. cbn [app].
    repeat case_match; cbn; intros Hin;
      try match type of Hin with In _ (Http.writeThrown ?e) => destruct e; cbn in Hin end;
      repeat (destruct Hin as [Hin|Hin];
              [first [discriminate Hin|by injection Hin as <- _]|]); done.
Qed.

Lemma onRequest_cors_witness :
  let srv := Http.enableCors
               (Http.get "/" (fun _ st => (Answer Rest.index, st)) Http.newSimpleServer) in
  let request := {| Http.url := Some "/connect"%string; Http.method := Some "OPTIONS"%string;
                    Http.contentType := None; Http.bodyParts := [] |} in
  take 4 (Http.onRequest srv request tt).1 = Http.corsHeaders /\
  ("OPTIONS"%string = "OPTIONS"%string ->
   Http.onRequest srv request tt =
     (Http.corsHeaders ++ [Http.WriteHead 204; Http.End None], tt)).
Proof.
  intros srv request.
  exact (onRequest_cors srv request tt "/connect"%string "OPTIONS"%string
           eq_refl eq_refl).
Defined.

(** X17: the first route added that fits the request is the one that
    answers it: when some route of the server already serves a request,
    adding another route afterwards changes nothing for that request. *)
Theorem onRequest_first_route {S : Type} (srv : Http.SimpleServer S)
    (later : Http.Route S) (request : Http.Request) (st : S) u m route :
  Http.url request = Some u -> Http.method request = Some m ->
  find (Http.serves u m) (Http.routes srv) = Some route ->
  Http.onRequest (Http.push later srv) request st = Http.onRequest srv request st.
Proof.
  intros Hu Hm Hf. unfold Http.onRequest. rewrite Hu, Hm. cbn [Http.push Http.routes
    Http.corsEnabled]. by rewrite find_app, Hf.
Qed.

Lemma onRequest_first_route_witness :
  let first := fun (_ : Http.Request) (st : unit) => (Answer Rest.index, st) in
  let second := fun (_ : Http.Request) (st : unit) => (Answer JNull, st) in
  let srv := Http.get "/" first Http.newSimpleServer in
  let request := {| Http.url := Some "/"%string; Http.method := Some "GET"%string;
                    Http.contentType := None; Http.bodyParts := [] |} in
  Http.onRequest (Http.anything "/" second srv) request tt = Http.onRequest srv request tt.
Proof.
  intros first second srv request.
  exact (onRequest_first_route srv _ request tt "/"%string "GET"%string _
           eq_refl eq_refl eq_refl).
Defined.

(** X18: a POST whose content type is not exactly "application/json"
    (or is missing) never reaches a handler: it is answered 404 when no
    route fits it, and 400 "Only JSON accepted" when one does, and the
    state of the handlers is left as it was. *)
Theorem onRequest_post_needs_json {S : Type} (srv : Http.SimpleServer S)
    (request : Http.Request) (st : S) u :
  Http.url request = Some u -> Http.method request = Some "POST"%string ->
  Http.contentType request <> Some "application/json"%string ->
  let cors := if Http.corsEnabled srv then Http.corsHeaders else [] in
  Http.onRequest srv request st =
    (cors ++
     match find (Http.serves u "POST") (Http.routes srv) with
     | None => Http.writeObj (Http.errorObj "Not found") (Some 404)
     | Some _ => Http.writeObj (Http.errorObj "Only JSON accepted") (Some 400)
     end, st).
Proof.
  intros Hu Hm Hct cors. unfold Http.onRequest. rewrite Hu, Hm. fold cors.
  rewrite andb_false_r.
  destruct (find _ _) as [route|]; [|done].
  assert (Http.isJson (Http.contentType request) = false) as ->; [|done].
  unfold Http.isJson. destruct (Http.contentType request) as [t|]; [|done].
  apply String.eqb_neq. intros ->. done.
Qed.

Lemma onRequest_post_needs_json_witness :
  let srv := Http.post "/connect" (fun _ st => (Answer JNull, S st)) Http.newSimpleServer in
  let request := {| Http.url := Some "/connect"%string; Http.method := Some "POST"%string;
                    Http.contentType := Some "application/json; charset=utf-8"%string;
                    Http.bodyParts := [] |} in
  Http.onRequest srv request 0 =
    (Http.writeObj (Http.errorObj "Only JSON accepted") (Some 400), 0).
Proof.
  intros srv request.
  exact (onRequest_post_needs_json srv request 0 "/connect"%string eq_refl eq_refl
           ltac:(discriminate)).
Defined.

(** ** The handlers of the server *)

Lemma clientIsConnected_isOpen s :
  Rest.clientIsConnected s =
  match Rest.client s with Some w => isOpen w | None => false end.
Proof. unfold Rest.clientIsConnected. by destruct (Rest.client s). Qed.

Lemma awaited_connect w :
  (exists info w', exec 0 connect w = (Returned info, w') /\
                   awaited connect w = (Answer info, w')) \/
  (exists e w', exec 0 connect w = (Raised e, w') /\
                awaited connect w = (Throws (PlainError e), w')).
Proof.
  unfold awaited.
  destruct (exec_connect_total 0 w) as [(info & w' & ->)|(e & w' & ->)]; eauto 10.
Qed.

Lemma awaited_disconnect w : awaited disconnect w = (Answer tt, torn_down w).
Proof. unfold awaited. by rewrite exec_disconnect. Qed.

Section RestHandlers.

Context {Data : Type}.
Variable parse : string -> Error + option Data.
Variable ConnectSchema : option Data -> list Issue + Rest.ConnectData.
Variable pf : Utils.Platform.

(** What the handler of [connect] does once the body is read and no
    client is connected. *)
Lemma rest_connect_cases r s data :
  Http.readBodyJson parse ConnectSchema r = Answer data ->
  Rest.clientIsConnected s = false ->
  (Rest.transport data <> "serial"%string /\
   exists e, Rest.connect parse ConnectSchema pf r s = (Throws (PlainError e), s)) \/
  (Rest.transport data = "serial"%string /\
   let w0 := session (Utils.serial pf) (Utils.intervalMs pf) (Utils.clientDebug pf)
               [DoSetPort (Rest.address data)] in
   (exists info w, exec 0 connect w0 = (Returned info, w) /\
      Rest.connect parse ConnectSchema pf r s =
        (Answer (Rest.message "Connected"), Rest.set_client (Some w) s)) \/
   (exists e w, exec 0 connect w0 = (Raised e, w) /\
      Rest.connect parse ConnectSchema pf r s =
        (Throws (PlainError e), Rest.set_client (Some w) s))).
Proof.
  intros Hb Hc. unfold Rest.connect. rewrite Hb, Hc.
  destruct (Utils.initClient _ _ _ _) as [e|c] eqn:Hic.
  - left. apply initClient_refused in Hic as [Hne [e' ->]]. eauto.
  - right. apply initClient_serial in Hic as [Ht ->]. split; [done|]. cbn zeta.
    destruct (awaited_connect
                (session (Utils.serial pf) (Utils.intervalMs pf) (Utils.clientDebug pf)
                   [DoSetPort (Rest.address data)]))
      as [(info & w & He & ->)|(e & w & He & ->)]; eauto 10.
Qed.

End RestHandlers.

Lemma rest_connect_guarded {Data : Type}
    (parse : string -> Error + option Data)
    (ConnectSchema : option Data -> list Issue + Rest.ConnectData)
    (pf : Utils.Platform) (r : Http.Request) (s : Rest.State) :
  Rest.clientIsConnected s = true ->
  (Rest.connect parse ConnectSchema pf r s).2 = s.
Proof.
  intros Hc. unfold Rest.connect. rewrite Hc.
  by destruct (Http.readBodyJson _ _ _).
Qed.

Lemma rest_connect_when_connected_aux {Data : Type}
    (parse : string -> Error + option Data)
    (ConnectSchema : option Data -> list Issue + Rest.ConnectData)
    (pf : Utils.Platform) (r : Http.Request) (s : Rest.State) data :
  Rest.clientIsConnected s = true ->
  Http.readBodyJson parse ConnectSchema r = Answer data ->
  Rest.connect parse ConnectSchema pf r s =
    (Throws (RestError "Already connected" 400), s).
Proof. intros Hc Hb. unfold Rest.connect. by rewrite Hb, Hc. Qed.

(** X19: while the client of the server is connected, a request to
    connect changes nothing: no new client is made, no port is tried,
    the client stays as it is, and a well-formed request is answered
    with the error "Already connected" and the status 400. *)
Theorem rest_connect_when_connected {Data : Type}
    (parse : string -> Error + option Data)
    (ConnectSchema : option Data -> list Issue + Rest.ConnectData)
    (pf : Utils.Platform) (r : Http.Request) (s : Rest.State) :
  Rest.clientIsConnected s = true ->
  (Rest.connect parse ConnectSchema pf r s).2 = s /\
  forall data,
    Http.readBodyJson parse ConnectSchema r = Answer data ->
    (Rest.connect parse ConnectSchema pf r s).1 = Throws (RestError "Already connected" 400).
Proof.
  intros Hc. unfold Rest.connect. rewrite Hc.
  destruct (Http.readBodyJson _ _ _) as [data|e|]; cbn; by split.
Qed.



(** X21: when no client is connected and the request is well formed,
    the handler of [connect] answers "Connected" exactly when the client
    it made ends connected.  Otherwise it throws what [initClient] or
    [connect] threw, and the client the server is left with is not
    connected and has no port open. *)
Theorem rest_connect_outcome {Data : Type}
    (parse : string -> Error + option Data)
    (ConnectSchema : option Data -> list Issue + Rest.ConnectData)
    (pf : Utils.Platform) (r : Http.Request) (s : Rest.State) data :
  Http.readBodyJson parse ConnectSchema r = Answer data ->
  Rest.clientIsConnected s = false ->
  let '(reply, s') := Rest.connect parse ConnectSchema pf r s in
  (reply = Answer (Rest.message "Connected") /\
   Rest.clientIsConnected s' = true /\
   exists w, Rest.client s' = Some w /\ live_handles w = [0]) \/
  (exists e, reply = Throws (PlainError e) /\
   Rest.clientIsConnected s' = false /\
   (s' = s \/ exists w, Rest.client s' = Some w /\ live_handles w = [])).
Proof.
  intros Hb Hc.
  destruct (rest_connect_cases parse ConnectSchema pf r s data Hb Hc)
    as [(_ & e & ->)|(_ & [(info & w & He & ->)|(e & w & He & ->)])].
  - right. exists e. split_and!; auto.
  - left. rewrite clientIsConnected_isOpen. cbn.
    apply connect_success in He as (name & res & Hn & _ & ->). cbn.
    split_and!; try done. eexists. split; [done|].
    assert (live_handles (connected_world name res
              (torn_down (session (Utils.serial pf) (Utils.intervalMs pf)
                            (Utils.clientDebug pf) [DoSetPort (Rest.address data)]))) = [0])
      as Hl; [|exact Hl].
    rewrite connected_world_live by (by apply WF_torn_down, WF_session).
    by rewrite torn_down_length.
  - right. exists e. rewrite clientIsConnected_isOpen. cbn.
    apply connect_raised_first in He as (_ & Hall & Hi); [|apply WF_session|done].
    split_and!; try done. right. eexists. split; [done|]. by apply all_closed_live.
Qed.

Lemma rest_connect_when_connected_witness :
  let s := {| Rest.client := Some com7_connected; Rest.debug := false |} in
  Rest.clientIsConnected s = true /\
  (Rest.connect any_json com7_body bench (post_json "/connect") s).2 = s /\
  forall data,
    Http.readBodyJson any_json com7_body (post_json "/connect") = Answer data ->
    (Rest.connect any_json com7_body bench (post_json "/connect") s).1 =
      Throws (RestError "Already connected" 400).
Proof.
  intros s. split; [vm_compute; reflexivity|].
  apply (rest_connect_when_connected any_json com7_body bench (post_json "/connect") s).
  vm_compute; reflexivity.
Defined.

Lemma rest_connect_outcome_witness :
  let s := {| Rest.client := None; Rest.debug := false |} in
  let data := {| Rest.transport := "serial"; Rest.address := "COM7" |} in
  (Http.readBodyJson any_json com7_body (post_json "/connect") = Answer data /\
   Rest.clientIsConnected s = false) /\
  let '(reply, s') := Rest.connect any_json com7_body bench (post_json "/connect") s in
  (reply = Answer (Rest.message "Connected") /\
   Rest.clientIsConnected s' = true /\
   exists w, Rest.client s' = Some w /\ live_handles w = [0]) \/
  (exists e, reply = Throws (PlainError e) /\
   Rest.clientIsConnected s' = false /\
   (s' = s \/ exists w, Rest.client s' = Some w /\ live_handles w = [])).
Proof.
  intros s data. split; [split; vm_compute; reflexivity|].
  apply (rest_connect_outcome any_json com7_body bench (post_json "/connect") s data);
    vm_compute; reflexivity.
Defined.

(** X22: the handler of [disconnect] refuses with "Not connected" and
    the status 400, changing nothing, when no client is connected.
    When one is, it disconnects it and forgets it: the answer is
    "Disconnected", and from then on [connected] answers false and
    another [disconnect] is refused. *)
Theorem rest_disconnect_outcome (r r' : Http.Request) (s : Rest.State) :
  (Rest.clientIsConnected s = false ->
   Rest.disconnect r s = (Throws (RestError "Not connected" 400), s)) /\
  (Rest.clientIsConnected s = true ->
   exists s',
     Rest.disconnect r s = (Answer (Rest.message "Disconnected"), s') /\
     Rest.client s' = None /\ Rest.debug s' = Rest.debug s /\
     Rest.connected r' s' = (Answer (JObject [("connected", JBool false)]), s') /\
     Rest.disconnect r' s' = (Throws (RestError "Not connected" 400), s')).
Proof.
  unfold Rest.disconnect, Rest.assertConnected. split; intros Hc; rewrite Hc; cbn.
  - done.
  - rewrite clientIsConnected_isOpen in Hc.
    destruct (Rest.client s) as [w|] eqn:Hw; [|done].
    rewrite awaited_disconnect. eexists. split; [done|]. done.
Qed.

Lemma rest_disconnect_outcome_witness :
  let s := {| Rest.client := Some com7_connected; Rest.debug := true |} in
  let r := post_json "/disconnect" in
  Rest.clientIsConnected s = true /\
  exists s',
    Rest.disconnect r s = (Answer (Rest.message "Disconnected"), s') /\
    Rest.client s' = None /\ Rest.debug s' = Rest.debug s /\
    Rest.connected r s' = (Answer (JObject [("connected", JBool false)]), s') /\
    Rest.disconnect r s' = (Throws (RestError "Not connected" 400), s').
Proof.
  intros s r. split; [vm_compute; reflexivity|].
  apply (proj2 (rest_disconnect_outcome r r s)). vm_compute; reflexivity.
Defined.

Lemma statuses_headers cors tail :
  Forall (fun c => exists n v, c = Http.SetHeader n v) cors ->
  Http.statuses (cors ++ tail) = Http.statuses tail.
Proof.
  intros Hc. unfold Http.statuses. rewrite omap_app.
  induction Hc as [|c cors (n & v & ->) _ IH]; [done|]. cbn. exact IH.
Qed.

(** A request that reaches a handler. *)
Lemma onRequest_routed {S : Type} (srv : Http.SimpleServer S)
    (request : Http.Request) (st : S) u m route :
  Http.url request = Some u -> Http.method request = Some m ->
  Http.corsEnabled srv && String.eqb m "OPTIONS" = false ->
  find (Http.serves u m) (Http.routes srv) = Some route ->
  String.eqb m "POST" && negb (Http.isJson (Http.contentType request)) = false ->
  Http.onRequest srv request st =
    ((if Http.corsEnabled srv then Http.corsHeaders else []) ++
     match (Http.handler route request st).1 with
     | Answer result => Http.writeObj result (Some 200)
     | Throws e => Http.writeThrown e
     | NoReply => []
     end, (Http.handler route request st).2).
Proof.
  intros Hu Hm Ho Hf Hp. unfold Http.onRequest. rewrite Hu, Hm, Ho, Hf, Hp.
  destruct (Http.handler route request st) as [[result|e|] st']; cbn [fst snd];
    by rewrite ?app_nil_r.
Qed.

Lemma statuses_writeThrown_plain e :
  Http.statuses (Http.writeThrown (PlainError e)) = [500].
Proof. done. Qed.

(** X23: a POST with a well-formed JSON body that the server routes to
    the handler of [connect] gets exactly one status line: 400 when a
    client was already connected, 200 when the new client ends
    connected, and 500 when the transport is refused or the connection
    fails. *)
Theorem server_connect_status {Data : Type}
    (parse : string -> Error + option Data)
    (ConnectSchema : option Data -> list Issue + Rest.ConnectData)
    (pf : Utils.Platform) (srv : Http.SimpleServer Rest.State)
    (request : Http.Request) (s : Rest.State) u route data :
  Http.url request = Some u ->
  Http.method request = Some "POST"%string ->
  Http.contentType request = Some "application/json"%string ->
  find (Http.serves u "POST") (Http.routes srv) = Some route ->
  Http.handler route = Rest.connect parse ConnectSchema pf ->
  Http.readBodyJson parse ConnectSchema request = Answer data ->
  let '(calls, s') := Http.onRequest srv request s in
  Http.statuses calls =
    [if Rest.clientIsConnected s then 400
     else if Rest.clientIsConnected s' then 200 else 500].
Proof.
  intros Hu Hm Hct Hf Hh Hb.
  rewrite (onRequest_routed srv request s u "POST" route Hu Hm); [|..|done|].
  2:{ apply andb_false_r. }
  2:{ by rewrite Hct. }
  rewrite Hh.
  assert (Forall (fun c => exists n v, c = Http.SetHeader n v)
            (if Http.corsEnabled srv then Http.corsHeaders else [])) as Hcors.
  { destruct (Http.corsEnabled srv); [apply corsHeaders_headers|constructor]. }
  rewrite statuses_headers by done.
  destruct (Rest.clientIsConnected s) eqn:Hc.
  - by rewrite (rest_connect_when_connected_aux parse ConnectSchema pf request s data Hc Hb).
  - destruct (rest_connect_cases parse ConnectSchema pf request s data Hb Hc)
      as [(_ & e & ->)|(_ & [(info & w & He & ->)|(e & w & He & ->)])];
      cbn [fst snd].
    + by rewrite Hc.
    + rewrite clientIsConnected_isOpen. cbn [Rest.client Rest.set_client].
      apply connect_success in He as (name & res & Hn & _ & ->). done.
    + rewrite clientIsConnected_isOpen. cbn [Rest.client Rest.set_client].
      apply connect_raised_first in He as (_ & _ & ->); [|apply WF_session|done]. done.
Qed.

Lemma server_connect_status_witness :
  let srv := Http.post "/connect" (Rest.connect any_json com7_body bench)
               Http.newSimpleServer in
  let s := {| Rest.client := None; Rest.debug := false |} in
  Http.statuses (Http.onRequest srv (post_json "/connect") s).1 = [200] /\
  let '(calls, s') := Http.onRequest srv (post_json "/connect") s in
  Http.statuses calls =
    [if Rest.clientIsConnected s then 400
     else if Rest.clientIsConnected s' then 200 else 500].
Proof.
  intros srv s. split; [vm_compute; reflexivity|].
  exact (server_connect_status any_json com7_body bench srv (post_json "/connect") s
           "/connect"%string _ {| Rest.transport := "serial"; Rest.address := "COM7" |}
           eq_refl eq_refl eq_refl eq_refl eq_refl eq_refl).
Defined.

(** X24: for the image fields that the refinement of [PrintSchema]
    lets through, the handler of [print] always finds an image to load
    ("Image is not defined" cannot happen), and it is the base64 image
    whenever the field [imageBase64] is present, even when it is the
    empty string and the request passed for its [imageUrl]. *)
Theorem imageSource_after_refinement (o : Rest.ImageFields) :
  Rest.imageRefinement o = true ->
  exists src,
    Rest.imageSource o = inr src /\
    (forall b64, Rest.imageBase64 o = Some b64 -> src = Rest.FromBase64 b64) /\
    (Rest.imageBase64 o = None ->
     exists url, Rest.imageUrl o = Some url /\ url <> EmptyString /\ src = Rest.FromUrl url).
Proof.
  unfold Rest.imageRefinement, Rest.imageSource.
  destruct (Rest.imageBase64 o) as [b64|]; cbn.
  - intros _. eexists. split; [done|]. split; [by intros ? [= <-]|done].
  - destruct (Rest.imageUrl o) as [[|c url]|]; cbn; try done.
    intros _. eexists. split; [done|]. split; [done|]. intros _. eauto.
Qed.

Lemma imageSource_after_refinement_witness :
  let o := {| Rest.imageBase64 := Some EmptyString;
              Rest.imageUrl := Some "http://host/label.png"%string |} in
  Rest.imageRefinement o = true /\
  exists src,
    Rest.imageSource o = inr src /\
    (forall b64, Rest.imageBase64 o = Some b64 -> src = Rest.FromBase64 b64) /\
    (Rest.imageBase64 o = None ->
     exists url, Rest.imageUrl o = Some url /\ url <> EmptyString /\ src = Rest.FromUrl url).
Proof.
  intros o. split; [vm_compute; reflexivity|].
  apply (imageSource_after_refinement o). vm_compute; reflexivity.
Defined.

(** ** The commands *)

Lemma task_call_WF pr c t : WF t.2 -> WF (Utils.task_call pr c t).2.2.
Proof. intros Hwf. by apply WF_actions. Qed.

Lemma printImage_WF pr printTaskName encoded options t :
  WF t.2 -> WF (Utils.printImage pr printTaskName encoded options t).2.2.
Proof.
  intros Hwf. unfold Utils.printImage.
  repeat match goal with
  | |- context [Utils.task_call pr ?c ?t0] =>
      let H := fresh "Hwf" in
      let r := fresh "r" in
      let t' := fresh "t" in
      assert (WF (Utils.task_call pr c t0).2.2) as H by (by apply task_call_WF);
      destruct (Utils.task_call pr c t0) as [r t']; cbn [fst snd] in H;
      destruct r
  end; done.
Qed.

Lemma task_call_called pr c t : (Utils.task_call pr c t).2.1 <> [].
Proof. cbn. by destruct t.1. Qed.

Lemma printImage_called pr printTaskName encoded options w :
  (Utils.printImage pr printTaskName encoded options ([], w)).2.1 <> [].
Proof.
  unfold Utils.printImage.
  repeat match goal with
  | |- context [Utils.task_call pr ?c ?t0] =>
      let H := fresh "Hc" in
      let r := fresh "r" in
      let t' := fresh "t" in
      pose proof (task_call_called pr c t0) as H;
      destruct (Utils.task_call pr c t0) as [r t']; cbn [fst snd] in H;
      destruct r
  end; done.
Qed.

(** The client of a command after its [disconnect]. *)
Lemma disconnected_after w :
  WF w ->
  awaited disconnect w = (Answer tt, torn_down w) /\
  live_handles (torn_down w) = [].
Proof.
  intros Hwf. destruct (WF_torn_down w Hwf) as (_ & Hall).
  split; [apply awaited_disconnect|by apply all_closed_live].
Qed.

(** The client of a command, just connected. *)
Lemma connected_first pf address info w :
  exec 0 connect
    (session (Utils.serial pf) (Utils.intervalMs pf) (Utils.clientDebug pf)
       [DoSetPort address]) = (Returned info, w) ->
  WF w /\ isOpen w = true /\ live_handles w = [0].
Proof.
  intros He. split.
  - replace w with (exec 0 connect
      (session (Utils.serial pf) (Utils.intervalMs pf) (Utils.clientDebug pf)
         [DoSetPort address])).2 by (by rewrite He).
    apply WF_connect, WF_session.
  - apply connect_success in He as (name & res & Hn & _ & ->). split; [done|].
    assert (live_handles (connected_world name res
              (torn_down (session (Utils.serial pf) (Utils.intervalMs pf)
                            (Utils.clientDebug pf) [DoSetPort address]))) = [0])
      as Hl; [|exact Hl].
    rewrite connected_world_live by (by apply WF_torn_down, WF_session).
    by rewrite torn_down_length.
Qed.

Lemma cli_print_cases m path options :
  let run := Cli.cliConnectAndPrintImageFile m path options in
  (Cli.printed run = [] /\
   (forall status, Cli.ending run <> Cli.Exit status) /\
   (forall message, Cli.ending run = Cli.Uncaught (InvalidArgumentError message) ->
      exists w, Cli.client run = Some w /\ isOpen w = true /\ live_handles w = [0])) \/
  (Cli.printed run <> [] /\
   (Cli.ending run = Cli.Exit 0 \/ exists e, Cli.ending run = Cli.Uncaught (PlainError e)) /\
   exists w, Cli.client run = Some w /\ live_handles w = []).
Proof.
  cbn zeta. unfold Cli.cliConnectAndPrintImageFile.
  destruct (Utils.initClient _ _ _ _) as [e|c] eqn:Hi.
  { left. apply initClient_refused in Hi as [_ [e' ->]]. cbn. by split_and!. }
  apply initClient_serial in Hi as [_ ->].
  destruct (awaited_connect
              (session (Utils.serial (Cli.platform m)) (Utils.intervalMs (Cli.platform m))
                 (Utils.clientDebug (Cli.platform m)) [DoSetPort (Cli.address options)]))
    as [(info & w & He & ->)|(e & w & He & ->)].
  2:{ left. cbn. by split_and!. }
  apply connected_first in He as (Hwf & Hopen & Hlive).
  destruct (Cli.load_fault m path).
  { left. cbn. by split_and!. }
  destruct (_ && _).
  { left. cbn. split_and!; try done. intros _ _. eauto. }
  match goal with
  | |- context [if ?b then Cli.resize_fault m path else None] =>
      destruct (if b then Cli.resize_fault m path else None)
  end.
  { left. cbn. by split_and!. }
  destruct (Cli.encode_fault m path).
  { left. cbn. by split_and!. }
  destruct (match Cli.printTask options with Some t => Some t | None => _ end)
    as [printTask|].
  2:{ left. cbn. by split_and!. }
  right.
  pose proof (printImage_called (Cli.printer m) printTask
     (Utils.Encoded path
        match Cli.printDirection options with
        | Some d => Some d
        | None => Cli.modelPrintDirection m w
        end)
     {| Utils.quantity := Some (Cli.quantity options);
        Utils.labelType := Some (Cli.labelType options);
        Utils.density := Some (Cli.density options) |} w) as Hcalled.
  pose proof (printImage_WF (Cli.printer m) printTask
     (Utils.Encoded path
        match Cli.printDirection options with
        | Some d => Some d
        | None => Cli.modelPrintDirection m w
        end)
     {| Utils.quantity := Some (Cli.quantity options);
        Utils.labelType := Some (Cli.labelType options);
        Utils.density := Some (Cli.density options) |} ([], w) Hwf) as Hwf'.
  destruct (Utils.printImage _ _ _ _ _) as [thrown [calls w']]. cbn [fst snd] in *.
  destruct (disconnected_after w' Hwf') as (-> & Hl').
  destruct thrown as [e|]; cbn; split_and!; eauto.
Qed.

(** X25: when [cliConnectAndPrintImageFile] reaches [process.exit],
    the status is 0: the value 1 that [status] starts with is never
    used, because a failing print leaves through the [finally] with its
    error.  At that exit [disconnect] has been called and no port is
    open. *)
Theorem cli_print_exit m path options status :
  Cli.ending (Cli.cliConnectAndPrintImageFile m path options) = Cli.Exit status ->
  status = 0 /\
  exists w,
    Cli.client (Cli.cliConnectAndPrintImageFile m path options) = Some w /\
    live_handles w = [].
Proof.
  intros He.
  destruct (cli_print_cases m path options) as [(_ & Hn & _)|(_ & Hend & Hd)].
  - by destruct (Hn status).
  - split; [|done]. rewrite He in Hend. by destruct Hend as [[= ->]|[e [=]]].
Qed.

Lemma cli_print_exit_witness :
  Cli.ending (Cli.cliConnectAndPrintImageFile bench_machine "label.png" (label_options None))
    = Cli.Exit 0 /\
  0 = 0 /\
  exists w,
    Cli.client (Cli.cliConnectAndPrintImageFile bench_machine "label.png"
                  (label_options None)) = Some w /\
    live_handles w = [].
Proof.
  assert (Cli.ending (Cli.cliConnectAndPrintImageFile bench_machine "label.png"
                        (label_options None)) = Cli.Exit 0) as H
    by (vm_compute; reflexivity).
  split; [exact H|].
  exact (cli_print_exit bench_machine "label.png" (label_options None) 0 H).
Defined.

(** X26: once [cliConnectAndPrintImageFile] has started to print, it
    calls [disconnect] before it ends, whether the print succeeded or
    failed: the client is left with no port open. *)
Theorem cli_print_disconnects m path options :
  Cli.printed (Cli.cliConnectAndPrintImageFile m path options) <> [] ->
  exists w,
    Cli.client (Cli.cliConnectAndPrintImageFile m path options) = Some w /\
    live_handles w = [].
Proof.
  intros Hp.
  by destruct (cli_print_cases m path options) as [(Hn & _)|(_ & _ & Hd)].
Qed.

Lemma cli_print_disconnects_witness :
  Cli.printed (Cli.cliConnectAndPrintImageFile bench_machine "label.png"
                 (label_options None)) <> [] /\
  exists w,
    Cli.client (Cli.cliConnectAndPrintImageFile bench_machine "label.png"
                  (label_options None)) = Some w /\
    live_handles w = [].
Proof.
  assert (Cli.printed (Cli.cliConnectAndPrintImageFile bench_machine "label.png"
                         (label_options None)) <> []) as H
    by (vm_compute; discriminate).
  split; [exact H|].
  exact (cli_print_disconnects bench_machine "label.png" (label_options None) H).
Defined.

(** X27: when [cliConnectAndPrintImageFile] refuses its options with
    an [InvalidArgumentError] (an image fit or position without both
    label sizes), it has already connected and does not disconnect: it
    throws with the client connected and the port open, and nothing
    has been printed. *)
Theorem cli_print_invalid_argument m path options message :
  Cli.ending (Cli.cliConnectAndPrintImageFile m path options)
    = Cli.Uncaught (InvalidArgumentError message) ->
  Cli.printed (Cli.cliConnectAndPrintImageFile m path options) = [] /\
  exists w,
    Cli.client (Cli.cliConnectAndPrintImageFile m path options) = Some w /\
    isOpen w = true /\ live_handles w = [0].
Proof.
  intros He.
  destruct (cli_print_cases m path options) as [(Hp & _ & Hi)|(_ & Hend & _)].
  - split; [done|]. by eapply Hi.
  - rewrite He in Hend. by destruct Hend as [[=]|[e [=]]].
Qed.

Lemma cli_print_invalid_argument_witness :
  Cli.ending (Cli.cliConnectAndPrintImageFile bench_machine "label.png"
                (label_options (Some "cover"%string)))
    = Cli.Uncaught (InvalidArgumentError "label-width and label-height must be set") /\
  Cli.printed (Cli.cliConnectAndPrintImageFile bench_machine "label.png"
                 (label_options (Some "cover"%string))) = [] /\
  exists w,
    Cli.client (Cli.cliConnectAndPrintImageFile bench_machine "label.png"
                  (label_options (Some "cover"%string))) = Some w /\
    isOpen w = true /\ live_handles w = [0].
Proof.
  assert (Cli.ending (Cli.cliConnectAndPrintImageFile bench_machine "label.png"
                        (label_options (Some "cover"%string)))
          = Cli.Uncaught (InvalidArgumentError "label-width and label-height must be set"))
    as H by (vm_compute; reflexivity).
  split; [exact H|].
  exact (cli_print_invalid_argument bench_machine "label.png"
           (label_options (Some "cover"%string)) _ H).
Defined.

(** X28: [cliPrinterInfo] and [cliFlashFirmware] never end with a port
    open.  They exit, with status 0, only after calling [disconnect];
    and when they end with an error, of [initClient], of [connect] or of
    the firmware upgrade, either no client was made or the client has
    no port open. *)
Theorem cli_info_flash_close m :
  let closed := fun run =>
    (Cli.ending run = Cli.Exit 0 \/ exists e, Cli.ending run = Cli.Uncaught (PlainError e)) /\
    (Cli.client run = None \/
     exists w, Cli.client run = Some w /\ live_handles w = []) in
  (forall options, closed (Cli.cliPrinterInfo m options)) /\
  (forall options, closed (Cli.cliFlashFirmware m options)).
Proof.
  cbn zeta. split; intros options.
  - unfold Cli.cliPrinterInfo.
    destruct (Utils.initClient _ _ _ _) as [e|c] eqn:Hi.
    { apply initClient_refused in Hi as [_ [e' ->]]. cbn. eauto. }
    apply initClient_serial in Hi as [_ ->].
    destruct (awaited_connect
                (session (Utils.serial (Cli.platform m)) (Utils.intervalMs (Cli.platform m))
                   (Utils.clientDebug (Cli.platform m))
                   [DoSetPort (Cli.info_address options)]))
      as [(info & w & He & ->)|(e & w & He & ->)].
    + apply connected_first in He as (Hwf & _ & _).
      destruct (disconnected_after w Hwf) as (-> & Hl'). cbn. eauto 10.
    + apply connect_raised_inv in He as (_ & Hall & _); [|apply WF_session].
      cbn. split; [eauto|]. right. eexists. split; [done|].
      by apply all_closed_live.
  - unfold Cli.cliFlashFirmware.
    destruct (Utils.initClient _ _ _ _) as [e|c] eqn:Hi.
    { apply initClient_refused in Hi as [_ [e' ->]]. cbn. eauto. }
    apply initClient_serial in Hi as [_ ->].
    destruct (awaited_connect
                (session (Utils.serial (Cli.platform m)) (Utils.intervalMs (Cli.platform m))
                   (Utils.clientDebug (Cli.platform m))
                   [DoSetPort (Cli.fw_address options)]))
      as [(info & w & He & ->)|(e & w & He & ->)].
    + apply connected_first in He as (Hwf & _ & _).
      set (w1 := (exec 0 (call StopHeartbeat) w).2).
      assert (WF w1) as Hwf1.
      { subst w1. cbn. apply WF_log; [done..|]. by apply (WF_ext w). }
      set (w2 := fold_left _ _ w1).
      assert (WF w2) as Hwf2 by (by apply WF_actions).
      destruct (disconnected_after w2 Hwf2) as (-> & Hl').
      destruct (Cli.upgrade_fails m w1); cbn; eauto 10.
    + apply connect_raised_inv in He as (_ & Hall & _); [|apply WF_session].
      cbn. split; [eauto|]. right. eexists. split; [done|].
      by apply all_closed_live.
Qed.
